(** * EcoBloom peer-to-peer overlay: message codec, router, offline store
      and peer node, embedded from the Python sources.

    - [Py]            the fragment of the Python run time the sources use
    - [Message]       src/P2P System/message.py
    - [Router]        src/P2P System/router.py
    - [MessageStore]  src/P2P System/message_store.py
    - [Connection]    src/P2P-System/connection.py
    - [Peer]          src/peer.py and src/P2P-System/pest_alert_handler.py
    - [Wire], [Graph] the vocabulary of the specification
    - [Queue], [Stream], [Node]  the vocabulary of the invariants
    - [Samples]       concrete inputs
    - theorems        at the end of the file, after every definition *)

From Stdlib Require Import Floats ZArith.
From stdpp Require Import functions gmap strings list fin_maps sorting.

Set Warnings "-register-all".

(* ===================================================================== *)
(** * Python values, exceptions and the [json] module                     *)
(* ===================================================================== *)

Module Py.

(** What [json.loads] returns and [json.dumps] accepts. A [dict] is kept
    as its items in insertion order; [None] is [JNull]. *)
Inductive json : Type :=
  | JNull
  | JBool (b : bool)
  | JInt (z : Z)
  | JFloat (f : float)
  | JStr (s : string)
  | JList (l : list json)
  | JDict (d : list (string * json)).

(** The exceptions the sources can raise. [OutsideModel] stands for a run
    that leaves the str-keyed peer graph of this development (see
    [Peer.handle_network_structure_message]). *)
Inductive exn : Type :=
  | TypeError
  | KeyError
  | AttributeError
  | IntegrityError
  | OverflowError
  | OutsideModel.

(** A call either returns a value or raises. *)
Inductive pyresult (A : Type) : Type :=
  | Ok (a : A)
  | Raise (e : exn).
Arguments Ok {A} a.
Arguments Raise {A} e.

#[global] Instance pyresult_ret : MRet pyresult := fun A a => Ok a.
#[global] Instance pyresult_bind : MBind pyresult := fun A B k r =>
  match r with
  | Ok a => k a
  | Raise e => Raise e
  end.

(** [d.get(k)] on the items of a dict. *)
Fixpoint dict_get {V} (k : string) (d : list (string * V)) : option V :=
  match d with
  | [] => None
  | (k', v) :: d' => if String.eqb k k' then Some v else dict_get k d'
  end.

Fixpoint is_prefix (p s : string) : bool :=
  match p, s with
  | EmptyString, _ => true
  | String a p', String b s' => Ascii.eqb a b && is_prefix p' s'
  | String _ _, EmptyString => false
  end.

(** [p in s] for two [str]. *)
Fixpoint substring_in (p s : string) : bool :=
  is_prefix p s
  || match s with
     | EmptyString => false
     | String _ s' => substring_in p s'
     end.

(** [x == field] for a [str] [field]: only an equal [str] compares equal. *)
Definition eq_str (field : string) (x : json) : bool :=
  match x with
  | JStr s => String.eqb field s
  | _ => false
  end.

(** [field in data]: key test on a dict, element test on a list,
    substring test on a str, [TypeError] on anything else. *)
Definition py_in (field : string) (data : json) : pyresult bool :=
  match data with
  | JDict d => Ok (bool_decide (is_Some (dict_get field d)))
  | JList l => Ok (existsb (eq_str field) l)
  | JStr s => Ok (substring_in field s)
  | _ => Raise TypeError
  end.

(** [all(field in data for field in fields)]: stops at the first [False],
    and at the first exception. *)
Fixpoint all_in (fields : list string) (data : json) : pyresult bool :=
  match fields with
  | [] => Ok true
  | field :: rest =>
      match py_in field data with
      | Raise e => Raise e
      | Ok false => Ok false
      | Ok true => all_in rest data
      end
  end.

(** The instances of [int]: [bool] is a subclass of [int]. *)
Inductive pyint : Type :=
  | PBool (b : bool)
  | PInt (z : Z).

Definition int_value (i : pyint) : Z :=
  match i with
  | PBool true => 1
  | PBool false => 0
  | PInt z => z
  end.

(** The instances of [(int, float)]. *)
Inductive pynum : Type :=
  | NInt (i : pyint)
  | NFloat (f : float).

(** Truth value of a number: zero, [False] and both float zeros are false. *)
Definition num_truthy (n : pynum) : bool :=
  match n with
  | NInt i => negb (int_value i =? 0)%Z
  | NFloat f => negb (PrimFloat.eqb f 0%float)
  end.

(** [isinstance] tests, returning the value at its checked type. *)
Definition as_str (x : json) : option string :=
  match x with JStr s => Some s | _ => None end.

Definition as_str_or_none (x : json) : option (option string) :=
  match x with
  | JStr s => Some (Some s)
  | JNull => Some None
  | _ => None
  end.

Definition as_dict (x : json) : option (list (string * json)) :=
  match x with JDict d => Some d | _ => None end.

Definition as_int (x : json) : option pyint :=
  match x with
  | JBool b => Some (PBool b)
  | JInt z => Some (PInt z)
  | _ => None
  end.

Definition as_num (x : json) : option pynum :=
  match x with
  | JBool b => Some (NInt (PBool b))
  | JInt z => Some (NInt (PInt z))
  | JFloat f => Some (NFloat f)
  | _ => None
  end.

Definition as_list (x : json) : option (list json) :=
  match x with JList l => Some l | _ => None end.

Definition of_int (i : pyint) : json :=
  match i with PBool b => JBool b | PInt z => JInt z end.

Definition of_num (n : pynum) : json :=
  match n with NInt i => of_int i | NFloat f => JFloat f end.

Definition of_str_or_none (o : option string) : json :=
  match o with Some s => JStr s | None => JNull end.

(** The [json] module: [json_loads] is [None] where [json.loads] raises
    [JSONDecodeError]. *)
Class JsonModule : Type := {
  json_dumps : json → string;
  json_loads : string → option json
}.

(** [bytes.decode("utf-8")]: [None] where it raises [UnicodeDecodeError].
    Bytes are kept as the characters of a [string]. *)
Class Utf8Codec : Type := {
  utf8_decode : string → option string
}.

End Py.

(* ===================================================================== *)
(** * message.py                                                           *)
(* ===================================================================== *)

Module Message.
Import Py.

Record Message : Type := mkMessage {
  peer_id : string;
  target_user_id : option string;
  message_type : string;
  data : list (string * json);
  time_stamp : pynum;
  message_id : string;
  hop_count : pyint;
  path : list json
}.

(** [time_stamp or time.time()]: [None] and the zeros are false, and the
    clock is read only then. *)
Definition or_time (time_stamp : option pynum) (now : float) : pynum :=
  match time_stamp with
  | Some t => if num_truthy t then t else NFloat now
  | None => NFloat now
  end.

(** [Message.__init__]. [uuid] is [uuid.uuid4().hex[:8]] and [now] the
    reading [time.time()] gives when [time_stamp] is false. *)
Definition __init__ (uuid : string) (now : float)
    (peer_id : string) (target_user_id : option string)
    (message_type : string) (data : list (string * json))
    (time_stamp : option pynum) : Message :=
  {| peer_id := peer_id;
     target_user_id := target_user_id;
     message_type := message_type;
     data := data;
     time_stamp := or_time time_stamp now;
     message_id := uuid;
     hop_count := PInt 0;
     path := [JStr peer_id] |}.

(** The dict [to_json] hands to [json.dumps]. *)
Definition to_dict (self : Message) : json :=
  JDict [ ("peer_id", JStr self.(peer_id));
          ("target_user_id", of_str_or_none self.(target_user_id));
          ("message_type", JStr self.(message_type));
          ("data", JDict self.(data));
          ("time_stamp", of_num self.(time_stamp));
          ("message_id", JStr self.(message_id));
          ("hop_count", of_int self.(hop_count));
          ("path", JList self.(path)) ].

Definition to_json `{JsonModule} (self : Message) : string :=
  json_dumps (to_dict self).

Definition required_fields : list string :=
  ["peer_id"; "target_user_id"; "message_type"; "data"; "time_stamp";
   "message_id"].

(** [data[k]] on the items of a dict. *)
Definition getitem (d : list (string * json)) (k : string) : pyresult json :=
  match dict_get k d with
  | Some v => Ok v
  | None => Raise KeyError
  end.

(** [data.get(k, default)]. *)
Definition get_default (d : list (string * json)) (k : string) (default : json) : json :=
  match dict_get k d with
  | Some v => v
  | None => default
  end.

(** [if not isinstance(e, T): return None], naming the checked value. *)
Notation "'checked' x ':=' e 'else_None' k" :=
  (match e with Some x => k | None => Ok None end)
  (at level 10, x name, e at level 100, k at level 200, only parsing).

(** Lines 49 to 66 of [from_json], on a [data] that is a dict. *)
Definition from_json_dict (uuid : string) (now : float)
    (d : list (string * json)) : pyresult (option Message) :=
  v1 ← getitem d "peer_id";
  checked peer := as_str v1 else_None
  v2 ← getitem d "target_user_id";
  checked target := as_str_or_none v2 else_None
  v3 ← getitem d "message_type";
  checked mtype := as_str v3 else_None
  v4 ← getitem d "data";
  checked payload := as_dict v4 else_None
  v5 ← getitem d "time_stamp";
  checked stamp := as_num v5 else_None
  v6 ← getitem d "message_id";
  checked mid := as_str v6 else_None
  checked hops := as_int (get_default d "hop_count" (JInt 0)) else_None
  checked route := as_list (get_default d "path" (JList [])) else_None
  if (int_value hops >? 10)%Z then Ok None
  else
    let message := __init__ uuid now peer target mtype payload (Some stamp) in
    Ok (Some {| peer_id := message.(peer_id);
                target_user_id := message.(target_user_id);
                message_type := message.(message_type);
                data := message.(data);
                time_stamp := message.(time_stamp);
                message_id := mid;
                hop_count := hops;
                path := match dict_get "path" d with
                        | Some _ => route
                        | None => [JStr peer]
                        end |}).

(** [Message.from_json]. After the required-fields test, [data["peer_id"]]
    raises [TypeError] on a list and on a str. *)
Definition from_json `{JsonModule} (uuid : string) (now : float)
    (json_str : string) : pyresult (option Message) :=
  match json_loads json_str with
  | None => Ok None
  | Some data =>
      present ← all_in required_fields data;
      if negb present then Ok None
      else match data with
           | JDict d => from_json_dict uuid now d
           | _ => Raise TypeError
           end
  end.

Definition add_hop (self : Message) (peer : string) : Message :=
  {| peer_id := self.(peer_id);
     target_user_id := self.(target_user_id);
     message_type := self.(message_type);
     data := self.(data);
     time_stamp := self.(time_stamp);
     message_id := self.(message_id);
     hop_count := PInt (int_value self.(hop_count) + 1);
     path := self.(path) ++ [JStr peer] |}.

End Message.

(* ===================================================================== *)
(** * router.py                                                            *)
(* ===================================================================== *)

Module Router.

(** [routing_graph] maps a destination to the neighbour to send to;
    [peer_graph] maps a peer to its adjacency set, kept as the list of its
    elements in the order in which this process iterates the set. The two
    dicts are finite maps: the insertion order of their keys, which shows
    only in the order of the keys of a NETWORK_UPDATE message, is not
    kept. *)
Record Router : Type := mkRouter {
  routing_graph : gmap string string;
  peer_graph : gmap string (list string);
  peer_id : string
}.

(** [self.peer_graph.get(current_node, set())]. *)
Definition neighbors_of (g : gmap string (list string)) (node : string) : list string :=
  default [] (g !! node).

(** The [while frontier] loop; [None] when [fuel] iterations were not enough. *)
Fixpoint bfs_loop (fuel : nat) (g : gmap string (list string)) (target_peer_id : string)
    (frontier : list (string * list string)) (explored_nodes : gset string)
    : option (option (list string)) :=
  match fuel with
  | O => None
  | S fuel' =>
      match frontier with
      | [] => Some None
      | (current_node, current_path) :: frontier' =>
          if decide (current_node ∈ explored_nodes) then
            bfs_loop fuel' g target_peer_id frontier' explored_nodes
          else
            let explored_nodes' := {[current_node]} ∪ explored_nodes in
            if decide (current_node = target_peer_id) then Some (Some current_path)
            else
              let neighbors := neighbors_of g current_node in
              let fresh := filter (λ neighbor, neighbor ∉ explored_nodes') neighbors in
              bfs_loop fuel' g target_peer_id
                (frontier' ++ ((λ neighbor, (neighbor, current_path ++ [neighbor])) <$> fresh))
                explored_nodes'
      end
  end.

(** One more than the number of entries the frontier can ever receive. *)
Definition bfs_fuel (g : gmap string (list string)) : nat :=
  2 + sum_list (length <$> (map_to_list g).*2).

Definition BFS_path_finding (self : Router) (target_peer_id : string) : option (list string) :=
  if decide (target_peer_id = self.(peer_id)) then Some [self.(peer_id)]
  else if decide (target_peer_id ∈ dom self.(peer_graph)) then
    let start_node := self.(peer_id) in
    match bfs_loop (bfs_fuel self.(peer_graph)) self.(peer_graph) target_peer_id
            [(start_node, [start_node])] ∅ with
    | Some found => found
    | None => None
    end
  else None.

(** [path.index(current_node)]; [None] for [ValueError]. *)
Fixpoint list_index (x : string) (l : list string) : option nat :=
  match l with
  | [] => None
  | y :: l' => if decide (x = y) then Some 0 else S <$> list_index x l'
  end.

(** [get_next_hop] with [update_path=False], its only use. *)
Definition get_next_hop (current_node : string) (path : list string) : option string :=
  match list_index current_node path with
  | None => None
  | Some index =>
      if decide (length path ≤ index + 1) then None else path !! (index + 1)
  end.

(** Truth value of a [str]. *)
Definition str_truthy (s : string) : bool :=
  match s with EmptyString => false | _ => true end.

Definition update_routing_graph (self : Router) (known_peers : list string) : Router :=
  let step (routing : gmap string string) (target_peer : string) :=
    if decide (target_peer = self.(peer_id)) then routing
    else
      match BFS_path_finding self target_peer with
      | Some ((_ :: _) as path) =>
          match get_next_hop self.(peer_id) path with
          | Some next_hop =>
              if str_truthy next_hop then <[target_peer := next_hop]> routing
              else routing
          | None => routing
          end
      | _ => routing
      end in
  {| routing_graph := foldl step ∅ known_peers;
     peer_graph := self.(peer_graph);
     peer_id := self.(peer_id) |}.

(** [s.add(x)]. Where the hash table puts a new element in the iteration
    order is not modelled: the list takes it last, and no statement below
    depends on the place. *)
Definition set_add (x : string) (s : list string) : list string :=
  if decide (x ∈ s) then s else s ++ [x].

(** [s.remove(x)] for an [x] in [s]. *)
Definition set_remove (x : string) (s : list string) : list string :=
  filter (λ y, y ≠ x) s.

Definition update_peer_graph (self : Router) (other_peer_id : string) : Router :=
  let g0 := self.(peer_graph) in
  let g1 := if decide (self.(peer_id) ∈ dom g0) then g0 else <[self.(peer_id) := []]> g0 in
  let g2 := if decide (other_peer_id ∈ dom g1) then g1 else <[other_peer_id := []]> g1 in
  let g3 := alter (set_add other_peer_id) self.(peer_id) g2 in
  let g4 := alter (set_add self.(peer_id)) other_peer_id g3 in
  {| routing_graph := self.(routing_graph);
     peer_graph := g4;
     peer_id := self.(peer_id) |}.

Definition remove_peer (self : Router) (other_peer_id : string) : Router :=
  let g1 := if decide (other_peer_id ∈ dom self.(peer_graph))
            then delete other_peer_id self.(peer_graph)
            else self.(peer_graph) in
  let keys_to_remove :=
    (filter (λ row, row.1 = other_peer_id ∨ row.2 = other_peer_id)
            (map_to_list self.(routing_graph))).*1 in
  let routing := foldl (λ r key, delete key r) self.(routing_graph) keys_to_remove in
  let g2 := (λ connection,
              if decide (other_peer_id ∈ connection)
              then set_remove other_peer_id connection
              else connection) <$> g1 in
  {| routing_graph := routing;
     peer_graph := g2;
     peer_id := self.(peer_id) |}.

(** [get_next_hop] with [update_path=True]: the next node, and the path
    without the current one. *)
Definition get_next_hop_update_path (current_node : string) (path : list string)
    : option (string * list string) :=
  match list_index current_node path with
  | None => None
  | Some index =>
      if decide (length path ≤ index + 1) then None
      else
        next_node ← path !! (index + 1);
        Some (next_node, take index path ++ drop (index + 1) path)
  end.

End Router.

(* ===================================================================== *)
(** * message_store.py                                                     *)
(* ===================================================================== *)

Module MessageStore.
Import Py Message.

(** What SQLite keeps in a column of NUMERIC affinity for a number. *)
Inductive sqlite_number : Type :=
  | SqlNull
  | SqlInteger (i : Z)
  | SqlReal (r : float).

(** A Python [int] is bound as a 64-bit INTEGER. *)
Definition fits_int64 (z : Z) : bool :=
  (- 2 ^ 63 <=? z)%Z && (z <? 2 ^ 63)%Z.

(** The integer a float stands for, when it stands for one. *)
Definition real_to_integer (r : float) : option Z :=
  match Prim2SF r with
  | S754_zero _ => Some 0%Z
  | S754_finite s m e =>
      let magnitude :=
        if (0 <=? e)%Z then Some (Z.pos m * 2 ^ e)%Z
        else if (Z.pos m mod 2 ^ (- e) =? 0)%Z then Some (Z.pos m / 2 ^ (- e))%Z
        else None in
      (λ v, if s then (- v)%Z else v) <$> magnitude
  | _ => None
  end.

(** A float in a NUMERIC column: NaN is bound as NULL, and a REAL that is
    an integer strictly inside the 64-bit range is kept as that INTEGER. *)
Definition store_real (r : float) : sqlite_number :=
  if PrimFloat.is_nan r then SqlNull
  else match real_to_integer r with
       | Some v =>
           if (- 2 ^ 63 <? v)%Z && (v <? 2 ^ 63 - 1)%Z then SqlInteger v
           else SqlReal r
       | None => SqlReal r
       end.

(** Binding a parameter: an [int] outside the 64-bit range raises
    [OverflowError]; [True] and [False] are bound as [1] and [0]. *)
Definition bind_int (i : pyint) : pyresult Z :=
  if fits_int64 (int_value i) then Ok (int_value i) else Raise OverflowError.

Definition bind_number (n : pynum) : pyresult sqlite_number :=
  match n with
  | NInt i => z ← bind_int i; Ok (SqlInteger z)
  | NFloat f => Ok (store_real f)
  end.

(** What [sqlite3] hands back for a number. *)
Definition fetch_number (x : sqlite_number) : option pynum :=
  match x with
  | SqlNull => None
  | SqlInteger i => Some (NInt (PInt i))
  | SqlReal r => Some (NFloat r)
  end.

(** A row of [offline_messages]. The TEXT columns [data] and [path] hold
    [json.dumps] of the field and are read back with [json.loads]; the row
    keeps the document itself. *)
Record offline_row : Type := mkOffline {
  id : nat;
  row_peer_id : string;
  row_target_user_id : string;
  row_message_type : string;
  row_data : list (string * json);
  row_time_stamp : sqlite_number;
  row_message_id : string;
  row_hop_count : Z;
  row_path : list json
}.

(** A row of [schedule_messages]; [message_id] is its primary key.
    [expiry_time] is kept as the float that was bound: the statements only
    compare it, SQLite compares an INTEGER and a REAL by value, the INTEGER
    it keeps for an integral float has the value of the float, and the NULL
    it keeps for NaN makes every comparison fail as NaN does. *)
Record schedule_row : Type := mkSchedule {
  sched_message_id : string;
  last_tried : option float;
  retry_count : Z;
  expiry_time : float
}.

(** The database file of one peer. [offline_messages] is in rowid order and
    [sqlite_sequence] is the largest rowid AUTOINCREMENT has handed out. *)
Record Database : Type := mkDatabase {
  offline_messages : list offline_row;
  schedule_messages : list schedule_row;
  sqlite_sequence : nat
}.

(** [DELETE FROM offline_messages WHERE cond]. The schedule table stays as
    it is: SQLite enforces a FOREIGN KEY clause, and runs its ON DELETE
    CASCADE, only on a connection that has issued
    [PRAGMA foreign_keys = ON], and the module opens every connection with
    a bare [sqlite3.connect]. *)
Definition delete_offline (cond : offline_row → bool) (db : Database) : Database :=
  {| offline_messages := filter (λ o, cond o = false) db.(offline_messages);
     schedule_messages := db.(schedule_messages);
     sqlite_sequence := db.(sqlite_sequence) |}.

(** [SELECT message_id FROM schedule_messages WHERE cond]. *)
Definition select_schedule_ids (cond : schedule_row → bool) (db : Database) : list string :=
  sched_message_id <$> filter (λ s, cond s = true) db.(schedule_messages).

Definition WEEK : float := 604800%float.

(** The [int] fields of the message fit the 64-bit INTEGER. *)
Definition fits_numbers (message : Message) : bool :=
  match message.(time_stamp) with
  | NInt i => fits_int64 (int_value i)
  | NFloat _ => true
  end
  && fits_int64 (int_value message.(hop_count)).

(** The first INSERT of [store_offline_message]: binding the parameters,
    then the NOT NULL constraint on [target_user_id]. *)
Definition insert_offline (rowid : nat) (message : Message) : pyresult offline_row :=
  stamp ← bind_number message.(time_stamp);
  hops ← bind_int message.(hop_count);
  match message.(target_user_id) with
  | None => Raise IntegrityError
  | Some target =>
      Ok {| id := rowid;
            row_peer_id := message.(peer_id);
            row_target_user_id := target;
            row_message_type := message.(message_type);
            row_data := message.(data);
            row_time_stamp := stamp;
            row_message_id := message.(message_id);
            row_hop_count := hops;
            row_path := message.(path) |}
  end.

(** [store_offline_message], with [now] the reading of [time.time()].
    The second INSERT fails on the primary key of [schedule_messages]. An
    exception leaves before [commit], and the connection is dropped with
    its transaction rolled back. *)
Definition store_offline_message (now : float) (message : Message) (db : Database)
    : pyresult unit * Database :=
  let expiry_time := PrimFloat.add now WEEK in
  let rowid := S (max db.(sqlite_sequence) (max_list (id <$> db.(offline_messages)))) in
  match insert_offline rowid message with
  | Raise e => (Raise e, db)
  | Ok row =>
      if decide (message.(message_id) ∈ sched_message_id <$> db.(schedule_messages))
      then (Raise IntegrityError, db)
      else
        (Ok (),
         {| offline_messages := db.(offline_messages) ++ [row];
            schedule_messages :=
              db.(schedule_messages)
              ++ [ {| sched_message_id := message.(message_id);
                      last_tried := None;
                      retry_count := 0;
                      expiry_time := expiry_time |} ];
            sqlite_sequence := rowid |})
  end.

(** [DELETE ... WHERE message_id IN (SELECT ... WHERE expiry_time <= ?)]. *)
Definition delete_expired_messages (now : float) (db : Database) : Database :=
  let expired := select_schedule_ids (λ s, PrimFloat.leb s.(expiry_time) now) db in
  delete_offline (λ o, bool_decide (o.(row_message_id) ∈ expired)) db.

(** [DELETE ... WHERE target_user_id = ? AND message_id IN
    (SELECT ... WHERE expiry_time > ?)]. *)
Definition delet_sent_messages (target_peer : string) (now : float) (db : Database) : Database :=
  let live := select_schedule_ids (λ s, PrimFloat.ltb now s.(expiry_time)) db in
  delete_offline
    (λ o, String.eqb o.(row_target_user_id) target_peer
          && bool_decide (o.(row_message_id) ∈ live)) db.

(** [data_to_message_class]; [uuid] and [clock] are what [Message.__init__]
    draws for this row. *)
Definition data_to_message_class (uuid : string) (clock : float)
    (message_data : offline_row * schedule_row) : Message :=
  let o := message_data.1 in
  let message := __init__ uuid clock o.(row_peer_id) (Some o.(row_target_user_id))
                   o.(row_message_type) o.(row_data)
                   (fetch_number o.(row_time_stamp)) in
  {| peer_id := message.(peer_id);
     target_user_id := message.(target_user_id);
     message_type := message.(message_type);
     data := message.(data);
     time_stamp := message.(time_stamp);
     message_id := o.(row_message_id);
     hop_count := PInt o.(row_hop_count);
     path := o.(row_path) |}.

(** The SELECT of [get_pending_messages]: the join of the two tables on
    [message_id], in the order of [offline_messages]. *)
Definition select_pending (target_peer : string) (now : float) (db : Database)
    : list (offline_row * schedule_row) :=
  o ← db.(offline_messages);
  s ← db.(schedule_messages);
  if String.eqb o.(row_message_id) s.(sched_message_id)
     && String.eqb o.(row_target_user_id) target_peer
     && PrimFloat.ltb now s.(expiry_time)
  then [(o, s)] else [].

(** [get_pending_messages]. The three statements read the clock one after
    the other: [t_expired] in [delete_expired_messages], [t_select] in the
    SELECT and [t_sent] in [delet_sent_messages]; [draw i] is what
    [Message.__init__] draws for the [i]-th row. *)
Definition get_pending_messages (target_peer : string)
    (t_expired t_select t_sent : float) (draw : nat → string * float)
    (db : Database) : list Message * Database :=
  let db1 := delete_expired_messages t_expired db in
  let result_raw := select_pending target_peer t_select db1 in
  let messages := imap (λ i result, data_to_message_class (draw i).1 (draw i).2 result)
                       result_raw in
  let db2 := delet_sent_messages target_peer t_sent db1 in
  (messages, db2).

(** The SELECT of [get_all_pending_messages]. *)
Definition select_all_pending (now : float) (db : Database)
    : list (offline_row * schedule_row) :=
  o ← db.(offline_messages);
  s ← db.(schedule_messages);
  if String.eqb o.(row_message_id) s.(sched_message_id)
     && PrimFloat.ltb now s.(expiry_time)
  then [(o, s)] else [].

(** [get_all_pending_messages]: no statement of it writes. *)
Definition get_all_pending_messages (now : float) (draw : nat → string * float)
    (db : Database) : list Message :=
  imap (λ i result, data_to_message_class (draw i).1 (draw i).2 result)
       (select_all_pending now db).

(** The SELECT of [get_message_by_id]. *)
Definition select_by_id (message_id : string) (now : float) (db : Database)
    : list (offline_row * schedule_row) :=
  o ← db.(offline_messages);
  s ← db.(schedule_messages);
  if String.eqb o.(row_message_id) s.(sched_message_id)
     && String.eqb o.(row_message_id) message_id
     && PrimFloat.ltb now s.(expiry_time)
  then [(o, s)] else [].

(** [get_message_by_id]: [fetchone] takes the first row of the SELECT. *)
Definition get_message_by_id (message_id : string) (t_expired t_select : float)
    (draw : string * float) (db : Database) : option Message * Database :=
  let db1 := delete_expired_messages t_expired db in
  let result_raw := head (select_by_id message_id t_select db1) in
  (data_to_message_class draw.1 draw.2 <$> result_raw, db1).

Definition delete_message_by_id (message_id : string) (db : Database) : Database :=
  delete_offline (λ o, String.eqb o.(row_message_id) message_id) db.

(** [increment_retry_count]. [last_tried] takes the clock reading, NULL
    for NaN. The sum [retry_count + 1] leaves the INTEGERs at [2 ^ 63],
    where SQLite goes on with a REAL that [schedule_row] does not hold:
    [OutsideModel]. *)
Definition increment_retry_count (now : float) (message_id : string) (db : Database)
    : pyresult Z * Database :=
  let hit (s : schedule_row) := String.eqb s.(sched_message_id) message_id in
  if existsb (λ s, hit s && negb (fits_int64 (s.(retry_count) + 1))) db.(schedule_messages)
  then (Raise OutsideModel, db)
  else
    let updated :=
      (λ s, if hit s
            then {| sched_message_id := s.(sched_message_id);
                    last_tried := if PrimFloat.is_nan now then None else Some now;
                    retry_count := s.(retry_count) + 1;
                    expiry_time := s.(expiry_time) |}
            else s) <$> db.(schedule_messages) in
    let result := head (filter (λ s, hit s = true) updated) in
    (Ok (default 0%Z (retry_count <$> result)),
     {| offline_messages := db.(offline_messages);
        schedule_messages := updated;
        sqlite_sequence := db.(sqlite_sequence) |}).

End MessageStore.

(* ===================================================================== *)
(** * connection.py                                                        *)
(* ===================================================================== *)

Module Connection.
Import Py Message.

Record PeerConnection : Type := mkConnection {
  peer_id : option string;
  address : string * Z;
  inbound_buffer : string;
  outbound_buffer : string;
  is_handshake_complete : bool
}.

Definition MAX_BUFFER_SIZE : Z := 1024 * 1024.

Definition newline : string := String (Ascii.ascii_of_nat 10) EmptyString.

(** [PeerConnection.__init__]. *)
Definition __init__ (address : string * Z) : PeerConnection :=
  {| peer_id := None;
     address := address;
     inbound_buffer := EmptyString;
     outbound_buffer := EmptyString;
     is_handshake_complete := false |}.

(** [queue_message]: [json.dumps] escapes every non-ASCII character, so
    the encoded bytes are the characters of the line. *)
Definition queue_message `{JsonModule} (self : PeerConnection) (message : Message)
    : bool * PeerConnection :=
  let json_message := to_json message in
  let message_bytes := json_message +:+ newline in
  if decide (Z.of_nat (String.length self.(outbound_buffer))
             + Z.of_nat (String.length message_bytes) > MAX_BUFFER_SIZE)%Z
  then (false, self)
  else (true,
        {| peer_id := self.(peer_id);
           address := self.(address);
           inbound_buffer := self.(inbound_buffer);
           outbound_buffer := self.(outbound_buffer) +:+ message_bytes;
           is_handshake_complete := self.(is_handshake_complete) |}).

(** [b"\n" in self.inbound_buffer]. *)
Definition is_message_complete (self : PeerConnection) : bool :=
  substring_in newline self.(inbound_buffer).

(** [buffer.split(b"\n", 1)]: the bytes before and after the first
    newline; [None] when there is none and the unpacking raises. *)
Fixpoint split_newline (buffer : string) : option (string * string) :=
  match buffer with
  | EmptyString => None
  | String a rest =>
      if Ascii.eqb a (Ascii.ascii_of_nat 10) then Some (EmptyString, rest)
      else (λ r : string * string, (String a r.1, r.2)) <$> split_newline rest
  end.

(** [extract_message]: the assignment to [inbound_buffer] is done when
    [decode] or [from_json] raises, and [except Exception] turns every
    exception into [None]. *)
Definition extract_message `{JsonModule} `{Utf8Codec} (uuid : string) (now : float)
    (self : PeerConnection) : option Message * PeerConnection :=
  if negb (is_message_complete self) then (None, self)
  else
    match split_newline self.(inbound_buffer) with
    | None => (None, self)
    | Some (line, rest) =>
        let self' := {| peer_id := self.(peer_id);
                        address := self.(address);
                        inbound_buffer := rest;
                        outbound_buffer := self.(outbound_buffer);
                        is_handshake_complete := self.(is_handshake_complete) |} in
        match utf8_decode line with
        | None => (None, self')
        | Some text =>
            match from_json uuid now text with
            | Ok message => (message, self')
            | Raise _ => (None, self')
            end
        end
    end.

(** What [self.socket.send(data)] does: it returns the number of bytes it
    took, or raises. *)
Inductive socket_send : Type :=
  | send_returns (sent : nat)
  | send_BlockingIOError
  | send_ConnectionResetError
  | send_OSError.

(** [buffer[sent:]]. *)
Fixpoint bytes_from (sent : nat) (buffer : string) : string :=
  match sent, buffer with
  | O, _ => buffer
  | S _, EmptyString => EmptyString
  | S sent', String _ rest => bytes_from sent' rest
  end.

(** [send_buffered_data], with [send] the socket: [Some (Some true)] for
    [True], [Some (Some false)] for [False], [Some None] for [None], and
    [None] where an exception other than the two it catches leaves. The
    socket is not asked on an empty buffer. *)
Definition send_buffered_data (send : string → socket_send) (self : PeerConnection)
    : option (option bool) * PeerConnection :=
  match self.(outbound_buffer) with
  | EmptyString => (Some (Some true), self)
  | _ =>
      match send self.(outbound_buffer) with
      | send_returns sent =>
          let rest := bytes_from sent self.(outbound_buffer) in
          (Some (Some (match rest with EmptyString => true | _ => false end)),
           {| peer_id := self.(peer_id);
              address := self.(address);
              inbound_buffer := self.(inbound_buffer);
              outbound_buffer := rest;
              is_handshake_complete := self.(is_handshake_complete) |})
      | send_BlockingIOError => (Some (Some false), self)
      | send_ConnectionResetError => (Some None, self)
      | send_OSError => (None, self)
      end
  end.

End Connection.

(* ===================================================================== *)
(** * peer.py and pest_alert_handler.py                                    *)
(* ===================================================================== *)

Module Peer.
Import Py.

(** The readings of [time.time()] and the tokens of [uuid.uuid4().hex[:8]],
    one per call site and loop iteration of the running call. *)
Record Oracle : Type := mkOracle {
  time_time : list nat → float;
  uuid4_hex8 : list nat → string
}.

(** The oracle of the [k]-th call site. *)
Definition site (env : Oracle) (k : nat) : Oracle :=
  {| time_time := λ p, env.(time_time) (k :: p);
     uuid4_hex8 := λ p, env.(uuid4_hex8) (k :: p) |}.

(** [Message(peer_id, target_user_id, message_type, data, time.time())]. *)
Definition Message (env : Oracle) (peer_id : string) (target_user_id : option string)
    (message_type : string) (data : list (string * json)) : Message.Message :=
  Message.__init__ (env.(uuid4_hex8) []) (env.(time_time) [1])
    peer_id target_user_id message_type data (Some (NFloat (env.(time_time) [0]))).

(** An entry of [PestAlertHandler.recent_alerts] for a received alert. *)
Record received_alert : Type := mkReceived {
  alert_message : Message.Message;
  alert_timestamp : float;
  received_from : string
}.

Record Peer : Type := mkPeer {
  host : string;
  port : Z;
  peer_id : string;
  (** the [PeerConnection] objects, by identity *)
  objects : nat → Connection.PeerConnection;
  (** [self.connections]: peer id to connection object, in insertion order *)
  connections : list (string * nat);
  seen_messages : gset string;
  (** [self.known_peers]: peer id to endpoint, in insertion order *)
  known_peers : list (string * json);
  router : Router.Router;
  message_store : MessageStore.Database;
  (** [self.pest_handler.recent_alerts] *)
  recent_alerts : list received_alert
}.

Definition set_objects (f : (nat → Connection.PeerConnection) → nat → Connection.PeerConnection)
    (self : Peer) : Peer :=
  mkPeer self.(host) self.(port) self.(peer_id) (f self.(objects)) self.(connections)
    self.(seen_messages) self.(known_peers) self.(router) self.(message_store)
    self.(recent_alerts).

Definition set_connections (f : list (string * nat) → list (string * nat)) (self : Peer) : Peer :=
  mkPeer self.(host) self.(port) self.(peer_id) self.(objects) (f self.(connections))
    self.(seen_messages) self.(known_peers) self.(router) self.(message_store)
    self.(recent_alerts).

Definition set_seen_messages (f : gset string → gset string) (self : Peer) : Peer :=
  mkPeer self.(host) self.(port) self.(peer_id) self.(objects) self.(connections)
    (f self.(seen_messages)) self.(known_peers) self.(router) self.(message_store)
    self.(recent_alerts).

Definition set_known_peers (f : list (string * json) → list (string * json)) (self : Peer) : Peer :=
  mkPeer self.(host) self.(port) self.(peer_id) self.(objects) self.(connections)
    self.(seen_messages) (f self.(known_peers)) self.(router) self.(message_store)
    self.(recent_alerts).

Definition set_router (f : Router.Router → Router.Router) (self : Peer) : Peer :=
  mkPeer self.(host) self.(port) self.(peer_id) self.(objects) self.(connections)
    self.(seen_messages) self.(known_peers) (f self.(router)) self.(message_store)
    self.(recent_alerts).

Definition set_message_store (f : MessageStore.Database → MessageStore.Database)
    (self : Peer) : Peer :=
  mkPeer self.(host) self.(port) self.(peer_id) self.(objects) self.(connections)
    self.(seen_messages) self.(known_peers) self.(router) (f self.(message_store))
    self.(recent_alerts).

Definition set_recent_alerts (f : list received_alert → list received_alert) (self : Peer) : Peer :=
  mkPeer self.(host) self.(port) self.(peer_id) self.(objects) self.(connections)
    self.(seen_messages) self.(known_peers) self.(router) self.(message_store)
    (f self.(recent_alerts)).

(** A call that leaves the classes of the sources. *)
Inductive event : Type :=
  | send_message_to_peer (peer_id : string) (message : Message.Message).

(** What a method call leaves: its result or exception, the peer as the
    call left it, and the calls that left the classes of the sources, in
    order. *)
Record outcome (A : Type) : Type := mkOutcome {
  value : pyresult A;
  state : Peer;
  calls : list event
}.
Arguments mkOutcome {A} value state calls.
Arguments value {A} o.
Arguments state {A} o.
Arguments calls {A} o.

Definition M (A : Type) : Type := Peer → outcome A.

#[global] Instance M_ret : MRet M := λ A a self, mkOutcome (Ok a) self [].
#[global] Instance M_bind : MBind M := λ A B k c self,
  let o := c self in
  match o.(value) with
  | Ok a =>
      let o' := k a o.(state) in
      mkOutcome o'.(value) o'.(state) (o.(calls) ++ o'.(calls))
  | Raise e => mkOutcome (Raise e) o.(state) o.(calls)
  end.

Definition get : M Peer := λ self, mkOutcome (Ok self) self [].
Definition modify (f : Peer → Peer) : M unit := λ self, mkOutcome (Ok ()) (f self) [].
Definition raise {A} (e : exn) : M A := λ self, mkOutcome (Raise e) self [].
(** [self.peer.send_message_to_peer(...)]: class [Peer] defines no method
    of this name and no [__getattr__], so the attribute lookup raises
    [AttributeError] and no call is made. *)
Definition call (ev : event) : M unit := λ self, mkOutcome (Raise AttributeError) self [].
Definition lift {A} (r : pyresult A) : M A := λ self, mkOutcome r self [].

(** The call leaves the component [proj] of the peer as it found it. *)
Definition preserves {X A} (proj : Peer → X) (c : M A) : Prop :=
  ∀ self, proj (state (c self)) = proj self.

(** [for x in l: body(x)]. *)
Fixpoint for_each {A} (l : list A) (body : nat → A → M unit) (i : nat) : M unit :=
  match l with
  | [] => mret ()
  | x :: l' => body i x;; for_each l' body (S i)
  end.

(** [d[k] = v]: the key keeps its place when it is there already. *)
Fixpoint dict_set {V} (k : string) (v : V) (d : list (string * V)) : list (string * V) :=
  match d with
  | [] => [(k, v)]
  | (k', v') :: d' =>
      if String.eqb k k' then (k, v) :: d' else (k', v') :: dict_set k v d'
  end.

(** [k in d]. *)
Definition dict_in {V} (k : string) (d : list (string * V)) : bool :=
  bool_decide (is_Some (dict_get k d)).

Section methods.
Context `{JsonModule}.

(** [connection.queue_message(message)] on the connection object [c]. *)
Definition queue_message (c : nat) (message : Message.Message) : M bool :=
  self ← get;
  let r := Connection.queue_message (self.(objects) c) message in
  modify (set_objects (<[c := r.2]>));;
  mret r.1.

Definition queue_offline_message (env : Oracle) (message : Message.Message) : M unit :=
  self ← get;
  let r := MessageStore.store_offline_message (env.(time_time) []) message
             self.(message_store) in
  modify (set_message_store (λ _, r.2));;
  lift r.1.

Definition route_message (env : Oracle) (message : Message.Message) : M bool :=
  self ← get;
  let target := message.(Message.target_user_id) in
  let next_hop := target ≫= λ t, self.(router).(Router.routing_graph) !! t in
  match next_hop with
  | None => queue_offline_message env message;; mret false
  | Some next_hop =>
      match dict_get next_hop self.(connections) with
      | Some c =>
          queue_message c (Message.add_hop message self.(peer_id));;
          mret true
      | None => queue_offline_message env message;; mret false
      end
  end.

Definition send_message (env : Oracle) (message : Message.Message) : M bool :=
  self ← get;
  match message.(Message.target_user_id) ≫= λ t,
        if negb (String.eqb t self.(peer_id)) then dict_get t self.(connections)
        else None with
  | Some c =>
      queue_message c (Message.add_hop message self.(peer_id));;
      mret true
  | None => route_message env message
  end.

Definition deliver_queued_messages (env : Oracle) (target_peer : string) : M unit :=
  self ← get;
  let r := MessageStore.get_pending_messages target_peer
             (env.(time_time) [0]) (env.(time_time) [1]) (env.(time_time) [2])
             (λ i, (env.(uuid4_hex8) [3; i], env.(time_time) [3; i]))
             self.(message_store) in
  modify (set_message_store (λ _, r.2));;
  for_each r.1 (λ i message, send_message (site (site env 4) i) message;; mret ()) 0.

(** [{key: list(value) for key, value in self.router.peer_graph.items()}]
    under the key [peer_graph]. *)
Definition peer_graph_data (self : Peer) : list (string * json) :=
  [("peer_graph",
    JDict ((λ kv : string * list string, (kv.1, JList (JStr <$> kv.2)))
           <$> map_to_list self.(router).(Router.peer_graph)))].

(** [d.get(k)]. *)
Definition get_or_none (d : list (string * json)) (k : string) : json :=
  default JNull (dict_get k d).

(** The two gossip messages a neighbour gets after a handshake. *)
Definition send_views (env : Oracle) (to : string) (c : nat) : M unit :=
  self ← get;
  queue_message c (Message (site env 0) self.(peer_id) (Some to) "PEER_LIST"
                     self.(known_peers));;
  self ← get;
  queue_message c (Message (site env 1) self.(peer_id) (Some to) "NETWORK_UPDATE"
                     (peer_graph_data self));;
  mret ().

Definition handle_handshake (env : Oracle) (message : Message.Message) (connection : nat)
    : M unit :=
  let other_peer_id := message.(Message.peer_id) in
  modify (set_connections (dict_set other_peer_id connection));;
  self ← get;
  (if negb (dict_in other_peer_id self.(known_peers)) then
     queue_message connection
       (Message (site env 0) self.(peer_id) (Some other_peer_id) "HANDSHAKE"
          [("host", JStr self.(host)); ("port", JInt self.(port))]);;
     mret ()
   else mret ());;
  modify (set_known_peers (dict_set other_peer_id
    (JDict [("host", get_or_none message.(Message.data) "host");
            ("port", get_or_none message.(Message.data) "port")])));;
  modify (set_router (λ r, Router.update_peer_graph r other_peer_id));;
  modify (λ self, set_router
            (λ r, Router.update_routing_graph r self.(known_peers).*1) self);;
  modify (set_objects (λ objects,
    <[connection := {| Connection.peer_id := Some other_peer_id;
                       Connection.address := (objects connection).(Connection.address);
                       Connection.inbound_buffer :=
                         (objects connection).(Connection.inbound_buffer);
                       Connection.outbound_buffer :=
                         (objects connection).(Connection.outbound_buffer);
                       Connection.is_handshake_complete := true |}]> objects));;
  deliver_queued_messages (site env 1) other_peer_id;;
  send_views (site env 2) other_peer_id connection;;
  self ← get;
  for_each self.(connections) (λ i existing,
    self ← get;
    if negb (String.eqb existing.1 other_peer_id)
       && (self.(objects) existing.2).(Connection.is_handshake_complete)
    then send_views (site (site env 3) i) existing.1 existing.2
    else mret ()) 0.

Definition handle_user_message (env : Oracle) (message : Message.Message) : M unit :=
  self ← get;
  if bool_decide (message.(Message.target_user_id) = Some self.(peer_id)) then mret ()
  else route_message env message;; mret ().

Definition handle_peer_list (env : Oracle) (message : Message.Message) : M unit :=
  let peer_list := message.(Message.data) in
  self ← get;
  let r := foldl (λ (acc : list (string * json) * nat) (item : string * json),
                    if negb (String.eqb item.1 self.(peer_id))
                       && negb (dict_in item.1 acc.1)
                    then (dict_set item.1 item.2 acc.1, S acc.2)
                    else acc)
             (self.(known_peers), 0) peer_list in
  modify (set_known_peers (λ _, r.1));;
  if decide (0 < r.2) then
    modify (λ self, set_router
              (λ r, Router.update_routing_graph r self.(known_peers).*1) self);;
    self ← get;
    for_each self.(connections) (λ i existing,
      self ← get;
      if (self.(objects) existing.2).(Connection.is_handshake_complete)
      then queue_message existing.2
             (Message (site env i) self.(peer_id) (Some existing.1) "PEER_LIST"
                self.(known_peers));;
           mret ()
      else mret ()) 0
  else mret ().

(** [for neighbor in neighbors]: the elements of a list, the characters of
    a str, the keys of a dict. *)
Fixpoint characters (s : string) : list string :=
  match s with
  | EmptyString => []
  | String a s' => String a EmptyString :: characters s'
  end.

Definition iterate (x : json) : pyresult (list json) :=
  match x with
  | JList l => Ok l
  | JStr s => Ok (JStr <$> characters s)
  | JDict d => Ok (JStr <$> d.*1)
  | _ => Raise TypeError
  end.

(** [hash(x)] raises [TypeError] on a list and on a dict. *)
Definition unhashable (x : json) : bool :=
  match x with
  | JList _ | JDict _ => true
  | _ => false
  end.

Definition set_peer_graph (f : gmap string (list string) → gmap string (list string))
    (r : Router.Router) : Router.Router :=
  {| Router.routing_graph := r.(Router.routing_graph);
     Router.peer_graph := f r.(Router.peer_graph);
     Router.peer_id := r.(Router.peer_id) |}.

(** The body of the inner loop of [handle_network_structure_message] for
    one [neighbor] that is a str; returns whether the graph changed. *)
Definition merge_edge (peer : string) (neighbor : string) : M bool :=
  self ← get;
  let g0 := self.(router).(Router.peer_graph) in
  let new_node := bool_decide (neighbor ∉ dom g0) in
  let g1 := if new_node then <[neighbor := []]> g0 else g0 in
  let forward := bool_decide (neighbor ∉ Router.neighbors_of g1 peer) in
  let g2 := if forward then alter (Router.set_add neighbor) peer g1 else g1 in
  let backward := bool_decide (peer ∉ Router.neighbors_of g2 neighbor) in
  let g3 := if backward then alter (Router.set_add peer) neighbor g2 else g2 in
  modify (set_router (set_peer_graph (λ _, g3)));;
  mret (new_node || forward || backward).

(** [network_updated], threaded through the loops. *)
Fixpoint merge_neighbors (peer : string) (neighbors : list json) (updated : bool)
    : M bool :=
  match neighbors with
  | [] => mret updated
  | neighbor :: rest =>
      match neighbor with
      | JStr n =>
          changed ← merge_edge peer n;
          merge_neighbors peer rest (updated || changed)
      | JList _ | JDict _ => raise TypeError
      | _ => raise OutsideModel
      end
  end.

Fixpoint merge_graph (received_graph : list (string * json)) (updated : bool) : M bool :=
  match received_graph with
  | [] => mret updated
  | (peer, neighbors) :: rest =>
      self ← get;
      let new_node := bool_decide (peer ∉ dom self.(router).(Router.peer_graph)) in
      (if new_node
       then modify (set_router (set_peer_graph (<[peer := []]>)))
       else mret ());;
      elements ← lift (iterate neighbors);
      updated' ← merge_neighbors peer elements (updated || new_node);
      merge_graph rest updated'
  end.

Definition handle_network_structure_message (env : Oracle) (message : Message.Message)
    : M unit :=
  match get_or_none message.(Message.data) "peer_graph" with
  | JDict received_graph =>
      network_updated ← merge_graph received_graph false;
      if (network_updated : bool) then
        modify (λ self, set_router
                  (λ r, Router.update_routing_graph r self.(known_peers).*1) self);;
        self ← get;
        for_each self.(connections) (λ i existing,
          self ← get;
          if negb (String.eqb existing.1 message.(Message.peer_id))
             && (self.(objects) existing.2).(Connection.is_handshake_complete)
          then queue_message existing.2
                 (Message (site env i) self.(peer_id) (Some existing.1)
                    "NETWORK_UPDATE" (peer_graph_data self));;
               mret ()
          else mret ()) 0
      else mret ()
  | _ => raise AttributeError
  end.

End methods.

(** ** pest_alert_handler.py *)

Section PestAlertHandler.

Definition FORWARD_LIMIT : Z := 3.

(** [_forward_alert]. The copy for the first connected peer outside the
    path is built, and handing it to [send_message_to_peer] raises (see
    [call]): the loop ends there. *)
Definition _forward_alert (env : Oracle) (alert_message : Message.Message) : M unit :=
  if existsb unhashable alert_message.(Message.path) then raise TypeError
  else
    self ← get;
    for_each self.(connections).*1 (λ i peer,
      if negb (existsb (eq_str peer) alert_message.(Message.path)) then
        let forwarded_msg :=
          Message (site env i) self.(Peer.peer_id) (Some peer) "PEST_ALERT"
            alert_message.(Message.data) in
        call (send_message_to_peer peer
          {| Message.peer_id := forwarded_msg.(Message.peer_id);
             Message.target_user_id := forwarded_msg.(Message.target_user_id);
             Message.message_type := forwarded_msg.(Message.message_type);
             Message.data := forwarded_msg.(Message.data);
             Message.time_stamp := forwarded_msg.(Message.time_stamp);
             Message.message_id := alert_message.(Message.message_id);
             Message.hop_count :=
               PInt (int_value alert_message.(Message.hop_count) + 1);
             Message.path :=
               alert_message.(Message.path) ++ [JStr self.(Peer.peer_id)] |})
      else mret ()) 0.

Definition handle_received_alert (env : Oracle) (alert_message : Message.Message)
    : M unit :=
  let data := alert_message.(Message.data) in
  let source_farm := alert_message.(Message.peer_id) in
  modify (set_recent_alerts (λ alerts,
    alerts ++ [ {| alert_message := alert_message;
                   alert_timestamp := env.(time_time) [];
                   received_from := source_farm |} ]));;
  (if dict_in "pest_count" data && dict_in "pest_type" data && dict_in "risk_level" data
   then mret () else raise KeyError : M unit);;
  if bool_decide (int_value alert_message.(Message.hop_count) < FORWARD_LIMIT)%Z
  then _forward_alert (site env 0) alert_message
  else mret ().

End PestAlertHandler.

Section handle_message.
Context `{JsonModule}.

(** The [if]/[elif] chain of [handle_message]. *)
Definition dispatch (env : Oracle) (message : Message.Message) (connection : nat)
    : M unit :=
  let message_type := message.(Message.message_type) in
  if String.eqb message_type "PEST_ALERT" then handle_received_alert env message
  else if String.eqb message_type "HANDSHAKE" then handle_handshake env message connection
  else if String.eqb message_type "MESSAGE" then handle_user_message env message
  else if String.eqb message_type "PEER_LIST" then handle_peer_list env message
  else if String.eqb message_type "NETWORK_UPDATE"
       then handle_network_structure_message env message
  else mret ().

Definition handle_message (env : Oracle) (message : Message.Message) (connection : nat)
    : M unit :=
  self ← get;
  if bool_decide (message.(Message.message_id) ∈ self.(seen_messages)) then mret ()
  else
    modify (set_seen_messages (λ seen, {[message.(Message.message_id)]} ∪ seen));;
    dispatch env message connection.

(** The handlers of a node. *)
Inductive handler : Type :=
  | ReceivedAlert
  | Handshake
  | UserMessage
  | PeerList
  | NetworkStructure.

(** The handler of a message type. *)
Definition handler_of (message_type : string) : option handler :=
  if String.eqb message_type "PEST_ALERT" then Some ReceivedAlert
  else if String.eqb message_type "HANDSHAKE" then Some Handshake
  else if String.eqb message_type "MESSAGE" then Some UserMessage
  else if String.eqb message_type "PEER_LIST" then Some PeerList
  else if String.eqb message_type "NETWORK_UPDATE" then Some NetworkStructure
  else None.

Definition run_handler (h : handler) (env : Oracle) (message : Message.Message)
    (connection : nat) : M unit :=
  match h with
  | ReceivedAlert => handle_received_alert env message
  | Handshake => handle_handshake env message connection
  | UserMessage => handle_user_message env message
  | PeerList => handle_peer_list env message
  | NetworkStructure => handle_network_structure_message env message
  end.

(** The peer before the [k]-th call of [handle_message] when the messages
    of [inbox] are processed one after the other, as [process_message]
    does; an exception ends the loop of [start_listening], and there is no
    [k]-th call then. *)
Fixpoint before (env : Oracle) (i : nat) (inbox : list (Message.Message * nat))
    (self : Peer) (k : nat) : option Peer :=
  match k, inbox with
  | O, _ => Some self
  | S k', (message, connection) :: rest =>
      let o := handle_message (site env i) message connection self in
      match o.(value) with
      | Ok _ => before env (S i) rest o.(state) k'
      | Raise _ => None
      end
  | S _, [] => None
  end.

(** The same calls, with their log: each message of [inbox] that got its
    call, paired with the handler it was dispatched to. *)
Fixpoint run (env : Oracle) (i : nat) (inbox : list (Message.Message * nat)) (self : Peer)
    : list (Message.Message * option handler) * Peer :=
  match inbox with
  | [] => ([], self)
  | (message, connection) :: rest =>
      let dispatched :=
        if bool_decide (message.(Message.message_id) ∈ self.(seen_messages)) then None
        else handler_of message.(Message.message_type) in
      let o := handle_message (site env i) message connection self in
      match o.(value) with
      | Ok _ =>
          let r := run env (S i) rest o.(state) in
          ((message, dispatched) :: r.1, r.2)
      | Raise _ => ([(message, dispatched)], o.(state))
      end
  end.

(** The entries of a log that were dispatched and carry the identifier. *)
Definition dispatched_with (mid : string) (log : list (Message.Message * option handler))
    : list (Message.Message * option handler) :=
  filter (λ entry, Message.message_id entry.1 = mid ∧ is_Some entry.2) log.

End handle_message.

Section process_message.
Context `{JsonModule} `{Utf8Codec}.

(** The number of newline bytes of a buffer. *)
Fixpoint count_newlines (buffer : string) : nat :=
  match buffer with
  | EmptyString => 0
  | String a rest =>
      (if Ascii.eqb a (Ascii.ascii_of_nat 10) then 1 else 0) + count_newlines rest
  end.

(** The [while connection.is_message_complete()] loop of [process_message];
    [None] when [fuel] iterations were not enough. *)
Fixpoint process_loop (fuel : nat) (env : Oracle) (connection : nat) (i : nat)
    : M (option unit) :=
  match fuel with
  | O => mret None
  | S fuel' =>
      self ← get;
      if Connection.is_message_complete (self.(objects) connection) then
        let r := Connection.extract_message
                   (env.(uuid4_hex8) [i; 0]) (env.(time_time) [i; 0])
                   (self.(objects) connection) in
        modify (set_objects (<[connection := r.2]>));;
        match r.1 with
        | Some message => handle_message (site (site env i) 1) message connection
        | None => mret ()
        end;;
        process_loop fuel' env connection (S i)
      else mret (Some ())
  end.

(** [process_message]: one more iteration than the buffer has newlines. *)
Definition process_message (env : Oracle) (connection : nat) : M (option unit) :=
  self ← get;
  process_loop
    (S (count_newlines (self.(objects) connection).(Connection.inbound_buffer)))
    env connection 0.

(** [d.pop(k, None)]. *)
Definition dict_pop {V} (k : string) (d : list (string * V)) : list (string * V) :=
  filter (λ kv, kv.1 ≠ k) d.

(** [cleanup_connection], after the socket was unregistered and closed. *)
Definition cleanup_connection (env : Oracle) (connection : nat) : M unit :=
  self ← get;
  match (self.(objects) connection).(Connection.peer_id) with
  | Some disconnected_peer =>
      if Router.str_truthy disconnected_peer then
        modify (set_connections (dict_pop disconnected_peer));;
        modify (set_router (λ r, Router.remove_peer r disconnected_peer));;
        modify (λ self, set_router
                  (λ r, Router.update_routing_graph r self.(known_peers).*1) self);;
        self ← get;
        for_each self.(connections) (λ i existing,
          self ← get;
          if (self.(objects) existing.2).(Connection.is_handshake_complete)
          then queue_message existing.2
                 (Message (site env i) self.(peer_id) (Some existing.1)
                    "NETWORK_UPDATE" (peer_graph_data self));;
               mret ()
          else mret ()) 0
      else mret ()
  | None => mret ()
  end.

(** [cli_interface.cmd_send] of cli.py, on the arguments of the command. *)
Definition cmd_send (env : Oracle) (args : list string) : M unit :=
  match args with
  | target_peer_id :: ((_ :: _) as rest) =>
      let message_content := String.concat " " rest in
      self ← get;
      if negb (dict_in target_peer_id self.(known_peers)) then mret ()
      else
        send_message (site env 1)
          (Message (site env 0) self.(peer_id) (Some target_peer_id) "MESSAGE"
             [("content", JStr message_content)]);;
        mret ()
  | _ => mret ()
  end.

End process_message.

(** ** pest_alert_handler.py: risk levels *)

(** [self.alert_thresholds]. *)
Definition alert_thresholds : list (string * Z) :=
  [("LOW", 15%Z); ("MEDIUM", 30%Z); ("HIGH", 45%Z)].

(** [self.alert_thresholds[level]], always on a key of the dict. *)
Definition threshold (level : string) : Z :=
  default 0%Z (dict_get level alert_thresholds).

(** [calculate_risk_level] for an [int] count. *)
Definition calculate_risk_level (pest_count : Z) : string :=
  if (threshold "HIGH" <=? pest_count)%Z then "HIGH"
  else if (threshold "MEDIUM" <=? pest_count)%Z then "MEDIUM"
  else "LOW".

Definition recommendations : list (string * list string) :=
  [ ("LOW",
     [ "Continue normal monitoring schedule";
       "Check sticky traps every 3 days";
       "Maintain good ventilation" ]);
    ("MEDIUM",
     [ "Increase trap inspections to daily";
       "Prepare biological controls (ladybugs, lacewings)";
       "Monitor temperature and humidity closely";
       "Consider preventive neem oil application" ]);
    ("HIGH",
     [ "IMMEDIATE ACTION REQUIRED";
       "Apply neem oil or insecticidal soap within 24 hours";
       "Remove heavily infested leaves and dispose properly";
       "Increase ventilation to reduce humidity below 60%";
       "Deploy sticky traps in high-density areas";
       "Check again in 48 hours to assess effectiveness";
       "Alert ministry extension officer if infestation persists" ]) ].

(** [get_recommendations]: [recommendations.get(risk_level,
    recommendations['LOW'])]. *)
Definition get_recommendations (risk_level : string) : list string :=
  match dict_get risk_level recommendations with
  | Some advice => advice
  | None => default [] (dict_get "LOW" recommendations)
  end.

End Peer.

(* ===================================================================== *)
(** * Vocabulary of the specification                                      *)
(* ===================================================================== *)

Module Wire.
Import Py Message.

(** The declared types of the wire fields. *)
Inductive pytype : Type := TStr | TStrOrNone | TDict | TNumber | TInt | TList.

Definition isinstance (v : json) (T : pytype) : bool :=
  match T, v with
  | TStr, JStr _ => true
  | TStrOrNone, (JStr _ | JNull) => true
  | TDict, JDict _ => true
  | TNumber, (JBool _ | JInt _ | JFloat _) => true
  | TInt, (JBool _ | JInt _) => true
  | TList, JList _ => true
  | _, _ => false
  end.

Definition required_schema : list (string * pytype) :=
  [("peer_id", TStr); ("target_user_id", TStrOrNone); ("message_type", TStr);
   ("data", TDict); ("time_stamp", TNumber); ("message_id", TStr)].

Definition optional_schema : list (string * pytype) :=
  [("hop_count", TInt); ("path", TList)].

(** The key is absent from the object, or its value is not of the type. *)
Definition missing_or_mistyped (d : list (string * json)) (f : string * pytype) : Prop :=
  match dict_get f.1 d with
  | None => True
  | Some v => isinstance v f.2 = false
  end.

(** The key is present and its value is not of the type. *)
Definition mistyped (d : list (string * json)) (f : string * pytype) : Prop :=
  match dict_get f.1 d with
  | None => False
  | Some v => isinstance v f.2 = false
  end.

Definition MAX_HOPS : Z := 10.

Definition hop_limit_exceeded (d : list (string * json)) : Prop :=
  ∃ v i, dict_get "hop_count" d = Some v ∧ as_int v = Some i
         ∧ (MAX_HOPS < int_value i)%Z.

(** The parse errors of the claim: all eight keys are required. *)
Definition claimed_parse_error `{JsonModule} (line : string) : Prop :=
  json_loads line = None
  ∨ ∃ d, json_loads line = Some (JDict d)
         ∧ (Exists (missing_or_mistyped d) (required_schema ++ optional_schema)
            ∨ hop_limit_exceeded d).

(** The parse errors of the code on an object: six keys are required,
    [hop_count] and [path] are checked only when present. *)
Definition object_parse_error (d : list (string * json)) : Prop :=
  Exists (missing_or_mistyped d) required_schema
  ∨ Exists (mistyped d) optional_schema
  ∨ hop_limit_exceeded d.

(** [m] carries the fields of the object [d], [hop_count] and [path]
    defaulting to [0] and [[peer_id]]; a true [time_stamp] is kept. *)
Definition decoded (d : list (string * json)) (m : Message) : Prop :=
  dict_get "peer_id" d = Some (JStr m.(peer_id))
  ∧ dict_get "target_user_id" d = Some (of_str_or_none m.(target_user_id))
  ∧ dict_get "message_type" d = Some (JStr m.(message_type))
  ∧ dict_get "data" d = Some (JDict m.(data))
  ∧ (∀ t, dict_get "time_stamp" d = Some (of_num t) → num_truthy t = true →
          m.(time_stamp) = t)
  ∧ dict_get "message_id" d = Some (JStr m.(message_id))
  ∧ get_default d "hop_count" (JInt 0) = of_int m.(hop_count)
  ∧ get_default d "path" (JList [JStr m.(peer_id)]) = JList m.(path).

(** A message of the data model of the specification. *)
Definition valid (m : Message) : Prop :=
  (∃ z, m.(hop_count) = PInt z ∧ (0 ≤ z ≤ MAX_HOPS)%Z)
  ∧ (∀ x, x ∈ m.(path) → ∃ p, x = JStr p)
  ∧ ((∃ z, m.(time_stamp) = NInt (PInt z)) ∨ (∃ f, m.(time_stamp) = NFloat f)).

End Wire.

(* ===================================================================== *)
(** * Vocabulary of the specification: paths in the peer graph            *)
(* ===================================================================== *)

Module Graph.
Import Router.

(** [v] is in the adjacency set of [u]. *)
Definition edge (g : gmap string (list string)) (u v : string) : Prop :=
  v ∈ neighbors_of g u.

(** Consecutive nodes of [p] are joined by an edge. *)
Definition chain (g : gmap string (list string)) (p : list string) : Prop :=
  ∀ i u v, p !! i = Some u → p !! S i = Some v → edge g u v.

(** [p] lists the nodes of a walk from [s] to [t]. *)
Definition walk (g : gmap string (list string)) (s t : string) (p : list string) : Prop :=
  head p = Some s ∧ last p = Some t ∧ chain g p.

(** A path in the graph: a walk through vertices (keys) of the graph. *)
Definition path_in (g : gmap string (list string)) (s t : string) (p : list string) : Prop :=
  walk g s t p ∧ Forall (λ x, x ∈ dom g) p.

Definition shortest_path (g : gmap string (list string)) (s t : string) (p : list string)
    : Prop :=
  path_in g s t p ∧ ∀ p', path_in g s t p' → length p ≤ length p'.

(** Position of [x] in the iteration order [l]. *)
Definition position (x : string) (l : list string) : nat :=
  default (length l) (list_index x l).

Definition first_hop_rank (g : gmap string (list string)) (s : string)
    (hop : option string) : nat :=
  match hop with
  | Some hop => position hop (neighbors_of g s)
  | None => 0
  end.

(** Position of the first hop of [p] in the iteration order of the
    neighbours of [s]. *)
Definition hop_rank (g : gmap string (list string)) (s : string) (p : list string) : nat :=
  first_hop_rank g s (p !! 1).

(** The tie-break of the claim: [hop] is the least identifier among the
    first hops of the shortest paths, which is what iterating the
    neighbours in sorted order selects. *)
Definition sorted_tie_break (g : gmap string (list string)) (s t : string) (hop : string)
    : Prop :=
  ∀ p hop', shortest_path g s t p → p !! 1 = Some hop' → String.leb hop hop' = true.

(** The row [update_routing_graph] computes for one target. *)
Definition row_for (self : Router) (target_peer : string) : option string :=
  match BFS_path_finding self target_peer with
  | Some ((_ :: _) as path) =>
      match get_next_hop self.(peer_id) path with
      | Some next_hop => if str_truthy next_hop then Some next_hop else None
      | None => None
      end
  | _ => None
  end.

(** ** The invariant of the search loop *)

Definition lex_le (a b : nat * nat) : Prop :=
  a.1 < b.1 ∨ (a.1 = b.1 ∧ a.2 ≤ b.2).

(** Adjacency entries of the vertices not yet explored: a bound on the
    entries the frontier can still receive. *)
Definition pending (X : gset string) (m : gmap string (list string)) : nat :=
  sum_list ((λ kv, if decide (kv.1 ∈ X) then 0 else length kv.2) <$> map_to_list m).

(** What the loop appends to the frontier when it explores [v]. *)
Definition pushes (g : gmap string (list string)) (v : string) (p : list string)
    (X : gset string) : list (string * list string) :=
  (λ neighbor, (neighbor, p ++ [neighbor]))
    <$> filter (λ neighbor, neighbor ∉ X) (neighbors_of g v).

Section ranked.
Variable g : gmap string (list string).
Variables s t : string.
(** A rank of paths that looks at the first hop only. *)
Variable rank_of : option string → nat.

(** Frontier entries are ordered by length, then by rank. *)
Definition key (p : list string) : nat * nat := (length p, rank_of (p !! 1)).

Definition entry_le (e1 e2 : string * list string) : Prop :=
  lex_le (key e1.2) (key e2.2).

Record bfs_inv (frontier : list (string * list string)) (explored : gset string)
    : Prop := mk_bfs_inv {
  inv_self : s ∈ explored;
  inv_target : t ∉ explored;
  inv_walk : ∀ u p, (u, p) ∈ frontier → walk g s u p ∧ 2 ≤ length p;
  inv_sorted : StronglySorted entry_le frontier;
  inv_next : ∀ h e, head frontier = Some h → e ∈ frontier →
             lex_le (key e.2) (S (length h.2), rank_of (h.2 !! 1));
  inv_cover : ∀ r w, walk g s w r → w ∉ explored →
     ∃ i u p, r !! i = Some u ∧ (u, p) ∈ frontier
              ∧ lex_le (key p) (S i, rank_of (r !! 1))
              ∧ ∀ k x, i ≤ k → r !! k = Some x → x ∉ explored
}.

(** What the loop returns from a state that satisfies the invariant. *)
Definition bfs_post (res : option (list string)) : Prop :=
  match res with
  | Some p => walk g s t p ∧ ∀ r, walk g s t r → lex_le (key p) (key r)
  | None => ∀ r, ¬ walk g s t r
  end.

End ranked.

Arguments inv_self {g s t rank_of frontier explored} _.
Arguments inv_target {g s t rank_of frontier explored} _.
Arguments inv_walk {g s t rank_of frontier explored} _.
Arguments inv_sorted {g s t rank_of frontier explored} _.
Arguments inv_next {g s t rank_of frontier explored} _.
Arguments inv_cover {g s t rank_of frontier explored} _.

(** Every edge of the graph has its reverse. *)
Definition undirected (g : gmap string (list string)) : Prop :=
  ∀ u v, v ∈ neighbors_of g u → u ∈ neighbors_of g v.

End Graph.

(* ===================================================================== *)
(** * Vocabulary of the invariants: the offline store                      *)
(* ===================================================================== *)

Module Queue.
Import Py Message MessageStore.

(** A key that orders the floats the way [<] and [<=] compare them; NaN
    has none. *)
Definition float_key (f : spec_float) : option (Z * Z * Z) :=
  match f with
  | S754_nan => None
  | S754_infinity s => Some (if s then (-2)%Z else 2%Z, 0%Z, 0%Z)
  | S754_zero _ => Some (0%Z, 0%Z, 0%Z)
  | S754_finite s m e =>
      Some (if s then ((-1)%Z, (- e)%Z, (- Z.pos m)%Z) else (1%Z, e, Z.pos m))
  end.

Definition key_lt (a b : Z * Z * Z) : Prop :=
  (a.1.1 < b.1.1 ∨ (a.1.1 = b.1.1 ∧ (a.1.2 < b.1.2 ∨ (a.1.2 = b.1.2 ∧ a.2 < b.2))))%Z.

(** The identifiers of the two tables, in row order. *)
Definition message_ids (db : Database) : list string :=
  row_message_id <$> db.(offline_messages).

Definition schedule_ids (db : Database) : list string :=
  sched_message_id <$> db.(schedule_messages).

(** No identifier twice in either table, and a schedule row for every
    message row. *)
Definition consistent (db : Database) : Prop :=
  NoDup (schedule_ids db) ∧ NoDup (message_ids db) ∧ message_ids db ⊆ schedule_ids db.

(** The calls of the methods of [MessageStore] that reach the database,
    each with the readings of [time.time()] it takes. *)
Inductive store_call : Type :=
  | call_store_offline_message (now : float) (message : Message)
  | call_get_pending_messages (target_peer : string) (t_expired t_select t_sent : float)
  | call_get_message_by_id (message_id : string) (t_expired t_select : float)
  | call_delete_expired_messages (now : float)
  | call_delet_sent_messages (target_peer : string) (now : float)
  | call_delete_message_by_id (message_id : string)
  | call_increment_retry_count (now : float) (message_id : string).

(** The database a call leaves. *)
Definition apply_call (c : store_call) (db : Database) : Database :=
  match c with
  | call_store_offline_message now message => (store_offline_message now message db).2
  | call_get_pending_messages target_peer t_expired t_select t_sent =>
      (get_pending_messages target_peer t_expired t_select t_sent (λ _, ("", t_select)) db).2
  | call_get_message_by_id message_id t_expired t_select =>
      (get_message_by_id message_id t_expired t_select ("", t_select) db).2
  | call_delete_expired_messages now => delete_expired_messages now db
  | call_delet_sent_messages target_peer now => delet_sent_messages target_peer now db
  | call_delete_message_by_id message_id => delete_message_by_id message_id db
  | call_increment_retry_count now message_id => (increment_retry_count now message_id db).2
  end.

Definition run_calls (calls : list store_call) (db : Database) : Database :=
  foldl (λ db c, apply_call c db) db calls.

End Queue.

(* ===================================================================== *)
(** * Vocabulary of the invariants: the bytes of a connection              *)
(* ===================================================================== *)

Module Stream.
Import Py Message Connection.

(** The connection with another inbound buffer. *)
Definition set_inbound_buffer (buffer : string) (self : PeerConnection) : PeerConnection :=
  {| peer_id := self.(Connection.peer_id);
     address := self.(address);
     inbound_buffer := buffer;
     outbound_buffer := self.(outbound_buffer);
     is_handshake_complete := self.(is_handshake_complete) |}.

(** [buffer[:sent]]: the bytes the socket took. *)
Fixpoint bytes_to (sent : nat) (buffer : string) : string :=
  match sent, buffer with
  | O, _ => EmptyString
  | S _, EmptyString => EmptyString
  | S sent', String a rest => String a (bytes_to sent' rest)
  end.

(** The calls that write to a connection. *)
Inductive connection_call : Type :=
  | call_queue_message (message : Message)
  | call_send_buffered_data (send : string → socket_send).

(** A connection with the bytes its socket took so far and the messages
    [queue_message] accepted so far. *)
Record stream : Type := mkStream {
  connection : PeerConnection;
  wire : string;
  accepted : list Message
}.

(** The bytes the socket takes in one [send_buffered_data]. *)
Definition taken (send : string → socket_send) (self : PeerConnection) : string :=
  match self.(outbound_buffer) with
  | EmptyString => EmptyString
  | buffer =>
      match send buffer with
      | send_returns sent => bytes_to sent buffer
      | _ => EmptyString
      end
  end.

Definition apply_connection_call `{JsonModule} (c : connection_call) (s : stream) : stream :=
  match c with
  | call_queue_message message =>
      let r := queue_message s.(connection) message in
      {| connection := r.2;
         wire := s.(wire);
         accepted := if r.1 then s.(accepted) ++ [message] else s.(accepted) |}
  | call_send_buffered_data send =>
      {| connection := (send_buffered_data send s.(connection)).2;
         wire := s.(wire) +:+ taken send s.(connection);
         accepted := s.(accepted) |}
  end.

Definition run_connection_calls `{JsonModule} (calls : list connection_call) (s : stream)
    : stream :=
  foldl (λ s c, apply_connection_call c s) s calls.

(** The lines of the messages, one after the other. *)
Definition lines `{JsonModule} (messages : list Message) : string :=
  foldr (λ message rest, to_json message +:+ newline +:+ rest) EmptyString messages.

(** Nothing lost, nothing twice, and the bound of the buffer. *)
Definition stream_inv `{JsonModule} (s : stream) : Prop :=
  s.(wire) +:+ s.(connection).(outbound_buffer) = lines s.(accepted)
  ∧ (Z.of_nat (String.length s.(connection).(outbound_buffer)) ≤ MAX_BUFFER_SIZE)%Z.

End Stream.

(* ===================================================================== *)
(** * Vocabulary of the invariants: the node                               *)
(* ===================================================================== *)

Module Node.
Import Py Peer.

(** The call leaves a peer that satisfies [I] when it finds one. *)
Definition keeps {A} (I : Peer.Peer → Prop) (c : M A) : Prop :=
  ∀ self, I self → I (state (c self)).

(** The call returns, whatever the peer. *)
Definition returns {A} (c : M A) : Prop := ∀ self, ∃ a, value (c self) = Ok a.

Definition graph_undirected (self : Peer.Peer) : Prop :=
  Graph.undirected (Router.peer_graph (router self)).

(** The connection [send_message] writes to: the one of the target when
    the target is another peer with a connection, else the one of the next
    hop the routing table has for the target. *)
Definition connection_for (self : Peer.Peer) (message : Message.Message) : option nat :=
  match message.(Message.target_user_id) ≫= λ t,
        if negb (String.eqb t self.(Peer.peer_id)) then dict_get t self.(connections)
        else None with
  | Some c => Some c
  | None =>
      hop ← (message.(Message.target_user_id)
             ≫= λ t, Router.routing_graph self.(router) !! t);
      dict_get hop self.(connections)
  end.

(** The inbound buffer of the connection object [c]. *)
Definition inbound (c : nat) (self : Peer.Peer) : string :=
  Connection.inbound_buffer (objects self c).

(** The bytes [process_message] took off a buffer are whole lines. *)
Definition whole_lines (consumed : string) : Prop :=
  consumed = "" ∨ ∃ lines, consumed = lines +:+ Connection.newline.

(** The level above: [HIGH] above [MEDIUM] above [LOW]. *)
Definition severity (risk_level : string) : nat :=
  if String.eqb risk_level "HIGH" then 2
  else if String.eqb risk_level "MEDIUM" then 1
  else 0.

End Node.

(* ===================================================================== *)
(** * Concrete inputs                                                      *)
(* ===================================================================== *)

Module Samples.
Import Py.

(** A [json] module that knows one line only. *)
Definition one_line_json (line : string) (v : json) : JsonModule :=
  {| json_dumps := λ _, line;
     json_loads := λ s, if String.eqb s line then Some v else None |}.

(** A message stamped with the epoch itself. *)
Definition epoch_message : Message.Message :=
  {| Message.peer_id := "a1b2c3d4";
     Message.target_user_id := Some "e5f6a7b8";
     Message.message_type := "MESSAGE";
     Message.data := [("content", JStr "hello")];
     Message.time_stamp := NInt (PInt 0);
     Message.message_id := "0f1e2d3c";
     Message.hop_count := PInt 0;
     Message.path := [JStr "a1b2c3d4"] |}.

Definition epoch_json : JsonModule :=
  one_line_json "epoch" (Message.to_dict epoch_message).

(** A handshake object that carries the six checked keys only. *)
Definition bare_object : list (string * json) :=
  [ ("peer_id", JStr "a1b2c3d4");
    ("target_user_id", JNull);
    ("message_type", JStr "HANDSHAKE");
    ("data", JDict [("host", JStr "127.0.0.1"); ("port", JInt 5000)]);
    ("time_stamp", JFloat 1700000000%float);
    ("message_id", JStr "0f1e2d3c") ].

Definition bare_json : JsonModule := one_line_json "bare" (JDict bare_object).

(** A line that holds the JSON list of the six checked keys. *)
Definition keys_json : JsonModule :=
  one_line_json "keys" (JList (JStr <$> Message.required_fields)).

(** A diamond: the node reaches [dddd0004] through [aaaa0001] and through
    [bbbb0002], and iterates its own adjacency set as [bbbb0002],
    [aaaa0001]. *)
Definition diamond : Router.Router :=
  {| Router.routing_graph := ∅;
     Router.peer_graph :=
       list_to_map [ ("c0ffee00", ["bbbb0002"; "aaaa0001"]);
                     ("aaaa0001", ["c0ffee00"; "dddd0004"]);
                     ("bbbb0002", ["c0ffee00"; "dddd0004"]);
                     ("dddd0004", ["aaaa0001"; "bbbb0002"]) ];
     Router.peer_id := "c0ffee00" |}.

(** A message queued for [e5f6a7b8]. *)
Definition queued_message : Message.Message :=
  {| Message.peer_id := "a1b2c3d4";
     Message.target_user_id := Some "e5f6a7b8";
     Message.message_type := "MESSAGE";
     Message.data := [("content", JStr "hello")];
     Message.time_stamp := NFloat 1700000000%float;
     Message.message_id := "0f1e2d3c";
     Message.hop_count := PInt 0;
     Message.path := [JStr "a1b2c3d4"] |}.

Definition empty_database : MessageStore.Database :=
  {| MessageStore.offline_messages := [];
     MessageStore.schedule_messages := [];
     MessageStore.sqlite_sequence := 0 |}.

Definition queued_row : MessageStore.offline_row :=
  {| MessageStore.id := 1;
     MessageStore.row_peer_id := "a1b2c3d4";
     MessageStore.row_target_user_id := "e5f6a7b8";
     MessageStore.row_message_type := "MESSAGE";
     MessageStore.row_data := [("content", JStr "hello")];
     MessageStore.row_time_stamp := MessageStore.SqlInteger 1700000000;
     MessageStore.row_message_id := "0f1e2d3c";
     MessageStore.row_hop_count := 0;
     MessageStore.row_path := [JStr "a1b2c3d4"] |}.

Definition queued_schedule : MessageStore.schedule_row :=
  {| MessageStore.sched_message_id := "0f1e2d3c";
     MessageStore.last_tried := None;
     MessageStore.retry_count := 0;
     MessageStore.expiry_time := 1700604800%float |}.

(** The store after [queued_message] was stored at time 1700000000. *)
Definition stored_database : MessageStore.Database :=
  {| MessageStore.offline_messages := [queued_row];
     MessageStore.schedule_messages := [queued_schedule];
     MessageStore.sqlite_sequence := 1 |}.

Definition clock : Peer.Oracle :=
  {| Peer.time_time := λ _, 1700000000%float;
     Peer.uuid4_hex8 := λ _, "ffffffff" |}.

(** A node that knows nobody yet. *)
Definition fresh_peer : Peer.Peer :=
  {| Peer.host := "127.0.0.1";
     Peer.port := 5000;
     Peer.peer_id := "c0ffee00";
     Peer.objects := λ _, Connection.__init__ ("127.0.0.1", 5000%Z);
     Peer.connections := [];
     Peer.seen_messages := ∅;
     Peer.known_peers := [];
     Peer.router := {| Router.routing_graph := ∅;
                       Router.peer_graph := ∅;
                       Router.peer_id := "c0ffee00" |};
     Peer.message_store := empty_database;
     Peer.recent_alerts := [] |}.

(** A handshake that carries the identifier of [fresh_peer] itself. *)
Definition own_handshake : Message.Message :=
  {| Message.peer_id := "c0ffee00";
     Message.target_user_id := None;
     Message.message_type := "HANDSHAKE";
     Message.data := [("host", JStr "127.0.0.1"); ("port", JInt 5000)];
     Message.time_stamp := NFloat 1700000000%float;
     Message.message_id := "9a8b7c6d";
     Message.hop_count := PInt 0;
     Message.path := [JStr "c0ffee00"] |}.

(** A PEST_ALERT raised by [aaaa0001], as it arrives from there. *)
Definition pest_alert : Message.Message :=
  {| Message.peer_id := "aaaa0001";
     Message.target_user_id := None;
     Message.message_type := "PEST_ALERT";
     Message.data := [("pest_type", JStr "whitefly"); ("pest_count", JInt 50);
                      ("risk_level", JStr "HIGH"); ("farm_id", JStr "aaaa0001")];
     Message.time_stamp := NFloat 1700000000%float;
     Message.message_id := "5e6f7a8b";
     Message.hop_count := PInt 0;
     Message.path := [JStr "aaaa0001"] |}.

(** [fresh_peer] with a connection to [bbbb0002]. *)
Definition connected_peer : Peer.Peer :=
  {| Peer.host := "127.0.0.1";
     Peer.port := 5000;
     Peer.peer_id := "c0ffee00";
     Peer.objects := λ _, Connection.__init__ ("127.0.0.1", 5001%Z);
     Peer.connections := [("bbbb0002", 0)];
     Peer.seen_messages := ∅;
     Peer.known_peers := [];
     Peer.router := {| Router.routing_graph := ∅;
                       Router.peer_graph := ∅;
                       Router.peer_id := "c0ffee00" |};
     Peer.message_store := empty_database;
     Peer.recent_alerts := [] |}.

(** A [bytes.decode] that is given ASCII only. *)
Definition ascii_codec : Utf8Codec := {| utf8_decode := Some |}.

(** A [json] module that knows [queued_message]. *)
Definition queued_json : JsonModule :=
  one_line_json "queued" (Message.to_dict queued_message).

(** [queued_message] after the relay through [c0ffee00]. *)
Definition relayed_json : JsonModule :=
  one_line_json "relayed"
    (Message.to_dict (foldl Message.add_hop queued_message ["c0ffee00"])).

(** The connection object of [bbbb0002] after its handshake. *)
Definition handshaken_connection : Connection.PeerConnection :=
  {| Connection.peer_id := Some "bbbb0002";
     Connection.address := ("127.0.0.1", 5001%Z);
     Connection.inbound_buffer := EmptyString;
     Connection.outbound_buffer := EmptyString;
     Connection.is_handshake_complete := true |}.

(** A node with [bbbb0002] connected, known and in the graph. *)
Definition handshaken_peer : Peer.Peer :=
  {| Peer.host := "127.0.0.1";
     Peer.port := 5000;
     Peer.peer_id := "c0ffee00";
     Peer.objects := λ _, handshaken_connection;
     Peer.connections := [("bbbb0002", 0)];
     Peer.seen_messages := ∅;
     Peer.known_peers := [("bbbb0002", JDict [("host", JStr "127.0.0.1");
                                              ("port", JInt 5001)])];
     Peer.router := {| Router.routing_graph := {["bbbb0002" := "bbbb0002"]};
                       Router.peer_graph :=
                         list_to_map [ ("c0ffee00", ["bbbb0002"]);
                                       ("bbbb0002", ["c0ffee00"]) ];
                       Router.peer_id := "c0ffee00" |};
     Peer.message_store := empty_database;
     Peer.recent_alerts := [] |}.

End Samples.

(* ===================================================================== *)
(** * Theorems: the message codec                                          *)
(* ===================================================================== *)

Module MessageFacts.
Import Py Message Wire Samples.

Lemma as_int_of_int i : as_int (of_int i) = Some i.
Proof. by destruct i. Qed.

Lemma as_num_of_num n : as_num (of_num n) = Some n.
Proof. by destruct n as [[b|z]|f]. Qed.

Lemma as_str_or_none_of o : as_str_or_none (of_str_or_none o) = Some o.
Proof. by destruct o. Qed.

Section codec.
Context `{JsonModule}.

(** Decoding an encoding restores the message when its [time_stamp] is
    true and its [hop_count] is at most 10. *)
Lemma from_json_to_json uuid now (m : Message) :
  json_loads (to_json m) = Some (to_dict m) →
  num_truthy m.(time_stamp) = true →
  (int_value m.(hop_count) ≤ 10)%Z →
  from_json uuid now (to_json m) = Ok (Some m).
Proof.
  intros Hloads Htrue Hhops. unfold from_json. rewrite Hloads.
  destruct m as [p t ty d ts mid h pa]; simpl in *.
  unfold from_json_dict, getitem, get_default; simpl.
  rewrite as_str_or_none_of, as_num_of_num, as_int_of_int.
  destruct (Z.gtb_spec (int_value h) 10) as [Hgt|_]; [lia|].
  unfold __init__; simpl. by rewrite Htrue.
Qed.

End codec.

Lemma epoch_message_valid : valid epoch_message.
Proof.
  split; [|split].
  - exists 0%Z. split; [done|]. unfold MAX_HOPS. lia.
  - intros x Hx. apply list_elem_of_singleton in Hx. eauto.
  - left. by exists 0%Z.
Qed.

(** C1 (the code at the failing input): a valid message whose
    [time_stamp] is [0] does not survive the round trip. Whatever [json]
    restores from the encoding, [from_json] hands the zero to
    [Message.__init__], whose [time_stamp or time.time()] replaces it by
    the current clock reading, and the decoded message differs from the
    encoded one. *)
Theorem from_json_to_json_epoch `{JsonModule} uuid now :
  json_loads (to_json epoch_message) = Some (to_dict epoch_message) →
  from_json uuid now (to_json epoch_message)
    = Ok (Some {| peer_id := "a1b2c3d4";
                  target_user_id := Some "e5f6a7b8";
                  message_type := "MESSAGE";
                  data := [("content", JStr "hello")];
                  time_stamp := NFloat now;
                  message_id := "0f1e2d3c";
                  hop_count := PInt 0;
                  path := [JStr "a1b2c3d4"] |})
  ∧ from_json uuid now (to_json epoch_message) ≠ Ok (Some epoch_message).
Proof.
  intros Hloads. unfold from_json. rewrite Hloads.
  split; [reflexivity|]. vm_compute. discriminate.
Qed.

Lemma from_json_to_json_epoch_witness :
  @json_loads epoch_json (@to_json epoch_json epoch_message)
    = Some (to_dict epoch_message)
  ∧ @from_json epoch_json "ffffffff" 1700000000%float
      (@to_json epoch_json epoch_message) ≠ Ok (Some epoch_message).
Proof.
  split; [reflexivity|].
  apply (@from_json_to_json_epoch epoch_json "ffffffff" 1700000000%float).
  reflexivity.
Defined.

(** ** Parse errors *)

Ltac use_lookups :=
  repeat match goal with E : dict_get _ _ = _ |- _ => rewrite E end.

Ltac find_exists tac :=
  first [ apply Exists_cons_hd; solve [tac]
        | apply Exists_cons_tl; find_exists tac ].

Ltac run_fields Hloads :=
  unfold from_json; rewrite Hloads;
  unfold from_json_dict, getitem, get_default; simpl;
  use_lookups; simpl.

Ltac bad_required Hloads :=
  left; split;
  [ left; find_exists ltac:(unfold missing_or_mistyped; simpl; use_lookups; done)
  | run_fields Hloads; done ].

Ltac bad_optional Hloads :=
  left; split;
  [ right; left; find_exists ltac:(unfold mistyped; simpl; use_lookups; done)
  | run_fields Hloads; done ].

(** On a line that holds an object, [from_json] follows the schema. *)
Lemma from_json_object_cases `{JsonModule} uuid now line d :
  json_loads line = Some (JDict d) →
  (object_parse_error d ∧ from_json uuid now line = Ok None)
  ∨ (¬ object_parse_error d
     ∧ ∃ m, from_json uuid now line = Ok (Some m) ∧ decoded d m).
Proof.
  intros Hloads.
  destruct (dict_get "peer_id" d) as [v1|] eqn:E1; [|bad_required Hloads].
  destruct (dict_get "target_user_id" d) as [v2|] eqn:E2; [|bad_required Hloads].
  destruct (dict_get "message_type" d) as [v3|] eqn:E3; [|bad_required Hloads].
  destruct (dict_get "data" d) as [v4|] eqn:E4; [|bad_required Hloads].
  destruct (dict_get "time_stamp" d) as [v5|] eqn:E5; [|bad_required Hloads].
  destruct (dict_get "message_id" d) as [v6|] eqn:E6; [|bad_required Hloads].
  destruct v1; try bad_required Hloads.
  destruct v2; try bad_required Hloads.
  all: destruct v3; try bad_required Hloads.
  all: destruct v4; try bad_required Hloads.
  all: destruct v5; try bad_required Hloads.
  all: destruct v6; try bad_required Hloads.
  all: destruct (dict_get "hop_count" d) as [v7|] eqn:E7.
  all: try (destruct v7; try bad_optional Hloads).
  all: destruct (dict_get "path" d) as [v8|] eqn:E8.
  all: try (destruct v8; try bad_optional Hloads).
  all: run_fields Hloads.
  all: try match goal with
        | |- context [(?h >? 10)%Z] =>
            destruct (Z.gtb_spec h 10) as [Hgt|Hle];
            [ left; split; [|done];
              right; right; eexists _, _; rewrite E7;
              split; [reflexivity|split; [reflexivity|exact Hgt]] |]
        end.
  all: right; split;
    [ intros [Hx|[Hx|Hx]];
      [ unfold required_schema in Hx;
        repeat (apply Exists_cons in Hx as [Hx|Hx]);
        try (by apply Exists_nil in Hx);
        unfold missing_or_mistyped in Hx; simpl in Hx;
        revert Hx; use_lookups; done
      | unfold optional_schema in Hx;
        repeat (apply Exists_cons in Hx as [Hx|Hx]);
        try (by apply Exists_nil in Hx);
        unfold mistyped in Hx; simpl in Hx;
        revert Hx; use_lookups; done
      | destruct Hx as (v & i & Hv & Hi & Hlt); rewrite E7 in Hv;
        simplify_eq; simpl in Hi; simplify_eq; unfold MAX_HOPS, int_value in *;
        repeat case_match; lia ]
    | eexists; split; [reflexivity|];
      unfold decoded, get_default; simpl; use_lookups;
      repeat split;
      intros t Ht Htrue; destruct t as [[?|?]|?]; simpl in Ht; simplify_eq;
      simpl in Htrue; by rewrite Htrue ].
Qed.

(** C4 (as amended): on a line that is not valid JSON, or that holds a
    JSON object, [from_json] returns [None] exactly when the line is not
    valid JSON, or one of the six keys [peer_id], [target_user_id],
    [message_type], [data], [time_stamp], [message_id] is missing or of the
    wrong type, or [hop_count] or [path] is present with the wrong type, or
    [hop_count] exceeds 10; on every other such line it returns the decoded
    message, a missing [hop_count] read as [0] and a missing [path] as
    [[peer_id]]. *)
Theorem from_json_parse_error `{JsonModule} uuid now line :
  (json_loads line = None ∨ ∃ d, json_loads line = Some (JDict d)) →
  (from_json uuid now line = Ok None
   ↔ json_loads line = None
     ∨ ∃ d, json_loads line = Some (JDict d) ∧ object_parse_error d)
  ∧ (from_json uuid now line ≠ Ok None →
     ∃ d m, json_loads line = Some (JDict d)
            ∧ from_json uuid now line = Ok (Some m) ∧ decoded d m).
Proof.
  intros [Hnone|[d Hd]].
  - assert (Hret : from_json uuid now line = Ok None)
      by (unfold from_json; by rewrite Hnone).
    split; [split; auto|]. intros Hne. by destruct Hne.
  - destruct (from_json_object_cases uuid now line d Hd)
      as [[Herr Hret]|[Hok (m & Hret & Hdec)]].
    + split; [split; eauto|]. intros Hne. by destruct Hne.
    + split.
      * split.
        -- intros Hnone. rewrite Hret in Hnone. discriminate.
        -- intros [Hnone|(d' & Hd' & Herr)]; [congruence|].
           rewrite Hd in Hd'. by simplify_eq.
      * intros _. exists d, m. auto.
Qed.

Lemma from_json_parse_error_witness :
  (@json_loads bare_json "bare" = None
   ∨ ∃ d, @json_loads bare_json "bare" = Some (JDict d))
  ∧ (@from_json bare_json "ffffffff" 1700000009%float "bare" = Ok None
     ↔ @json_loads bare_json "bare" = None
       ∨ ∃ d, @json_loads bare_json "bare" = Some (JDict d)
              ∧ object_parse_error d).
Proof.
  assert (Hd : @json_loads bare_json "bare" = None
               ∨ ∃ d, @json_loads bare_json "bare" = Some (JDict d))
    by (right; by exists bare_object).
  split; [exact Hd|].
  apply (@from_json_parse_error bare_json "ffffffff" 1700000009%float "bare" Hd).
Defined.

(** Outside the objects: a JSON list that holds the six keys passes the
    test on the required fields, and [data["peer_id"]] raises. *)
Lemma from_json_keys :
  @from_json keys_json "ffffffff" 1700000009%float "keys" = Raise TypeError.
Proof. reflexivity. Qed.

(** C4 (counterexample): a line whose object has no [hop_count] and no
    [path] is a parse error of the claim, and [from_json] decodes it. *)
Lemma from_json_without_hop_count :
  @claimed_parse_error bare_json "bare"
  ∧ @from_json bare_json "ffffffff" 1700000009%float "bare"
    = Ok (Some {| peer_id := "a1b2c3d4";
                  target_user_id := None;
                  message_type := "HANDSHAKE";
                  data := [("host", JStr "127.0.0.1"); ("port", JInt 5000)];
                  time_stamp := NFloat 1700000000%float;
                  message_id := "0f1e2d3c";
                  hop_count := PInt 0;
                  path := [JStr "a1b2c3d4"] |}).
Proof.
  split; [|reflexivity].
  right. exists bare_object. split; [reflexivity|]. left.
  unfold required_schema, optional_schema. simpl.
  do 6 apply Exists_cons_tl. apply Exists_cons_hd. exact I.
Qed.

End MessageFacts.

(* ===================================================================== *)
(** * Theorems: the router                                                 *)
(* ===================================================================== *)

Module RouterFacts.
Import Router Graph Samples.

Section bfs.
Variable g : gmap string (list string).
Variables s t : string.
Variable rank_of : option string → nat.

Lemma last_occurrence (r : list string) (v : string) i :
  (∃ k, i ≤ k ∧ r !! k = Some v) →
  ∃ j, i ≤ j ∧ r !! j = Some v ∧ ∀ k, j < k → r !! k ≠ Some v.
Proof.
  induction r as [|x r IH] using rev_ind; intros (k & Hik & Hk); [done|].
  destruct (decide (x = v ∧ i ≤ length r)) as [[-> Hi]|Hno].
  - exists (length r). split; [done|]. split.
    + by rewrite lookup_app_r, Nat.sub_diag.
    + intros k' Hk' Hl. apply lookup_lt_Some in Hl.
      rewrite length_app in Hl. simpl in Hl. lia.
  - assert (Hkr : r !! k = Some v).
    { destruct (decide (k < length r)) as [Hlt|Hge].
      - by rewrite lookup_app_l in Hk.
      - pose proof (lookup_lt_Some _ _ _ Hk) as Hl.
        rewrite length_app in Hl. simpl in Hl.
        assert (k = length r) as -> by lia.
        rewrite lookup_app_r, Nat.sub_diag in Hk by lia. simpl in Hk.
        destruct Hno. split; [congruence|lia]. }
    destruct IH as (j & Hij & Hj & Hlast); [eauto|].
    exists j. split; [done|]. split.
    + rewrite lookup_app_l; [done|]. by eapply lookup_lt_Some.
    + intros k' Hk' Hl.
      destruct (decide (k' < length r)) as [Hlt|Hge].
      * rewrite lookup_app_l in Hl by done. by eapply Hlast.
      * pose proof (lookup_lt_Some _ _ _ Hl) as Hl'.
        rewrite length_app in Hl'. simpl in Hl'.
        assert (k' = length r) as -> by lia.
        rewrite lookup_app_r, Nat.sub_diag in Hl by lia. simpl in Hl.
        apply lookup_lt_Some in Hj.
        destruct Hno. split; [congruence|lia].
Qed.

Lemma occurs_from_dec (r : list string) (v : string) i :
  (∃ k, i ≤ k ∧ r !! k = Some v) ∨ ¬ (∃ k, i ≤ k ∧ r !! k = Some v).
Proof.
  destruct (decide (v ∈ drop i r)) as [Hin|Hnin].
  - left. apply list_elem_of_lookup in Hin as [k Hk].
    rewrite lookup_drop in Hk. exists (i + k). split; [lia|done].
  - right. intros (k & Hik & Hk). apply Hnin, list_elem_of_lookup.
    exists (k - i). rewrite lookup_drop. by replace (i + (k - i)) with k by lia.
Qed.

Lemma walk_snoc u v p :
  walk g s u p → edge g u v → walk g s v (p ++ [v]).
Proof.
  intros (Hhd & Hlast & Hch) He. split; [|split].
  - destruct p; [done|]. done.
  - apply last_snoc.
  - intros i a b Ha Hb.
    destruct (decide (S i < length p)) as [Hlt|Hge].
    + rewrite lookup_app_l in Ha by lia. rewrite lookup_app_l in Hb by lia.
      by eapply Hch.
    + pose proof (lookup_lt_Some _ _ _ Hb) as Hl.
      rewrite length_app in Hl. simpl in Hl.
      assert (S i = length p) as Hi by lia.
      rewrite Hi, lookup_app_r, Nat.sub_diag in Hb by lia. simpl in Hb.
      rewrite lookup_app_l in Ha by lia.
      apply last_Some in Hlast as [p' ->].
      rewrite length_app in Hi. simpl in Hi.
      assert (i = length p') as -> by lia.
      rewrite lookup_app_r, Nat.sub_diag in Ha by lia. simpl in Ha.
      by simplify_eq.
Qed.

Lemma key_snoc p v : 2 ≤ length p → key rank_of (p ++ [v]) = (S (length p), rank_of (p !! 1)).
Proof.
  intros Hp. unfold key. rewrite length_app, lookup_app_l by lia.
  simpl. f_equal. lia.
Qed.

Lemma walk_last_lookup w r : walk g s w r → r !! (length r - 1) = Some w ∧ 1 ≤ length r.
Proof.
  intros (_ & Hlast & _). apply last_Some in Hlast as [r' ->].
  rewrite length_app. simpl. split; [|lia].
  replace (length r' + 1 - 1) with (length r') by lia.
  by rewrite lookup_app_r, Nat.sub_diag.
Qed.

Lemma elem_of_pushes e v p X :
  e ∈ pushes g v p X ↔ ∃ nb, e = (nb, p ++ [nb]) ∧ (nb ∉ X) ∧ edge g v nb.
Proof.
  unfold pushes. rewrite list_elem_of_fmap. split.
  - intros (nb & -> & Hnb). apply list_elem_of_filter in Hnb as [? ?]. eauto.
  - intros (nb & -> & ? & ?). exists nb. split; [done|].
    by apply list_elem_of_filter.
Qed.

Lemma bfs_inv_skip v p q X :
  bfs_inv g s t rank_of ((v, p) :: q) X → v ∈ X → bfs_inv g s t rank_of q X.
Proof.
  intros [Hs Ht Hw Hso Hn Hc] Hv.
  apply StronglySorted_inv in Hso as [Hso Hhd].
  split; try done.
  - intros u p' Hin. apply Hw. by right.
  - intros h e Hh He.
    assert (Hhq : h ∈ q).
    { destruct q; simplify_eq/=. left. }
    pose proof (Hn (v, p) e eq_refl (list_elem_of_further _ _ _ He)) as H1.
    rewrite Forall_forall in Hhd. pose proof (Hhd h Hhq) as H2.
    unfold entry_le, lex_le, key in *; simpl in *. lia.
  - intros r w Hr Hw'.
    destruct (Hc r w Hr Hw') as (i & u & p' & Hi & Hin & Hle & Hout).
    exists i, u, p'. repeat split; try done.
    apply elem_of_cons in Hin as [Heq|Hin]; [|done].
    simplify_eq. destruct (Hout i v (le_n _) Hi Hv).
Qed.

Lemma pushes_sorted v p X : 2 ≤ length p → StronglySorted (entry_le rank_of) (pushes g v p X).
Proof.
  intros Hp. unfold pushes.
  induction (filter _ _) as [|nb l IH]; simpl; constructor; [done|].
  apply Forall_forall. intros e He.
  apply list_elem_of_fmap in He as (nb' & -> & _).
  unfold entry_le; simpl. rewrite !key_snoc by done. right. simpl. lia.
Qed.

Lemma bfs_inv_explore v p q X :
  bfs_inv g s t rank_of ((v, p) :: q) X → v ∉ X → v ≠ t →
  bfs_inv g s t rank_of (q ++ pushes g v p ({[v]} ∪ X)) ({[v]} ∪ X).
Proof.
  intros [Hs Ht Hw Hso Hn Hc] Hv Hvt.
  apply StronglySorted_inv in Hso as [Hso Hhd].
  rewrite Forall_forall in Hhd.
  destruct (Hw v p (list_elem_of_here _ _)) as [Hwp Hlen].
  split.
  - set_solver.
  - set_solver.
  - intros u p' Hin. apply elem_of_app in Hin as [Hin|Hin].
    + apply Hw. by right.
    + apply elem_of_pushes in Hin as (nb & Heq & _ & He). simplify_eq. split.
      * by eapply walk_snoc.
      * rewrite length_app. simpl. lia.
  - apply StronglySorted_app_2; [|done|by apply pushes_sorted].
    intros e1 e2 H1 H2.
    apply elem_of_pushes in H2 as (nb & -> & _ & _).
    pose proof (Hn (v, p) e1 eq_refl (list_elem_of_further _ _ _ H1)) as H3.
    unfold entry_le. simpl. rewrite key_snoc by done. exact H3.
  - intros h e Hh He.
    assert (Hkey_e : lex_le (key rank_of e.2) (S (length p), rank_of (p !! 1))).
    { apply elem_of_app in He as [He|He].
      - exact (Hn (v, p) e eq_refl (list_elem_of_further _ _ _ He)).
      - apply elem_of_pushes in He as (nb & -> & _ & _). simpl.
        rewrite key_snoc by done. right. simpl. lia. }
    assert (Hkey_h : lex_le (key rank_of p) (key rank_of h.2)).
    { assert (Hh' : h ∈ q ++ pushes g v p ({[v]} ∪ X)).
      { destruct (q ++ _); simplify_eq/=. left. }
      apply elem_of_app in Hh' as [Hh'|Hh'].
      - exact (Hhd h Hh').
      - apply elem_of_pushes in Hh' as (nb & -> & _ & _). simpl.
        rewrite key_snoc by done. left. simpl. lia. }
    unfold lex_le, key in *; simpl in *. lia.
  - intros r w Hr Hw'.
    assert (HwX : w ∉ X) by set_solver.
    assert (Hwv : w ≠ v) by set_solver.
    destruct (Hc r w Hr HwX) as (i & u & p' & Hi & Hin & Hle & Hout).
    destruct (occurs_from_dec r v i) as [Hocc|Hnone].
    + apply last_occurrence in Hocc as (j & Hij & Hj & Hlast).
      destruct (walk_last_lookup _ _ Hr) as [Hend Hlen1].
      assert (Hjlt : S j < length r).
      { pose proof (lookup_lt_Some _ _ _ Hj).
        destruct (decide (j = length r - 1)) as [->|]; [congruence|lia]. }
      destruct (lookup_lt_is_Some_2 r (S j) Hjlt) as [u' Hu'].
      assert (He : edge g v u') by (destruct Hr as (_ & _ & Hch); by eapply Hch).
      assert (Hu'X : u' ∉ {[v]} ∪ X).
      { apply not_elem_of_union. split.
        - intros ->%elem_of_singleton. by eapply (Hlast (S j)); [lia|].
        - eapply (Hout (S j)); [lia|done]. }
      exists (S j), u', (p ++ [u']). repeat split.
      * done.
      * apply elem_of_app. right. apply elem_of_pushes. eauto.
      * rewrite key_snoc by done.
        assert (Hpp' : lex_le (key rank_of p) (key rank_of p')).
        { apply elem_of_cons in Hin as [Heq|Hin]; [|exact (Hhd _ Hin)].
          simplify_eq. right. simpl. lia. }
        unfold lex_le, key in *; simpl in *. lia.
      * intros k x Hk Hx. apply not_elem_of_union. split.
        -- intros ->%elem_of_singleton. by eapply (Hlast k); [lia|].
        -- eapply (Hout k); [lia|done].
    + exists i, u, p'. repeat split; try done.
      * apply elem_of_app. left.
        apply elem_of_cons in Hin as [Heq|Hin]; [|done].
        simplify_eq. destruct Hnone. eauto.
      * intros k x Hk Hx. apply not_elem_of_union. split.
        -- intros ->%elem_of_singleton. destruct Hnone. eauto.
        -- by eapply Hout.
Qed.

Lemma walk_start : walk g s s [s].
Proof. split; [done|]. split; [done|]. intros i u v Hu Hv. by destruct i. Qed.

Lemma sorted_fmap_filter {A B} (R : relation A) (R' : relation B) (f : A → B)
    (P : A → Prop) `{!∀ x, Decision (P x)} (l : list A) :
  (∀ a b, R a b → R' (f a) (f b)) →
  StronglySorted R l → StronglySorted R' (f <$> filter P l).
Proof.
  intros Hf. induction 1 as [|a l Hl IH Hall]; [constructor|].
  rewrite filter_cons. case_decide; [|done].
  simpl. constructor; [done|].
  apply Forall_fmap, Forall_forall. intros b Hb.
  apply list_elem_of_filter in Hb as [_ Hb].
  rewrite Forall_forall in Hall. simpl. auto.
Qed.

Hypothesis s_not_t : s ≠ t.
Hypothesis neighbors_ranked :
  StronglySorted (λ a b, rank_of (Some a) ≤ rank_of (Some b)) (neighbors_of g s).

Lemma bfs_inv_init : bfs_inv g s t rank_of (pushes g s [s] ({[s]} ∪ ∅)) ({[s]} ∪ ∅).
Proof.
  split.
  - set_solver.
  - set_solver.
  - intros u p Hin. apply elem_of_pushes in Hin as (nb & Heq & _ & He).
    simplify_eq. split; [|simpl; lia].
    eapply walk_snoc; [apply walk_start|done].
  - unfold pushes. eapply sorted_fmap_filter; [|exact neighbors_ranked].
    intros a b Hab. right. split; [done|exact Hab].
  - intros h e Hh He. apply elem_of_pushes in He as (nb & -> & _ & _).
    assert (Hin : h ∈ pushes g s [s] ({[s]} ∪ ∅)).
    { destruct (pushes _ _ _ _); simplify_eq/=. left. }
    apply elem_of_pushes in Hin as (nb' & -> & _ & _).
    left. simpl. lia.
  - intros r w Hr Hws.
    assert (Hw_ne : w ≠ s) by set_solver.
    assert (H0 : r !! 0 = Some s).
    { destruct Hr as (Hhd & _). by destruct r; simplify_eq/=. }
    destruct (last_occurrence r s 0) as (j & _ & Hj & Hlast); [eauto with lia|].
    destruct (walk_last_lookup _ _ Hr) as [Hend Hlen1].
    assert (Hjlt : S j < length r).
    { pose proof (lookup_lt_Some _ _ _ Hj).
      destruct (decide (j = length r - 1)) as [->|]; [congruence|lia]. }
    destruct (lookup_lt_is_Some_2 r (S j) Hjlt) as [u' Hu'].
    assert (He : edge g s u') by (destruct Hr as (_ & _ & Hch); by eapply Hch).
    assert (Hu's : u' ∉ ({[s]} ∪ ∅ : gset string)).
    { intros Hin. assert (u' = s) as -> by set_solver.
      by eapply (Hlast (S j)); [lia|]. }
    exists (S j), u', ([s] ++ [u']). repeat split.
    + done.
    + apply elem_of_pushes. eauto.
    + unfold lex_le, key. simpl. destruct j as [|j].
      * right. rewrite Hu'. split; [done|lia].
      * left. lia.
    + intros k x Hk Hx Hin. assert (x = s) as -> by set_solver.
      by eapply (Hlast k); [lia|].
Qed.

Lemma bfs_loop_sound fuel q X res :
  bfs_inv g s t rank_of q X → bfs_loop fuel g t q X = Some res → bfs_post g s t rank_of res.
Proof.
  revert q X. induction fuel as [|fuel IH]; intros q X Hinv Hrun; [done|].
  simpl in Hrun. destruct q as [|[v p] q].
  - simplify_eq. intros r Hr.
    destruct (inv_cover Hinv r t Hr (inv_target Hinv))
      as (i & u & p & _ & Hin & _).
    by apply elem_of_nil in Hin.
  - destruct (decide (v ∈ X)) as [Hv|Hv].
    { eapply IH; [|exact Hrun]. by eapply bfs_inv_skip. }
    destruct (decide (v = t)) as [->|Hvt].
    + simplify_eq. split; [by apply (inv_walk Hinv), list_elem_of_here|].
      intros r Hr.
      destruct (inv_cover Hinv r t Hr Hv) as (i & u & p' & Hi & Hin & Hle & _).
      pose proof (inv_sorted Hinv) as Hso.
      apply StronglySorted_inv in Hso as [_ Hhd]. rewrite Forall_forall in Hhd.
      assert (Hpp' : lex_le (key rank_of p) (key rank_of p')).
      { apply elem_of_cons in Hin as [Heq|Hin]; [|exact (Hhd _ Hin)].
        simplify_eq. right. split; [done|]. simpl. lia. }
      apply lookup_lt_Some in Hi.
      unfold lex_le, key in *; simpl in *. lia.
    + eapply IH; [|exact Hrun]. by apply bfs_inv_explore.
Qed.

End bfs.

(** ** Termination: the fuel of [BFS_path_finding] is enough *)

Section fuel.

Lemma pending_insert X i x (m : gmap string (list string)) :
  m !! i = None →
  pending X (<[i:=x]> m) = (if decide (i ∈ X) then 0 else length x) + pending X m.
Proof.
  intros Hi. unfold pending. by rewrite map_to_list_insert.
Qed.

Lemma pending_explore (m : gmap string (list string)) X v :
  v ∉ X →
  pending ({[v]} ∪ X) m + length (neighbors_of m v) = pending X m.
Proof.
  intros Hv. induction m as [|i x m Hi IH] using map_ind.
  - unfold pending, neighbors_of. by rewrite map_to_list_empty, lookup_empty.
  - rewrite !pending_insert by done. unfold neighbors_of in *.
    destruct (decide (i = v)) as [->|Hne].
    + rewrite lookup_insert_eq. rewrite Hi in IH. simpl in *.
      rewrite decide_True by set_solver. rewrite decide_False by done. lia.
    + rewrite lookup_insert_ne by done.
      destruct (decide (i ∈ X)) as [HiX|HiX].
      * rewrite decide_True by set_solver. lia.
      * rewrite decide_False by set_solver. lia.
Qed.

Lemma pending_empty (m : gmap string (list string)) :
  pending ∅ m = sum_list (length <$> (map_to_list m).*2).
Proof.
  unfold pending. rewrite <- list_fmap_compose. f_equal.
Qed.

Lemma bfs_loop_terminates fuel g t q X :
  length q + pending X g < fuel → is_Some (bfs_loop fuel g t q X).
Proof.
  revert q X. induction fuel as [|fuel IH]; intros q X Hfuel; [lia|].
  simpl. destruct q as [|[v p] q]; [eauto|]. simpl in Hfuel.
  destruct (decide (v ∈ X)) as [Hv|Hv]; [apply IH; lia|].
  destruct (decide (v = t)) as [->|Hvt]; [eauto|].
  apply IH. rewrite length_app, length_fmap.
  pose proof (pending_explore g X v Hv) as Hp.
  pose proof (length_filter (λ neighbor, neighbor ∉ {[v]} ∪ X) (neighbors_of g v)) as Hf.
  lia.
Qed.

End fuel.

Section routes.

Lemma position_here x l : position x (x :: l) = 0.
Proof. unfold position. simpl. by rewrite decide_True. Qed.

Lemma position_further x y l : x ≠ y → position x (y :: l) = S (position x l).
Proof.
  intros Hne. unfold position. simpl. rewrite decide_False by done.
  by destruct (list_index x l).
Qed.

Lemma position_app x pre l : x ∉ pre → position x (pre ++ l) = length pre + position x l.
Proof.
  induction pre as [|y pre IH]; intros Hx; [done|].
  apply not_elem_of_cons in Hx as [Hne Hx]. simpl.
  rewrite position_further by done. by rewrite IH.
Qed.

Lemma position_sorted pre l :
  NoDup (pre ++ l) →
  StronglySorted (λ a b, position a (pre ++ l) ≤ position b (pre ++ l)) l.
Proof.
  revert pre. induction l as [|a l IH]; intros pre Hnd; [constructor|].
  assert (Ha : a ∉ pre).
  { apply NoDup_app in Hnd as (_ & Hdisj & _). intros Hin.
    apply (Hdisj a Hin). left. }
  constructor.
  - replace (pre ++ a :: l) with ((pre ++ [a]) ++ l) by by rewrite <- app_assoc.
    apply IH. by rewrite <- app_assoc.
  - apply Forall_forall. intros b Hb.
    rewrite (position_app a) by done. rewrite position_here.
    destruct (decide (b ∈ pre)) as [Hbp|Hbp].
    + apply NoDup_app in Hnd as (_ & Hdisj & _). destruct (Hdisj b Hbp). by right.
    + rewrite (position_app b) by done. lia.
Qed.

Lemma walk_in_dom g s t p :
  walk g s t p → t ∈ dom g → Forall (λ x, x ∈ dom g) p.
Proof.
  intros (_ & Hlast & Hch) Ht. apply Forall_lookup. intros i x Hx.
  destruct (p !! S i) as [y|] eqn:Hy.
  - pose proof (Hch i x y Hx Hy) as He. unfold edge, neighbors_of in He.
    apply elem_of_dom. destruct (g !! x); [done|]. by apply elem_of_nil in He.
  - apply last_Some in Hlast as [p' ->].
    apply lookup_ge_None in Hy. pose proof (lookup_lt_Some _ _ _ Hx) as Hl.
    rewrite length_app in *. simpl in *.
    assert (i = length p') as -> by lia.
    rewrite lookup_app_r, Nat.sub_diag in Hx by lia. by simplify_eq/=.
Qed.

Lemma bfs_loop_start fuel g s t :
  s ≠ t →
  bfs_loop (S fuel) g t [(s, [s])] ∅
  = bfs_loop fuel g t (pushes g s [s] ({[s]} ∪ ∅)) ({[s]} ∪ ∅).
Proof.
  intros Hne. simpl. rewrite decide_False by set_solver.
  by rewrite decide_False by done.
Qed.

(** [BFS_path_finding] for a target other than the node itself. *)
Lemma BFS_path_finding_other (self : Router) (target : string)
    (rank_of : option string → nat) :
  target ≠ self.(peer_id) →
  StronglySorted (λ a b, rank_of (Some a) ≤ rank_of (Some b))
    (neighbors_of self.(peer_graph) self.(peer_id)) →
  match BFS_path_finding self target with
  | Some p =>
      target ∈ dom self.(peer_graph)
      ∧ walk self.(peer_graph) self.(peer_id) target p
      ∧ ∀ r, walk self.(peer_graph) self.(peer_id) target r →
             lex_le (key rank_of p) (key rank_of r)
  | None =>
      target ∉ dom self.(peer_graph)
      ∨ ∀ r, ¬ walk self.(peer_graph) self.(peer_id) target r
  end.
Proof.
  intros Hne Hsorted. unfold BFS_path_finding.
  rewrite decide_False by done.
  destruct (decide (target ∈ dom (peer_graph self))) as [Hdom|Hdom]; [|by left].
  set (g := peer_graph self) in *. set (s := peer_id self) in *.
  unfold bfs_fuel. rewrite <- pending_empty.
  change (2 + pending ∅ g) with (S (S (pending ∅ g))).
  rewrite bfs_loop_start by done.
  destruct (bfs_loop_terminates (S (pending ∅ g)) g target
              (pushes g s [s] ({[s]} ∪ ∅)) ({[s]} ∪ ∅)) as [res Hres].
  { unfold pushes. rewrite length_fmap.
    pose proof (pending_explore g ∅ s (not_elem_of_empty s)) as Hp.
    pose proof (length_filter (λ neighbor, neighbor ∉ ({[s]} ∪ ∅ : gset string))
                  (neighbors_of g s)) as Hf.
    lia. }
  rewrite Hres.
  assert (Hpost : bfs_post g s target rank_of res).
  { eapply bfs_loop_sound; [|exact Hres]. by apply bfs_inv_init. }
  destruct res as [p|]; simpl in Hpost.
  - destruct Hpost as [Hw Hmin]. auto.
  - by right.
Qed.

End routes.

Section table.

Lemma update_routing_graph_fold (self : Router) (known_peers : list string) :
  routing_graph (update_routing_graph self known_peers)
  = foldl (λ (routing : gmap string string) target_peer,
             if decide (target_peer = self.(peer_id)) then routing
             else match row_for self target_peer with
                  | Some next_hop => <[target_peer := next_hop]> routing
                  | None => routing
                  end) ∅ known_peers.
Proof.
  unfold update_routing_graph. simpl. generalize (∅ : gmap string string).
  induction known_peers as [|x l IH]; intros acc; [done|]. simpl.
  rewrite IH. f_equal. case_decide; [done|]. unfold row_for.
  repeat case_match; done.
Qed.

Lemma update_routing_graph_lookup (self : Router) (known_peers : list string) target :
  routing_graph (update_routing_graph self known_peers) !! target
  = if decide (target ∈ known_peers ∧ target ≠ self.(peer_id))
    then row_for self target else None.
Proof.
  rewrite update_routing_graph_fold.
  set (step := λ (routing : gmap string string) (target_peer : string), _).
  assert (Hgen : ∀ l (acc : gmap string string),
    foldl step acc l !! target
    = if decide (target ∈ l ∧ target ≠ self.(peer_id))
      then match row_for self target with
           | Some next_hop => Some next_hop
           | None => acc !! target
           end
      else acc !! target).
  { assert (Hstep : ∀ acc x,
      step acc x !! target
      = if decide (x = target ∧ x ≠ self.(peer_id))
        then match row_for self target with
             | Some next_hop => Some next_hop
             | None => acc !! target
             end
        else acc !! target).
    { intros acc x. unfold step.
      destruct (decide (x = peer_id self)) as [Hs|Hs].
      - rewrite decide_False; [done|]. by intros [_ ?].
      - destruct (decide (x = target)) as [->|Hx].
        + rewrite decide_True by done.
          destruct (row_for self target); [|done]. by rewrite lookup_insert_eq.
        + rewrite decide_False by (by intros [? _]).
          destruct (row_for self x); [|done]. by rewrite lookup_insert_ne. }
    clearbody step.
    induction l as [|x l IH]; intros acc; cbn [foldl].
    - rewrite decide_False; [done|]. intros [Hin _]. by apply elem_of_nil in Hin.
    - rewrite IH, Hstep.
      destruct (decide (target ∈ l ∧ target ≠ peer_id self)) as [[Hin Hne]|Hno].
      + rewrite (decide_True (P := target ∈ x :: l ∧ _)) by (split; [by right|done]).
        destruct (row_for self target); [done|]. by case_decide.
      + destruct (decide (x = target ∧ x ≠ peer_id self)) as [[-> Hne]|Hno'].
        * by rewrite decide_True by (split; [left|done]).
        * rewrite decide_False; [done|]. intros [Hin Hne].
          apply elem_of_cons in Hin as [->|Hin]; [by apply Hno'|by apply Hno]. }
  rewrite Hgen. rewrite lookup_empty. by repeat case_match.
Qed.

End table.

Section next_hop.

Lemma walk_two g s t p :
  walk g s t p → t ≠ s → ∃ hop rest, p = s :: hop :: rest ∧ edge g s hop.
Proof.
  intros (Hhd & Hlast & Hch) Hne.
  destruct p as [|a [|hop rest]]; simplify_eq/=.
  exists hop, rest. split; [done|]. by apply (Hch 0).
Qed.

Lemma row_for_walk (self : Router) target p :
  BFS_path_finding self target = Some p →
  walk self.(peer_graph) self.(peer_id) target p →
  target ≠ self.(peer_id) →
  "" ∉ neighbors_of self.(peer_graph) self.(peer_id) →
  ∃ hop, row_for self target = Some hop ∧ p !! 1 = Some hop.
Proof.
  intros Hbfs Hw Hne Hempty.
  destruct (walk_two _ _ _ _ Hw Hne) as (hop & rest & -> & He).
  exists hop. split; [|done].
  unfold row_for. rewrite Hbfs. unfold get_next_hop. simpl.
  rewrite decide_True by done. simpl.
  destruct hop; [|done]. by destruct Hempty.
Qed.

Lemma str_sorted_const (l : list string) :
  StronglySorted
    (λ a b : string, (λ _ : option string, 0) (Some a) ≤ (λ _ : option string, 0) (Some b))
    l.
Proof.
  induction l; constructor; [done|]. apply Forall_forall. intros; simpl; lia.
Qed.

(** C2 (as amended): for every peer graph whose node has no empty
    identifier among its neighbours, and every target in [known_peers] other
    than the node itself, after [update_routing_graph]: if a path from the
    node to the target exists in the graph, [routing_graph[target]] is the
    first hop of a shortest path, and among the shortest paths it is the
    one whose first hop comes first in the order in which the node's own
    adjacency set is iterated (the code does not sort it); a target with no
    path has no entry. *)
Theorem update_routing_graph_shortest (self : Router) (known_peers : list string)
    (target : string) :
  target ∈ known_peers →
  target ≠ self.(peer_id) →
  "" ∉ neighbors_of self.(peer_graph) self.(peer_id) →
  ((∃ p, path_in self.(peer_graph) self.(peer_id) target p) →
   ∃ hop p,
     routing_graph (update_routing_graph self known_peers) !! target = Some hop
     ∧ shortest_path self.(peer_graph) self.(peer_id) target p
     ∧ p !! 1 = Some hop
     ∧ (NoDup (neighbors_of self.(peer_graph) self.(peer_id)) →
        ∀ p', shortest_path self.(peer_graph) self.(peer_id) target p' →
              hop_rank self.(peer_graph) self.(peer_id) p
              ≤ hop_rank self.(peer_graph) self.(peer_id) p'))
  ∧ ((¬ ∃ p, path_in self.(peer_graph) self.(peer_id) target p) →
     routing_graph (update_routing_graph self known_peers) !! target = None).
Proof.
  intros Hknown Hne Hempty.
  rewrite update_routing_graph_lookup. rewrite decide_True by done.
  set (g := peer_graph self) in *. set (s := peer_id self) in *.
  pose proof (BFS_path_finding_other self target (λ _, 0) Hne (str_sorted_const _))
    as Hlen.
  destruct (BFS_path_finding self target) as [p|] eqn:Hbfs.
  - destruct Hlen as (Hdom & Hw & Hmin).
    assert (Hpath : path_in g s target p) by (split; [done|by eapply walk_in_dom]).
    split; [|intros Hno; destruct Hno; eauto].
    intros _.
    destruct (row_for_walk self target p Hbfs Hw Hne Hempty) as (hop & Hrow & Hhop).
    exists hop, p. split; [done|]. split; [split; [done|]|split; [done|]].
    + intros p' [Hw' _]. specialize (Hmin p' Hw').
      unfold lex_le, key in Hmin. simpl in Hmin. lia.
    + intros Hnd p' [[Hw' _] Hshort].
      pose proof (BFS_path_finding_other self target (first_hop_rank g s) Hne) as Hrank.
      rewrite Hbfs in Hrank. destruct Hrank as (_ & _ & Hmin').
      { exact (position_sorted [] _ Hnd). }
      specialize (Hmin' p' Hw'). specialize (Hshort p Hpath).
      unfold lex_le, key, hop_rank in *. simpl in *. lia.
  - split.
    + intros (p & Hw & Hall). destruct Hlen as [Hdom|Hnone].
      * destruct Hdom. destruct Hw as (_ & Hlast & _).
        apply last_Some in Hlast as [p' ->].
        apply Forall_app in Hall as [_ Hall].
        apply Forall_cons in Hall as [Hall _]. exact Hall.
      * by destruct (Hnone p).
    + intros _. unfold row_for. by rewrite Hbfs.
Qed.

End next_hop.

Section diamond.

Lemma diamond_neighbors :
  neighbors_of diamond.(peer_graph) "c0ffee00" = ["bbbb0002"; "aaaa0001"].
Proof. reflexivity. Qed.

Lemma diamond_BFS_path_finding :
  BFS_path_finding diamond "dddd0004" = Some ["c0ffee00"; "bbbb0002"; "dddd0004"].
Proof. reflexivity. Qed.

Lemma diamond_no_empty_id :
  "" ∉ neighbors_of diamond.(peer_graph) diamond.(peer_id).
Proof.
  intros Hin. change ("" ∈ ["bbbb0002"; "aaaa0001"]) in Hin.
  repeat (apply elem_of_cons in Hin as [Hin|Hin]; [discriminate|]).
  by apply elem_of_nil in Hin.
Qed.

Lemma diamond_through_a :
  shortest_path diamond.(peer_graph) "c0ffee00" "dddd0004"
    ["c0ffee00"; "aaaa0001"; "dddd0004"].
Proof.
  split; [split; [split; [done|split; [done|]]|]|].
  - intros i u v Hu Hv. unfold edge.
    destruct i as [|[|i]]; simplify_eq/=.
    + change ("aaaa0001" ∈ ["bbbb0002"; "aaaa0001"]). right. left.
    + change ("dddd0004" ∈ ["c0ffee00"; "dddd0004"]). right. left.
  - repeat constructor; apply elem_of_dom; by eexists.
  - intros p' [(Hhd & Hlast & Hch) _].
    destruct p' as [|a [|b [|c p']]]; simplify_eq/=; [|lia].
    specialize (Hch 0 "c0ffee00" "dddd0004" eq_refl eq_refl).
    change ("dddd0004" ∈ ["bbbb0002"; "aaaa0001"]) in Hch.
    repeat (apply elem_of_cons in Hch as [Hch|Hch]; [discriminate|]).
    by apply elem_of_nil in Hch.
Qed.

Lemma diamond_neighbors_NoDup :
  NoDup (neighbors_of diamond.(peer_graph) diamond.(peer_id)).
Proof.
  change (NoDup ["bbbb0002"; "aaaa0001"]).
  apply NoDup_cons. split; [|apply NoDup_singleton].
  intros Hin. apply list_elem_of_singleton in Hin. discriminate.
Qed.

Lemma update_routing_graph_shortest_witness :
  "dddd0004" ∈ ["dddd0004"]
  ∧ "dddd0004" ≠ diamond.(peer_id)
  ∧ ("" ∉ neighbors_of diamond.(peer_graph) diamond.(peer_id))
  ∧ ∃ hop p,
      routing_graph (update_routing_graph diamond ["dddd0004"]) !! "dddd0004"
        = Some hop
      ∧ shortest_path diamond.(peer_graph) diamond.(peer_id) "dddd0004" p
      ∧ p !! 1 = Some hop
      ∧ ∀ p', shortest_path diamond.(peer_graph) diamond.(peer_id) "dddd0004" p' →
              hop_rank diamond.(peer_graph) diamond.(peer_id) p
              ≤ hop_rank diamond.(peer_graph) diamond.(peer_id) p'.
Proof.
  assert (H1 : "dddd0004" ∈ ["dddd0004"]) by left.
  assert (H2 : "dddd0004" ≠ diamond.(peer_id)) by discriminate.
  split; [exact H1|]. split; [exact H2|]. split; [exact diamond_no_empty_id|].
  destruct (proj1 (update_routing_graph_shortest diamond ["dddd0004"] "dddd0004"
                     H1 H2 diamond_no_empty_id)
              (ex_intro _ _ (proj1 diamond_through_a)))
    as (hop & p & Hrow & Hshort & Hhop & Htie).
  exists hop, p. split; [exact Hrow|]. split; [exact Hshort|].
  split; [exact Hhop|]. exact (Htie diamond_neighbors_NoDup).
Defined.

(** C2 (counterexample): in the diamond the node iterates its neighbours
    as [bbbb0002], [aaaa0001]; both start a shortest path to [dddd0004],
    and the table holds [bbbb0002], not the smaller [aaaa0001] that the
    sorted order selects. *)
Lemma update_routing_graph_unsorted :
  routing_graph (update_routing_graph diamond ["dddd0004"]) !! "dddd0004"
    = Some "bbbb0002"
  ∧ ¬ sorted_tie_break diamond.(peer_graph) "c0ffee00" "dddd0004" "bbbb0002".
Proof.
  split; [reflexivity|]. intros Hsorted.
  specialize (Hsorted _ "aaaa0001" diamond_through_a eq_refl). discriminate.
Qed.

End diamond.

Section removal.

Lemma foldl_delete_lookup (m : gmap string string) (keys : list string) d :
  foldl (λ r key, delete key r) m keys !! d
  = if decide (d ∈ keys) then None else m !! d.
Proof.
  revert m. induction keys as [|k keys IH]; intros m; cbn [foldl].
  - by rewrite decide_False by apply not_elem_of_nil.
  - rewrite IH. destruct (decide (d ∈ keys)) as [Hin|Hnin].
    + by rewrite decide_True by (by right).
    + destruct (decide (d = k)) as [->|Hne].
      * rewrite decide_True by left. apply lookup_delete_eq.
      * rewrite decide_False by (rewrite elem_of_cons; naive_solver).
        by apply lookup_delete_ne.
Qed.

(** C8: after [remove_peer(x)], [x] is not a key of the peer graph, no
    adjacency set contains [x], and no row of the routing table has [x] as
    its destination or as its next hop. *)
Theorem remove_peer_consistent (self : Router) (x : string) :
  (x ∉ dom (peer_graph (remove_peer self x)))
  ∧ (∀ peer adjacency, peer_graph (remove_peer self x) !! peer = Some adjacency →
       x ∉ adjacency)
  ∧ (∀ destination hop,
       routing_graph (remove_peer self x) !! destination = Some hop →
       destination ≠ x ∧ hop ≠ x).
Proof.
  unfold remove_peer. simpl. split; [|split].
  - rewrite dom_fmap_L. case_decide; [|done].
    rewrite dom_delete_L. set_solver.
  - intros peer adjacency. rewrite lookup_fmap. intros Hlook.
    apply fmap_Some in Hlook as (connection & _ & ->).
    case_decide as Hin; [|done].
    unfold set_remove. rewrite list_elem_of_filter. naive_solver.
  - intros destination hop. rewrite foldl_delete_lookup.
    case_decide as Hkey; [done|]. intros Hrow.
    destruct (decide (destination = x ∨ hop = x)) as [Hx|Hx]; [|naive_solver].
    destruct Hkey. apply list_elem_of_fmap. exists (destination, hop).
    split; [done|]. apply list_elem_of_filter. split; [done|].
    by apply elem_of_map_to_list.
Qed.

End removal.

End RouterFacts.

(* ===================================================================== *)
(** * Theorems: the offline store                                          *)
(* ===================================================================== *)

Module StoreFacts.
Import Py Message MessageStore Samples.

Section store.

Lemma elem_of_delete_offline cond db o :
  o ∈ offline_messages (delete_offline cond db)
  ↔ o ∈ offline_messages db ∧ cond o = false.
Proof. unfold delete_offline. simpl. by rewrite list_elem_of_filter, (comm and). Qed.

Lemma elem_of_select_schedule_ids cond db mid :
  mid ∈ select_schedule_ids cond db
  ↔ ∃ s, s ∈ schedule_messages db ∧ sched_message_id s = mid ∧ cond s = true.
Proof.
  unfold select_schedule_ids. rewrite list_elem_of_fmap. split.
  - intros (s & -> & Hs). apply list_elem_of_filter in Hs as [? ?]. eauto.
  - intros (s & Hs & <- & Hc). exists s. split; [done|].
    by apply list_elem_of_filter.
Qed.

(** No DELETE of the module touches the schedule table. *)
Lemma delete_offline_schedule cond db :
  schedule_messages (delete_offline cond db) = schedule_messages db.
Proof. reflexivity. Qed.

Lemma delete_expired_messages_schedule now db :
  schedule_messages (delete_expired_messages now db) = schedule_messages db.
Proof. reflexivity. Qed.

Lemma delete_expired_messages_gone now db o s :
  s ∈ schedule_messages db →
  row_message_id o = sched_message_id s →
  PrimFloat.leb (expiry_time s) now = true →
  o ∉ offline_messages (delete_expired_messages now db).
Proof.
  intros Hs Hid Hexp Hin. unfold delete_expired_messages in Hin.
  apply elem_of_delete_offline in Hin as [_ Hcond].
  apply bool_decide_eq_false in Hcond. apply Hcond.
  apply elem_of_select_schedule_ids. eauto.
Qed.

Lemma get_pending_messages_gone target t_expired t_select t_sent draw db o s :
  o ∈ offline_messages db →
  s ∈ schedule_messages db →
  row_message_id o = sched_message_id s →
  row_target_user_id o = target →
  PrimFloat.ltb t_sent (expiry_time s) = true →
  o ∉ offline_messages
        (get_pending_messages target t_expired t_select t_sent draw db).2.
Proof.
  intros Ho Hs Hid Htarget Hlive Hin.
  unfold get_pending_messages, delet_sent_messages in Hin. cbn [snd] in Hin.
  apply elem_of_delete_offline in Hin as [Ho1 Hcond].
  apply andb_false_iff in Hcond as [Hcond|Hcond].
  { apply String.eqb_neq in Hcond. done. }
  apply bool_decide_eq_false in Hcond. apply Hcond.
  apply elem_of_select_schedule_ids. exists s.
  by rewrite delete_expired_messages_schedule.
Qed.

Lemma elem_of_select_pending target now db o s :
  (o, s) ∈ select_pending target now db →
  o ∈ offline_messages db ∧ s ∈ schedule_messages db
  ∧ row_message_id o = sched_message_id s.
Proof.
  unfold select_pending. intros Hin.
  apply list_elem_of_bind in Hin as (o' & Hin & Ho').
  apply list_elem_of_bind in Hin as (s' & Hin & Hs').
  case_match eqn:Hc; [|by apply elem_of_nil in Hin].
  apply list_elem_of_singleton in Hin. simplify_eq.
  apply andb_true_iff in Hc as [Hc _]. apply andb_true_iff in Hc as [Hc _].
  by apply String.eqb_eq in Hc.
Qed.

(** The message table: a stored message whose [expiry_time] has passed
    when [get_pending_messages] reads the clock for
    [delete_expired_messages] is not in the result for any target (no
    returned message carries its [message_id]), and its row of
    [offline_messages] is deleted by the call and by
    [delete_expired_messages]. *)
Lemma expired_message_row_deleted target t_expired t_select t_sent draw db o s :
  o ∈ offline_messages db →
  s ∈ schedule_messages db →
  row_message_id o = sched_message_id s →
  PrimFloat.leb (expiry_time s) t_expired = true →
  (∀ m, m ∈ (get_pending_messages target t_expired t_select t_sent draw db).1 →
        message_id m ≠ row_message_id o)
  ∧ (o ∉ offline_messages
           (get_pending_messages target t_expired t_select t_sent draw db).2)
  ∧ (∀ now o' s', o' ∈ offline_messages db → s' ∈ schedule_messages db →
       row_message_id o' = sched_message_id s' →
       PrimFloat.leb (expiry_time s') now = true →
       o' ∉ offline_messages (delete_expired_messages now db)).
Proof.
  intros Ho Hs Hid Hexp.
  assert (Hgone : ∀ o', row_message_id o' = row_message_id o →
            o' ∉ offline_messages (delete_expired_messages t_expired db)).
  { intros o' Hid'. eapply delete_expired_messages_gone; [done| |done]. congruence. }
  split; [|split].
  - intros m Hm Hmid. unfold get_pending_messages in Hm. simpl in Hm.
    apply elem_of_lookup_imap in Hm as (i & [o' s'] & -> & Hlook).
    apply list_elem_of_lookup_2 in Hlook.
    apply elem_of_select_pending in Hlook as (Ho' & _ & _).
    simpl in Hmid. by apply (Hgone o').
  - intros Hin.
    unfold get_pending_messages, delet_sent_messages in Hin. cbn [snd] in Hin.
    apply elem_of_delete_offline in Hin as [Ho1 _]. by apply (Hgone o).
  - intros now o' s' _ Hs' Hid' Hexp'.
    by eapply delete_expired_messages_gone.
Qed.

(** A call that returns has added the schedule row of the message. *)
Lemma store_offline_message_scheduled now (m : Message) db :
  (store_offline_message now m db).1 = Ok () →
  message_id m ∈ sched_message_id <$> schedule_messages (store_offline_message now m db).2.
Proof.
  unfold store_offline_message.
  destruct (insert_offline _ m) as [row|e]; [|done].
  case_decide; [done|]. intros _. simpl.
  rewrite fmap_app. apply elem_of_app. right. left.
Qed.

(** A message whose identifier has a schedule row is refused, and the
    database stays as it was. *)
Lemma store_offline_message_refused now (m : Message) db :
  message_id m ∈ sched_message_id <$> schedule_messages db →
  store_offline_message now m db
  = (Raise (if fits_numbers m then IntegrityError else OverflowError), db).
Proof.
  intros Hin. unfold store_offline_message, insert_offline, fits_numbers.
  unfold bind_number, bind_int.
  destruct (time_stamp m) as [i|f]; simpl;
    [destruct (fits_int64 (int_value i)); simpl; [|done]|];
    (destruct (fits_int64 (int_value (hop_count m))); simpl; [|done]);
    (destruct (target_user_id m); [|done]);
    by rewrite decide_True.
Qed.

(** C6 (as amended): for every message already stored, calling
    [store_offline_message] again with a message bearing the same
    [message_id] raises an exception and leaves the message table and the
    schedule table in the state they had after the first call: the
    exception is [sqlite3.IntegrityError], [message_id] being the primary
    key of the schedule table, unless an [int] of the message does not fit
    the 64-bit INTEGER of SQLite, which is an [OverflowError]. *)
Theorem store_offline_message_again now1 now2 (m m' : Message) db :
  message_id m' = message_id m →
  (store_offline_message now1 m db).1 = Ok () →
  store_offline_message now2 m' (store_offline_message now1 m db).2
  = (Raise (if fits_numbers m' then IntegrityError else OverflowError),
     (store_offline_message now1 m db).2).
Proof.
  intros Hid Hok. apply store_offline_message_refused.
  rewrite Hid. by apply store_offline_message_scheduled.
Qed.

Lemma store_offline_message_again_witness :
  message_id queued_message = message_id queued_message
  ∧ (store_offline_message 1700000000%float queued_message empty_database).1 = Ok ()
  ∧ store_offline_message 1700000060%float queued_message
      (store_offline_message 1700000000%float queued_message empty_database).2
    = (Raise IntegrityError,
       (store_offline_message 1700000000%float queued_message empty_database).2).
Proof.
  split; [reflexivity|]. split; [reflexivity|].
  apply (store_offline_message_again 1700000000%float 1700000060%float
           queued_message queued_message empty_database); reflexivity.
Defined.

(** C6 (counterexample): the second call for a stored message fails. *)
Lemma store_offline_message_twice :
  (store_offline_message 1700000000%float queued_message empty_database).1 = Ok ()
  ∧ (store_offline_message 1700000060%float queued_message
       (store_offline_message 1700000000%float queued_message empty_database).2).1
    = Raise IntegrityError.
Proof. split; reflexivity. Qed.

(** Storing [queued_message] at 1700000000 in an empty database: the
    integral [time_stamp] is kept as an INTEGER. *)
Lemma store_offline_message_queued :
  store_offline_message 1700000000%float queued_message empty_database
  = (Ok (), stored_database).
Proof. reflexivity. Qed.

(** The schedule row of a message outlives its message row, and a message
    that expired or was handed out cannot be stored again. *)
Lemma get_pending_messages_schedule target t_expired t_select t_sent draw db :
  schedule_messages (get_pending_messages target t_expired t_select t_sent draw db).2
  = schedule_messages db.
Proof. reflexivity. Qed.

Lemma store_offline_message_after_expiry :
  delete_expired_messages 1800000000%float stored_database
  = {| offline_messages := [];
       schedule_messages := [queued_schedule];
       sqlite_sequence := 1 |}
  ∧ (store_offline_message 1800000060%float queued_message
       (delete_expired_messages 1800000000%float stored_database)).1
    = Raise IntegrityError.
Proof. split; reflexivity. Qed.

(** C7 (the code at the failing input): the expired row is not removed
    from the store. [delete_expired_messages], and [get_pending_messages]
    through it, delete the row of [offline_messages] and leave the row of
    [schedule_messages], the one that holds the [expiry_time]: the DELETE
    names [offline_messages], and the ON DELETE CASCADE of the schema does
    not run on a connection that never enabled foreign keys. The row that
    stays has [expiry_time <= now], and it makes every later
    [store_offline_message] of the identifier fail on the primary key. *)
Theorem expired_schedule_row_stays target t_expired t_select t_sent draw db o s :
  o ∈ offline_messages db →
  s ∈ schedule_messages db →
  row_message_id o = sched_message_id s →
  PrimFloat.leb (expiry_time s) t_expired = true →
  (o ∉ offline_messages (delete_expired_messages t_expired db)
   ∧ s ∈ schedule_messages (delete_expired_messages t_expired db))
  ∧ (o ∉ offline_messages
           (get_pending_messages target t_expired t_select t_sent draw db).2
     ∧ s ∈ schedule_messages
             (get_pending_messages target t_expired t_select t_sent draw db).2)
  ∧ ∀ now (m : Message),
      message_id m = sched_message_id s →
      store_offline_message now m (delete_expired_messages t_expired db)
      = (Raise (if fits_numbers m then IntegrityError else OverflowError),
         delete_expired_messages t_expired db).
Proof.
  intros Ho Hs Hid Hexp.
  assert (Hgone : o ∉ offline_messages (delete_expired_messages t_expired db))
    by by eapply delete_expired_messages_gone.
  split; [done|]. split; [split; [|done]|].
  - intros Hin.
    unfold get_pending_messages, delet_sent_messages in Hin. cbn [snd] in Hin.
    by apply elem_of_delete_offline in Hin as [Ho1 _].
  - intros now m Hm. apply store_offline_message_refused.
    rewrite delete_expired_messages_schedule, Hm. by apply list_elem_of_fmap_2.
Qed.

Lemma expired_schedule_row_stays_witness :
  queued_row ∈ offline_messages stored_database
  ∧ queued_schedule ∈ schedule_messages stored_database
  ∧ row_message_id queued_row = sched_message_id queued_schedule
  ∧ PrimFloat.leb (expiry_time queued_schedule) 1800000000%float = true
  ∧ queued_schedule
    ∈ schedule_messages (delete_expired_messages 1800000000%float stored_database)
  ∧ queued_schedule
    ∈ schedule_messages
        (get_pending_messages "e5f6a7b8" 1800000000%float 1800000001%float
           1800000002%float (λ _, ("ffffffff", 1800000001%float))
           stored_database).2.
Proof.
  assert (H1 : queued_row ∈ offline_messages stored_database) by left.
  assert (H2 : queued_schedule ∈ schedule_messages stored_database) by left.
  split; [exact H1|]. split; [exact H2|]. split; [reflexivity|].
  split; [reflexivity|].
  destruct (expired_schedule_row_stays "e5f6a7b8" 1800000000%float 1800000001%float
              1800000002%float (λ _, ("ffffffff", 1800000001%float)) stored_database
              queued_row queued_schedule H1 H2 eq_refl eq_refl)
    as ((_ & Hstays) & (_ & Hstays') & _).
  split; [exact Hstays|exact Hstays'].
Defined.

End store.

End StoreFacts.

(* ===================================================================== *)
(** * Theorems: the peer node                                              *)
(* ===================================================================== *)

Module PeerFacts.
Import Py Peer Samples.

Section frame.
Context {X : Type} (proj : Peer → X).

Lemma preserves_ret {A} (a : A) : preserves proj (mret a).
Proof. by intros self. Qed.

Lemma preserves_bind {A B} (c : M A) (k : A → M B) :
  preserves proj c → (∀ a, preserves proj (k a)) → preserves proj (c ≫= k).
Proof.
  intros Hc Hk self. unfold mbind, M_bind. simpl.
  destruct (value (c self)) as [a|e] eqn:Hv; simpl; [|apply Hc].
  rewrite Hk. apply Hc.
Qed.

Lemma preserves_get : preserves proj get.
Proof. by intros self. Qed.

Lemma preserves_raise {A} e : preserves proj (raise e : M A).
Proof. by intros self. Qed.

Lemma preserves_lift {A} (r : pyresult A) : preserves proj (lift r).
Proof. by intros self. Qed.

Lemma preserves_call ev : preserves proj (call ev).
Proof. by intros self. Qed.

Lemma preserves_modify f : (∀ self, proj (f self) = proj self) → preserves proj (modify f).
Proof. intros Hf self. apply Hf. Qed.

Lemma preserves_for_each {A} (l : list A) (body : nat → A → M unit) i :
  (∀ j x, preserves proj (body j x)) → preserves proj (for_each l body i).
Proof.
  intros Hbody. revert i. induction l as [|x l IH]; intros i; simpl.
  - apply preserves_ret.
  - apply preserves_bind; [apply Hbody|]. intros _. apply IH.
Qed.

End frame.

Lemma bind_get {A} (k : Peer → M A) self :
  (get ≫= k) self = k self self.
Proof. unfold mbind, M_bind, get. simpl. by destruct (k self self). Qed.

Lemma bind_modify {A} f (k : unit → M A) self :
  (modify f ≫= k) self = k () (f self).
Proof. unfold mbind, M_bind, modify. simpl. by destruct (k () (f self)). Qed.

Ltac frame_step :=
  first
    [ apply preserves_ret
    | apply preserves_get
    | apply preserves_raise
    | apply preserves_lift
    | apply preserves_call
    | apply preserves_modify; intros; reflexivity
    | apply preserves_for_each; intros
    | apply preserves_bind; [|intros]
    | match goal with
      | |- preserves _ (match ?x with _ => _ end) => destruct x
      | |- preserves _ (if ?b then _ else _) => destruct b
      | |- preserves _ (let _ := _ in _) => cbv zeta
      end ].

Ltac frame := repeat frame_step.

Section methods_frame.
Context `{JsonModule}.

Ltac unfold_methods :=
  unfold handle_handshake, handle_user_message, handle_peer_list,
    handle_network_structure_message, handle_received_alert, _forward_alert,
    send_views, deliver_queued_messages, send_message, route_message,
    queue_offline_message, queue_message, merge_edge.

Lemma merge_neighbors_seen peer l u : preserves seen_messages (merge_neighbors peer l u).
Proof.
  revert u. induction l as [|x l IH]; intros u; simpl; [frame|].
  destruct x; try (by frame).
Qed.

Lemma merge_graph_seen g u : preserves seen_messages (merge_graph g u).
Proof.
  revert u. induction g as [|[peer nbs] g IH]; intros u; simpl; [frame|].
  apply preserves_bind; [frame|]. intros self.
  apply preserves_bind; [frame|]. intros _.
  apply preserves_bind; [frame|]. intros elements.
  apply preserves_bind; [apply merge_neighbors_seen|]. intros u'. apply IH.
Qed.

(** No handler touches [seen_messages]. *)
Lemma handlers_seen env message connection :
  preserves seen_messages (handle_received_alert env message)
  ∧ preserves seen_messages (handle_handshake env message connection)
  ∧ preserves seen_messages (handle_user_message env message)
  ∧ preserves seen_messages (handle_peer_list env message)
  ∧ preserves seen_messages (handle_network_structure_message env message).
Proof.
  repeat split.
  - unfold_methods. frame.
  - unfold_methods. frame.
  - unfold_methods. frame.
  - unfold_methods. frame.
  - unfold handle_network_structure_message.
    destruct (get_or_none _ _); try (by frame).
    apply preserves_bind; [apply merge_graph_seen|]. intros u.
    unfold_methods. frame.
Qed.

Lemma handle_message_seen env message connection self :
  seen_messages (state (handle_message env message connection self))
  = {[Message.message_id message]} ∪ seen_messages self.
Proof.
  destruct (handlers_seen env message connection) as (H1 & H2 & H3 & H4 & H5).
  unfold handle_message. rewrite bind_get.
  case_bool_decide as Hseen; [simpl; set_solver|].
  rewrite bind_modify. unfold dispatch.
  repeat case_match; first [apply H1|apply H2|apply H3|apply H4|apply H5|done].
Qed.

Lemma dispatched_with_cons mid entry log :
  dispatched_with mid (entry :: log)
  = if decide (Message.message_id entry.1 = mid ∧ is_Some entry.2)
    then entry :: dispatched_with mid log
    else dispatched_with mid log.
Proof. unfold dispatched_with. by rewrite filter_cons. Qed.

Lemma run_seen env i inbox self mid :
  mid ∈ seen_messages self → dispatched_with mid (run env i inbox self).1 = [].
Proof.
  revert i self. induction inbox as [|[m c] inbox IH]; intros i self Hseen; [done|].
  cbn [run].
  pose proof (handle_message_seen (site env i) m c self) as Hnext.
  set (o := handle_message (site env i) m c self) in *.
  assert (Hhead : dispatched_with mid
            [(m, if bool_decide (Message.message_id m ∈ seen_messages self) then None
                 else handler_of (Message.message_type m))] = []).
  { rewrite dispatched_with_cons. simpl.
    case_decide as Hd; [|done]. destruct Hd as [<- Hsome].
    rewrite bool_decide_eq_true_2 in Hsome by done. by destruct Hsome. }
  rewrite dispatched_with_cons in Hhead.
  assert (Hin : mid ∈ seen_messages (state o)) by (rewrite Hnext; set_solver).
  clearbody o.
  destruct (value o); simpl; rewrite dispatched_with_cons.
  - case_decide; [done|]. by apply IH.
  - exact Hhead.
Qed.

(** The [if]/[elif] chain runs the handler of the message type. *)
Lemma dispatch_handler_of env message connection :
  dispatch env message connection
  = match handler_of (Message.message_type message) with
    | Some h => run_handler h env message connection
    | None => mret ()
    end.
Proof. unfold dispatch, handler_of. by repeat case_match. Qed.

Lemma handle_message_dropped env message connection self :
  Message.message_id message ∈ seen_messages self →
  handle_message env message connection self = mkOutcome (Ok ()) self [].
Proof.
  intros Hseen. unfold handle_message.
  rewrite bind_get. by rewrite bool_decide_eq_true_2.
Qed.

(** Before the [k]-th call the identifiers of the earlier messages are
    all in [seen_messages]. *)
Lemma before_seen env i inbox self k self_k :
  before env i inbox self k = Some self_k →
  seen_messages self ⊆ seen_messages self_k
  ∧ ∀ j m c, j < k → inbox !! j = Some (m, c) →
             Message.message_id m ∈ seen_messages self_k.
Proof.
  revert i inbox self. induction k as [|k IH]; intros i inbox self Hk.
  - destruct inbox; simpl in Hk; simplify_eq; (split; [reflexivity|intros; lia]).
  - destruct inbox as [|[m0 c0] rest]; [done|]. cbn [before] in Hk.
    pose proof (handle_message_seen (site env i) m0 c0 self) as Hseen.
    destruct (value (handle_message (site env i) m0 c0 self)); [|done].
    apply IH in Hk as [Hsub Hearlier]. rewrite Hseen in Hsub. split.
    + set_solver.
    + intros j m c Hj Hlook. destruct j as [|j]; simpl in Hlook.
      * simplify_eq. set_solver.
      * apply (Hearlier j m c); [lia|done].
Qed.

(** C3: on one node, a message whose [message_id] is in [seen_messages] is
    dropped: [handle_message] returns with the peer unchanged and no call
    made; a message whose [message_id] is new has the identifier added to
    [seen_messages] and is handed to [dispatch]; over any sequence of
    messages processed by [handle_message], a message that carries the
    [message_id] of an earlier one is dropped, and at most one message per
    [message_id] is dispatched to a handler. *)
Theorem handle_message_at_most_once env :
  (∀ message connection self,
     Message.message_id message ∈ seen_messages self →
     handle_message env message connection self = mkOutcome (Ok ()) self [])
  ∧ (∀ message connection self,
     Message.message_id message ∉ seen_messages self →
     handle_message env message connection self
     = dispatch env message connection
         (set_seen_messages (λ seen, {[Message.message_id message]} ∪ seen) self)
     ∧ (Message.message_id message
        ∈ seen_messages (state (handle_message env message connection self))))
  ∧ (∀ i inbox self j k earlier cj later ck self_k,
     j < k → inbox !! j = Some (earlier, cj) → inbox !! k = Some (later, ck) →
     Message.message_id later = Message.message_id earlier →
     before env i inbox self k = Some self_k →
     handle_message (site env (i + k)) later ck self_k = mkOutcome (Ok ()) self_k [])
  ∧ (∀ i inbox self mid,
     length (dispatched_with mid (run env i inbox self).1) ≤ 1).
Proof.
  split; [|split; [|split]].
  - intros message connection self. apply handle_message_dropped.
  - intros message connection self Hnew. split.
    + unfold handle_message. rewrite bind_get.
      rewrite bool_decide_eq_false_2 by done. by rewrite bind_modify.
    + rewrite handle_message_seen. set_solver.
  - intros i inbox self j k earlier cj later ck self_k Hjk Hj _ Hid Hk.
    apply handle_message_dropped. rewrite Hid.
    by apply (proj2 (before_seen _ _ _ _ _ _ Hk) j earlier cj).
  - intros i inbox. revert i.
    induction inbox as [|[m c] inbox IH]; intros i self mid; [simpl; lia|].
    cbn [run].
    pose proof (handle_message_seen (site env i) m c self) as Hseen.
    set (o := handle_message (site env i) m c self) in *.
    assert (Hin : Message.message_id m ∈ seen_messages (state o))
      by (rewrite Hseen; set_solver).
    clearbody o.
    destruct (value o); simpl; rewrite dispatched_with_cons.
    + case_decide as Hd; [|apply IH].
      destruct Hd as [<- _]. simpl.
      rewrite run_seen; [simpl; lia|done].
    + case_decide; simpl; lia.
Qed.

End methods_frame.

Section known.
Context `{JsonModule}.

Lemma bind_ok {A B} (c : M A) (k : A → M B) self a self' :
  c self = mkOutcome (Ok a) self' [] → (c ≫= k) self = k a self'.
Proof.
  intros Hc. unfold mbind, M_bind. rewrite Hc. simpl. by destruct (k a self').
Qed.

Lemma queue_message_run c m self :
  queue_message c m self
  = mkOutcome (Ok (Connection.queue_message (objects self c) m).1)
      (set_objects (<[c := (Connection.queue_message (objects self c) m).2]>) self) [].
Proof. unfold queue_message. rewrite bind_get. by rewrite bind_modify. Qed.

Lemma dict_get_set {V} k k' (v : V) d :
  dict_get k (dict_set k' v d) = if decide (k = k') then Some v else dict_get k d.
Proof.
  induction d as [|[k0 v0] d IH]; simpl.
  - destruct (String.eqb_spec k k'); by case_decide.
  - destruct (String.eqb_spec k' k0) as [->|Hne]; simpl.
    + destruct (String.eqb_spec k k0) as [->|Hne']; by case_decide.
    + rewrite IH. destruct (String.eqb_spec k k0) as [->|Hne']; [|done].
      by rewrite decide_False by done.
Qed.

(** What [handle_handshake] leaves in [known_peers]. *)
Lemma handle_handshake_known_peers env message connection self :
  known_peers (state (handle_handshake env message connection self))
  = dict_set (Message.peer_id message)
      (JDict [("host", get_or_none (Message.data message) "host");
              ("port", get_or_none (Message.data message) "port")])
      (known_peers self).
Proof.
  unfold handle_handshake. rewrite bind_modify, bind_get.
  assert (Hrest : ∀ (rest : M unit) start,
            preserves known_peers rest →
            known_peers (state ((modify (set_known_peers (dict_set (Message.peer_id message)
               (JDict [("host", get_or_none (Message.data message) "host");
                       ("port", get_or_none (Message.data message) "port")])))
               ≫= λ _, rest) start))
            = dict_set (Message.peer_id message)
                (JDict [("host", get_or_none (Message.data message) "host");
                        ("port", get_or_none (Message.data message) "port")])
                (known_peers start)).
  { intros rest start Hp. rewrite bind_modify. by rewrite Hp. }
  destruct (negb _).
  - erewrite bind_ok; [|erewrite bind_ok; [reflexivity|apply queue_message_run]].
    rewrite Hrest; [done|]. frame.
  - erewrite bind_ok; [|reflexivity].
    rewrite Hrest; [done|]. frame.
Qed.

Lemma handle_handshake_peer_id env message connection :
  preserves peer_id (handle_handshake env message connection).
Proof. frame. Qed.

(** C9 (the code at the failing input): a HANDSHAKE whose [peer_id] is the
    local identifier makes [handle_handshake] insert the node itself into
    [known_peers], also when it was not a key before: the assignment
    [self.known_peers[other_peer_id] = ...] has no guard, unlike the loop of
    [handle_peer_list]. *)
Theorem handle_handshake_inserts_self env message connection self :
  Message.peer_id message = peer_id self →
  dict_in (peer_id self) (known_peers self) = false →
  dict_in (peer_id (state (handle_handshake env message connection self)))
    (known_peers (state (handle_handshake env message connection self))) = true.
Proof.
  intros Hself _. rewrite handle_handshake_peer_id, handle_handshake_known_peers.
  unfold dict_in. rewrite dict_get_set, Hself, decide_True by done.
  by apply bool_decide_eq_true.
Qed.

(** The sibling path: [handle_peer_list] skips the local identifier. *)
Lemma handle_peer_list_skips_self env message self :
  dict_in (peer_id self) (known_peers self) = false →
  dict_in (peer_id (state (handle_peer_list env message self)))
    (known_peers (state (handle_peer_list env message self))) = false.
Proof.
  intros Hnot.
  assert (Hid : preserves peer_id (handle_peer_list env message)) by frame.
  rewrite Hid. unfold handle_peer_list. rewrite bind_get, bind_modify.
  set (step := λ (acc : list (string * json) * nat) (item : string * json), _).
  assert (Hfold : ∀ l acc, dict_in (peer_id self) acc.1 = false →
            dict_in (peer_id self) (foldl step acc l).1 = false).
  { induction l as [|item l IH]; intros acc Hacc; [done|]. simpl. apply IH.
    unfold step. destruct (negb (String.eqb item.1 (peer_id self))) eqn:Hne; [|done].
    destruct (negb (dict_in item.1 acc.1)); [|done]. simpl.
    unfold dict_in in *. rewrite dict_get_set.
    apply negb_true_iff, String.eqb_neq in Hne.
    by rewrite decide_False by done. }
  specialize (Hfold (Message.data message) (known_peers self, 0) Hnot).
  case_decide; [|exact Hfold].
  match goal with
  | |- context [state (?c ?start)] =>
      assert (Hp : preserves known_peers c) by frame; rewrite Hp
  end.
  exact Hfold.
Qed.

End known.

Lemma handle_handshake_inserts_self_witness :
  Message.peer_id own_handshake = peer_id fresh_peer
  ∧ dict_in (peer_id fresh_peer) (known_peers fresh_peer) = false
  ∧ dict_in (peer_id fresh_peer)
      (known_peers (state (@handle_handshake bare_json clock own_handshake 0
                             fresh_peer))) = true.
Proof.
  split; [reflexivity|]. split; [reflexivity|].
  apply (@handle_handshake_inserts_self bare_json clock own_handshake 0 fresh_peer);
    reflexivity.
Defined.

Section forward.

(** The loop of [_forward_alert] ends at the first connected peer outside
    the path, with the exception of the call, and changes nothing. *)
Lemma for_each_call (path : list json) (copy : nat → string → Message.Message)
    (l : list string) i self :
  for_each l (λ i peer,
    if negb (existsb (eq_str peer) path)
    then call (send_message_to_peer peer (copy i peer))
    else mret ()) i self
  = mkOutcome
      (if existsb (λ peer, negb (existsb (eq_str peer) path)) l
       then Raise AttributeError else Ok ())
      self [].
Proof.
  revert i. induction l as [|peer l IH]; intros i; [done|].
  cbn [for_each existsb]. unfold mbind, M_bind.
  destruct (negb (existsb (eq_str peer) path)); simpl; [done|].
  by rewrite IH.
Qed.

Lemma _forward_alert_run env alert self :
  existsb unhashable (Message.path alert) = false →
  _forward_alert env alert self
  = mkOutcome
      (if existsb (λ peer, negb (existsb (eq_str peer) (Message.path alert)))
                  (connections self).*1
       then Raise AttributeError else Ok ())
      self [].
Proof.
  intros Hhash. unfold _forward_alert. rewrite Hhash, bind_get.
  apply (for_each_call (Message.path alert)).
Qed.

Lemma existsb_eq_str peer (path : list json) :
  existsb (eq_str peer) path = false ↔ JStr peer ∉ path.
Proof.
  induction path as [|x path IH]; simpl.
  - split; [intros _; apply not_elem_of_nil|done].
  - rewrite orb_false_iff, IH, not_elem_of_cons. 
    assert (eq_str peer x = false ↔ JStr peer ≠ x); [|tauto].
    destruct x; simpl; try (split; [intros _; discriminate|done]).
    rewrite String.eqb_neq. split; [congruence|]. intros Hne ->. done.
Qed.

(** C10 (the code at the failing input): a received PEST_ALERT below the
    forwarding cap is forwarded to nobody when a connected peer is outside
    its path. [_forward_alert] builds the copy for the first such peer and
    hands it to [self.peer.send_message_to_peer], a method class [Peer]
    does not have: [handle_received_alert] records the alert and raises
    [AttributeError], no connection has a byte queued, and the exception
    leaves [handle_message]. *)
Theorem handle_received_alert_raises env alert self (peer : string) :
  dict_in "pest_count" (Message.data alert) && dict_in "pest_type" (Message.data alert)
    && dict_in "risk_level" (Message.data alert) = true →
  (int_value (Message.hop_count alert) < FORWARD_LIMIT)%Z →
  existsb unhashable (Message.path alert) = false →
  peer ∈ (connections self).*1 →
  JStr peer ∉ Message.path alert →
  handle_received_alert env alert self
  = mkOutcome (Raise AttributeError)
      (set_recent_alerts (λ alerts,
         alerts ++ [ {| alert_message := alert;
                        alert_timestamp := time_time env [];
                        received_from := Message.peer_id alert |} ]) self) []
  ∧ objects (state (handle_received_alert env alert self)) = objects self
  ∧ ∀ `{JsonModule} connection,
      Message.message_id alert ∉ seen_messages self →
      Message.message_type alert = "PEST_ALERT" →
      value (handle_message env alert connection self) = Raise AttributeError.
Proof.
  intros Hkeys Hhops Hhash Hpeer Hpath.
  assert (Hsome : ∀ self', connections self' = connections self →
            existsb (λ peer, negb (existsb (eq_str peer) (Message.path alert)))
                    (connections self').*1 = true).
  { intros self' ->. apply existsb_exists. exists peer. split.
    - by apply list_elem_of_In.
    - apply negb_true_iff. by apply existsb_eq_str. }
  assert (Hrun : ∀ env self,
            existsb (λ peer, negb (existsb (eq_str peer) (Message.path alert)))
                    (connections self).*1 = true →
            handle_received_alert env alert self
            = mkOutcome (Raise AttributeError)
                (set_recent_alerts (λ alerts,
                   alerts ++ [ {| alert_message := alert;
                                  alert_timestamp := time_time env [];
                                  received_from := Message.peer_id alert |} ]) self) []).
  { intros env' self' Hex. unfold handle_received_alert. rewrite bind_modify, Hkeys.
    erewrite bind_ok; [|reflexivity].
    rewrite bool_decide_eq_true_2 by done.
    rewrite _forward_alert_run by done. simpl. by rewrite Hex. }
  split; [by apply Hrun, Hsome|]. split; [by rewrite Hrun by by apply Hsome|].
  intros HJ connection Hnew Htype. unfold handle_message.
  rewrite bind_get, bool_decide_eq_false_2 by done. rewrite bind_modify.
  unfold dispatch. rewrite Htype.
  change (String.eqb "PEST_ALERT" "PEST_ALERT") with true. cbv iota.
  by rewrite Hrun by by apply Hsome.
Qed.

End forward.

Lemma handle_received_alert_raises_witness :
  "bbbb0002" ∈ (connections connected_peer).*1
  ∧ JStr "bbbb0002" ∉ Message.path pest_alert
  ∧ value (handle_received_alert clock pest_alert connected_peer) = Raise AttributeError
  ∧ objects (state (handle_received_alert clock pest_alert connected_peer))
    = objects connected_peer.
Proof.
  assert (H1 : "bbbb0002" ∈ (connections connected_peer).*1) by left.
  assert (H2 : JStr "bbbb0002" ∉ Message.path pest_alert).
  { intros Hin. apply list_elem_of_singleton in Hin. discriminate. }
  assert (H3 : (int_value (Message.hop_count pest_alert) < FORWARD_LIMIT)%Z)
    by (unfold FORWARD_LIMIT; simpl; lia).
  split; [exact H1|]. split; [exact H2|].
  destruct (handle_received_alert_raises clock pest_alert connected_peer "bbbb0002"
              eq_refl H3 eq_refl H1 H2) as (Hrun & Hobjects & _).
  split; [by rewrite Hrun|exact Hobjects].
Defined.

Section delivery.
Context `{JsonModule}.

(** C5: after [get_pending_messages(target)] returns, every stored message
    for [target] that is not expired when [delet_sent_messages] reads the
    clock has been deleted from the offline store, whatever the state of
    the connections; [deliver_queued_messages] runs its sends on the store
    that has lost these rows already. *)
Theorem get_pending_messages_deletes target t_expired t_select t_sent draw db o s :
  o ∈ MessageStore.offline_messages db →
  s ∈ MessageStore.schedule_messages db →
  MessageStore.row_message_id o = MessageStore.sched_message_id s →
  MessageStore.row_target_user_id o = target →
  PrimFloat.ltb t_sent (MessageStore.expiry_time s) = true →
  (o ∉ MessageStore.offline_messages
         (MessageStore.get_pending_messages target t_expired t_select t_sent draw db).2)
  ∧ ∀ env self,
      deliver_queued_messages env target self
      = for_each
          (MessageStore.get_pending_messages target
             (env.(time_time) [0]) (env.(time_time) [1]) (env.(time_time) [2])
             (λ i, (env.(uuid4_hex8) [3; i], env.(time_time) [3; i]))
             self.(message_store)).1
          (λ i message, send_message (site (site env 4) i) message;; mret ()) 0
          (set_message_store
             (λ _, (MessageStore.get_pending_messages target
                      (env.(time_time) [0]) (env.(time_time) [1]) (env.(time_time) [2])
                      (λ i, (env.(uuid4_hex8) [3; i], env.(time_time) [3; i]))
                      self.(message_store)).2) self).
Proof.
  intros Ho Hs Hid Htarget Hlive. split.
  - by eapply StoreFacts.get_pending_messages_gone.
  - intros env self. unfold deliver_queued_messages.
    rewrite bind_get. by rewrite bind_modify.
Qed.

End delivery.

Lemma get_pending_messages_deletes_witness :
  queued_row ∈ MessageStore.offline_messages stored_database
  ∧ queued_schedule ∈ MessageStore.schedule_messages stored_database
  ∧ MessageStore.row_message_id queued_row
    = MessageStore.sched_message_id queued_schedule
  ∧ MessageStore.row_target_user_id queued_row = "e5f6a7b8"
  ∧ PrimFloat.ltb 1700000002%float (MessageStore.expiry_time queued_schedule) = true
  ∧ (queued_row ∉ MessageStore.offline_messages
       (MessageStore.get_pending_messages "e5f6a7b8" 1700000000%float
          1700000001%float 1700000002%float (λ _, ("ffffffff", 1700000001%float))
          stored_database).2).
Proof.
  assert (H1 : queued_row ∈ MessageStore.offline_messages stored_database) by left.
  assert (H2 : queued_schedule ∈ MessageStore.schedule_messages stored_database)
    by left.
  split; [exact H1|]. split; [exact H2|]. split; [reflexivity|].
  split; [reflexivity|]. split; [reflexivity|].
  exact (proj1 (@get_pending_messages_deletes bare_json "e5f6a7b8" 1700000000%float
    1700000001%float 1700000002%float (λ _, ("ffffffff", 1700000001%float))
    stored_database queued_row queued_schedule H1 H2 eq_refl eq_refl eq_refl)).
Defined.

End PeerFacts.

(* ===================================================================== *)
(** * More on the router: rows, edges and removal                          *)
(* ===================================================================== *)

Module EdgeFacts.
Import Router Graph Samples RouterFacts.


(** Rows of the table: destination known and a key of the graph, next hop a
    neighbour of the node. *)
Lemma row_for_neighbour (self : Router) target hop :
  target ≠ self.(peer_id) →
  row_for self target = Some hop →
  target ∈ dom self.(peer_graph)
  ∧ hop ∈ neighbors_of self.(peer_graph) self.(peer_id)
  ∧ hop ≠ "".
Proof.
  intros Hne Hrow. unfold row_for in Hrow.
  pose proof (BFS_path_finding_other self target (λ _, 0) Hne (str_sorted_const _))
    as Hbfs.
  destruct (BFS_path_finding self target) as [p|]; [|done].
  destruct Hbfs as (Hdom & Hw & _).
  destruct (walk_two _ _ _ _ Hw Hne) as (hop' & rest & -> & Hedge).
  unfold get_next_hop in Hrow. simpl in Hrow.
  rewrite decide_True in Hrow by done. simpl in Hrow.
  destruct (str_truthy hop') eqn:Ht; [|done]. simplify_eq.
  split; [done|]. split; [done|]. by intros ->.
Qed.


Lemma row_for_direct (self : Router) n :
  n ≠ self.(peer_id) → n ≠ "" →
  n ∈ neighbors_of self.(peer_graph) self.(peer_id) →
  n ∈ dom self.(peer_graph) →
  row_for self n = Some n.
Proof.
  intros Hne Hnonempty Hedge Hdom.
  pose proof (BFS_path_finding_other self n (λ _, 0) Hne (str_sorted_const _)) as Hbfs.
  assert (Hw2 : walk (peer_graph self) (peer_id self) n [peer_id self; n]).
  { split; [done|]. split; [done|]. intros i u v Hu Hv.
    destruct i as [|[|i]]; simplify_eq/=. done. }
  unfold row_for.
  destruct (BFS_path_finding self n) as [p|].
  - destruct Hbfs as (_ & Hw & Hmin).
    specialize (Hmin _ Hw2). unfold lex_le, key in Hmin. simpl in Hmin.
    destruct (walk_two _ _ _ _ Hw Hne) as (hop & rest & -> & _).
    destruct rest as [|x rest]; [|simpl in Hmin; lia].
    destruct Hw as (_ & Hlast & _). simpl in Hlast. simplify_eq.
    unfold get_next_hop. simpl. rewrite decide_True by done. simpl.
    by destruct n.
  - destruct Hbfs as [Hno|Hno]; [done|]. by destruct (Hno _ Hw2).
Qed.


(** ** Edges *)

Lemma Router_eq (r1 r2 : Router) :
  routing_graph r1 = routing_graph r2 → peer_graph r1 = peer_graph r2 →
  peer_id r1 = peer_id r2 → r1 = r2.
Proof. destruct r1, r2. simpl. by intros -> -> ->. Qed.

Lemma elem_of_set_add x v (s : list string) : v ∈ set_add x s ↔ v ∈ s ∨ v = x.
Proof.
  unfold set_add. case_decide as Hin.
  - split; [by left|]. by intros [?| ->].
  - rewrite elem_of_app, list_elem_of_singleton. done.
Qed.

Lemma neighbors_of_insert_nil (g : gmap string (list string)) k u :
  k ∉ dom g → neighbors_of (<[k := []]> g) u = neighbors_of g u.
Proof.
  intros Hk. unfold neighbors_of. destruct (decide (u = k)) as [->|Hne].
  - rewrite lookup_insert_eq. apply not_elem_of_dom in Hk. by rewrite Hk.
  - by rewrite lookup_insert_ne.
Qed.

Lemma neighbors_of_alter (g : gmap string (list string)) f k u :
  k ∈ dom g →
  neighbors_of (alter f k g) u = if decide (u = k) then f (neighbors_of g k) else neighbors_of g u.
Proof.
  intros Hk. unfold neighbors_of. case_decide as Hu.
  - subst. rewrite lookup_alter_eq. apply elem_of_dom in Hk as [l Hl]. by rewrite Hl.
  - by rewrite lookup_alter_ne.
Qed.

Lemma dom_update_peer_graph (self : Router) x :
  dom (peer_graph (update_peer_graph self x)) = dom (peer_graph self) ∪ {[peer_id self; x]}.
Proof.
  unfold update_peer_graph. simpl. rewrite !dom_alter_L.
  repeat case_decide; rewrite ?dom_insert_L; set_solver.
Qed.

Lemma elem_of_neighbors_update_peer_graph (self : Router) x u v :
  v ∈ neighbors_of (peer_graph (update_peer_graph self x)) u
  ↔ v ∈ neighbors_of (peer_graph self) u
    ∨ (u = peer_id self ∧ v = x) ∨ (u = x ∧ v = peer_id self).
Proof.
  unfold update_peer_graph. simpl.
  set (g0 := peer_graph self). set (s := peer_id self).
  set (g1 := if decide (s ∈ dom g0) then g0 else <[s := []]> g0).
  set (g2 := if decide (x ∈ dom g1) then g1 else <[x := []]> g1).
  assert (H1 : ∀ w, neighbors_of g1 w = neighbors_of g0 w).
  { intros w. unfold g1. case_decide; [done|]. by apply neighbors_of_insert_nil. }
  assert (H2 : ∀ w, neighbors_of g2 w = neighbors_of g0 w).
  { intros w. unfold g2. case_decide; [done|]. by rewrite neighbors_of_insert_nil. }
  assert (Hs : s ∈ dom g2).
  { unfold g2, g1. repeat case_decide; rewrite ?dom_insert_L; set_solver. }
  assert (Hx : x ∈ dom g2).
  { unfold g2. repeat case_decide; rewrite ?dom_insert_L; set_solver. }
  rewrite neighbors_of_alter by (by rewrite dom_alter_L).
  rewrite !neighbors_of_alter by done.
  destruct (decide (u = x)) as [->|Hux], (decide (x = s)) as [->|Hxs];
    try destruct (decide (u = s)) as [->|Hus];
    rewrite ?decide_True by done; rewrite ?decide_False by done;
    rewrite ?elem_of_set_add, ?H2; naive_solver.
Qed.


Lemma elem_of_neighbors_remove_peer (self : Router) x u v :
  v ∈ neighbors_of (peer_graph (remove_peer self x)) u
  ↔ u ≠ x ∧ v ≠ x ∧ v ∈ neighbors_of (peer_graph self) u.
Proof.
  unfold remove_peer, neighbors_of. simpl. rewrite lookup_fmap.
  assert (Hdel : (if decide (x ∈ dom (peer_graph self))
                  then delete x (peer_graph self) else peer_graph self) !! u
                 = if decide (u = x) then None else peer_graph self !! u).
  { case_decide as Hd; case_decide as Hu; subst.
    - apply lookup_delete_eq.
    - by apply lookup_delete_ne.
    - by apply not_elem_of_dom.
    - done. }
  rewrite Hdel. destruct (decide (u = x)) as [->|Hu]; simpl.
  - split; [intros Hin; by apply elem_of_nil in Hin|naive_solver].
  - destruct (peer_graph self !! u) as [l|]; simpl.
    + destruct (decide (x ∈ l)) as [Hin|Hin].
      * unfold set_remove. rewrite list_elem_of_filter. naive_solver.
      * split; [|naive_solver]. intros Hv. split; [done|]. split; [|done].
        by intros ->.
    + split; [intros Hin; by apply elem_of_nil in Hin|naive_solver].
Qed.

Lemma dom_remove_peer (self : Router) x :
  dom (peer_graph (remove_peer self x)) = dom (peer_graph self) ∖ {[x]}.
Proof.
  unfold remove_peer. simpl. rewrite dom_fmap_L.
  case_decide; [by rewrite dom_delete_L|set_solver].
Qed.

Lemma routing_remove_peer (self : Router) x d :
  routing_graph (remove_peer self x) !! d
  = match routing_graph self !! d with
    | Some hop => if decide (d = x ∨ hop = x) then None else Some hop
    | None => None
    end.
Proof.
  unfold remove_peer. simpl. rewrite foldl_delete_lookup.
  destruct (routing_graph self !! d) as [hop|] eqn:Hrow.
  - destruct (decide (d = x ∨ hop = x)) as [Hx|Hx].
    + rewrite decide_True; [done|]. apply list_elem_of_fmap. exists (d, hop).
      split; [done|]. apply list_elem_of_filter. split; [done|].
      by apply elem_of_map_to_list.
    + rewrite decide_False; [done|]. intros Hin.
      apply list_elem_of_fmap in Hin as ([d' hop'] & -> & Hin).
      apply list_elem_of_filter in Hin as [Hm Hin].
      apply elem_of_map_to_list in Hin. simpl in *. by simplify_eq.
  - by case_decide.
Qed.

Lemma undirected_empty : undirected ∅.
Proof.
  intros u v Hin. unfold neighbors_of in Hin. rewrite lookup_empty in Hin.
  by apply elem_of_nil in Hin.
Qed.

Lemma undirected_update_peer_graph (self : Router) (x : string) :
  undirected (peer_graph self) → undirected (peer_graph (update_peer_graph self x)).
Proof.
  intros Hsym u v. rewrite !elem_of_neighbors_update_peer_graph.
  specialize (Hsym u v). naive_solver.
Qed.

Lemma undirected_remove_peer (self : Router) (x : string) :
  undirected (peer_graph self) → undirected (peer_graph (remove_peer self x)).
Proof.
  intros Hsym u v. rewrite !elem_of_neighbors_remove_peer.
  specialize (Hsym u v). naive_solver.
Qed.



(** ** [get_next_hop] *)

Lemma list_index_Some x (l : list string) i :
  list_index x l = Some i →
  ∃ before after, l = before ++ x :: after ∧ x ∉ before ∧ length before = i.
Proof.
  revert i. induction l as [|y l IH]; intros i Hi; [done|]. simpl in Hi.
  case_decide as Hxy.
  - simplify_eq. exists [], l. split; [done|]. split; [apply not_elem_of_nil|done].
  - destruct (list_index x l) as [j|]; [|done]. simpl in Hi. simplify_eq.
    destruct (IH j eq_refl) as (before & after & -> & Hnot & Hlen).
    exists (y :: before), after. split; [done|]. split; [|by simpl; f_equal].
    rewrite not_elem_of_cons. done.
Qed.

Lemma list_index_None x (l : list string) : list_index x l = None → x ∉ l.
Proof.
  induction l as [|y l IH]; intros Hi; [apply not_elem_of_nil|]. simpl in Hi.
  case_decide; [done|]. destruct (list_index x l); [done|].
  rewrite not_elem_of_cons. auto.
Qed.


(** ** At the diamond *)




End EdgeFacts.
(* ===================================================================== *)
(** * More on the offline store: what a queue of messages keeps            *)
(* ===================================================================== *)

Module QueueFacts.
Import Py Message MessageStore Queue Samples StoreFacts.

(** ** The order of the floats *)

Section float_order.
Open Scope Z_scope.

Lemma SFcompare_key a b :
  SFcompare a b
  = match float_key a, float_key b with
    | Some ka, Some kb =>
        Some (match ka.1.1 ?= kb.1.1 with
              | Eq => match ka.1.2 ?= kb.1.2 with
                      | Eq => ka.2 ?= kb.2
                      | c => c
                      end
              | c => c
              end)
    | _, _ => None
    end.
Proof.
  destruct a as [s1|s1| |s1 m1 e1], b as [s2|s2| |s2 m2 e2]; simpl; try done;
    try (by destruct s1); try (by destruct s2); try (by destruct s1, s2).
  destruct s1, s2; simpl; try done.
  rewrite Z.compare_opp, (Z.compare_antisym e1 e2).
  by destruct (e1 ?= e2).
Qed.

Lemma SFltb_key a b :
  SFltb a b = true ↔ ∃ ka kb, float_key a = Some ka ∧ float_key b = Some kb ∧ key_lt ka kb.
Proof.
  unfold SFltb. rewrite SFcompare_key.
  destruct (float_key a) as [[[a1 a2] a3]|], (float_key b) as [[[b1 b2] b3]|]; simpl;
    try (split; [done|intros (? & ? & ? & ? & ?); done]).
  unfold key_lt. simpl. split.
  - intros Hc. eexists _, _. split; [done|]. split; [done|]. simpl.
    destruct (Z.compare_spec a1 b1); try done; [|lia].
    destruct (Z.compare_spec a2 b2); try done; [|lia].
    destruct (Z.compare_spec a3 b3); try done. lia.
  - intros (ka & kb & ? & ? & Hlt). simplify_eq. simpl in Hlt.
    destruct (Z.compare_spec a1 b1); [|done|lia].
    destruct (Z.compare_spec a2 b2); [|done|lia].
    destruct (Z.compare_spec a3 b3); [lia|done|lia].
Qed.

Lemma SFleb_key a b :
  SFleb a b = true ↔ ∃ ka kb, float_key a = Some ka ∧ float_key b = Some kb ∧ ¬ key_lt kb ka.
Proof.
  unfold SFleb. rewrite SFcompare_key.
  destruct (float_key a) as [[[a1 a2] a3]|], (float_key b) as [[[b1 b2] b3]|]; simpl;
    try (split; [done|intros (? & ? & ? & ? & ?); done]).
  unfold key_lt. simpl. split.
  - intros Hc. eexists _, _. split; [done|]. split; [done|]. simpl.
    destruct (Z.compare_spec a1 b1); try done; [|lia].
    destruct (Z.compare_spec a2 b2); try done; [|lia].
    destruct (Z.compare_spec a3 b3); try done; lia.
  - intros (ka & kb & ? & ? & Hlt). simplify_eq. simpl in Hlt.
    destruct (Z.compare_spec a1 b1); [|done|lia].
    destruct (Z.compare_spec a2 b2); [|done|lia].
    destruct (Z.compare_spec a3 b3); [done|done|lia].
Qed.

Lemma ltb_leb_false (x y : float) : (x <? y)%float = true → (y <=? x)%float = false.
Proof.
  rewrite ltb_spec, leb_spec. intros Hlt.
  apply SFltb_key in Hlt as (ka & kb & Ha & Hb & Hlt).
  destruct (SFleb (Prim2SF y) (Prim2SF x)) eqn:Hle; [|done].
  apply SFleb_key in Hle as (kb' & ka' & ? & ? & Hn). simplify_eq. done.
Qed.

Lemma leb_trans (x y z : float) :
  (x <=? y)%float = true → (y <=? z)%float = true → (x <=? z)%float = true.
Proof.
  rewrite !leb_spec, !SFleb_key.
  intros (ka & kb & Ha & Hb & H1) (kb' & kc & ? & Hc & H2). simplify_eq.
  exists ka, kc. split; [done|]. split; [done|]. unfold key_lt in *. lia.
Qed.

Lemma leb_ltb_trans (x y z : float) :
  (x <=? y)%float = true → (y <? z)%float = true → (x <? z)%float = true.
Proof.
  rewrite leb_spec, !ltb_spec, SFleb_key, !SFltb_key.
  intros (ka & kb & Ha & Hb & H1) (kb' & kc & ? & Hc & H2). simplify_eq.
  exists ka, kc. split; [done|]. split; [done|]. unfold key_lt in *. lia.
Qed.

(** Two readings that can be compared at all are ordered one way or the
    other. *)
Lemma ltb_false_leb (x y z : float) :
  (x <? y)%float = false → (z <=? x)%float = true → (z <? y)%float = true →
  (y <=? x)%float = true.
Proof.
  rewrite !ltb_spec, !leb_spec. intros Hlt Hx Hy.
  apply SFleb_key in Hx as (? & ka & ? & Ha & _).
  apply SFltb_key in Hy as (? & kb & ? & Hb & _). simplify_eq.
  apply SFleb_key. exists kb, ka. split; [done|]. split; [done|]. intros Hk.
  assert (SFltb (Prim2SF x) (Prim2SF y) = true); [|congruence].
  apply SFltb_key. eauto.
Qed.

End float_order.

(** ** The tables *)


Lemma message_ids_delete_offline cond db :
  message_ids (delete_offline cond db)
  = row_message_id <$> filter (λ o, cond o = false) (offline_messages db).
Proof. done. Qed.

Lemma consistent_delete_offline cond db :
  consistent db → consistent (delete_offline cond db).
Proof.
  intros (Hs & Hm & Hsub). split; [done|]. unfold message_ids in *.
  assert (Hsl : row_message_id <$> filter (λ o, cond o = false) (offline_messages db)
                `sublist_of` row_message_id <$> offline_messages db)
    by apply fmap_sublist, sublist_filter.
  split.
  - by eapply sublist_NoDup.
  - intros mid Hin. apply Hsub. by eapply elem_of_sublist.
Qed.

Lemma store_offline_message_Ok now (m : Message) db :
  (store_offline_message now m db).1 = Ok () →
  ∃ row, insert_offline
           (S (max (sqlite_sequence db) (max_list (id <$> offline_messages db)))) m
         = Ok row
    ∧ row_message_id row = message_id m
    ∧ message_id m ∉ schedule_ids db
    ∧ offline_messages (store_offline_message now m db).2 = offline_messages db ++ [row]
    ∧ schedule_messages (store_offline_message now m db).2
      = schedule_messages db
        ++ [ {| sched_message_id := message_id m; last_tried := None;
                retry_count := 0; expiry_time := PrimFloat.add now WEEK |} ].
Proof.
  unfold store_offline_message.
  destruct (insert_offline _ m) as [row|e] eqn:Hrow; [|done].
  case_decide as Hfresh; [done|]. intros _. exists row. split; [done|].
  split; [|done]. unfold insert_offline in Hrow.
  destruct (bind_number (time_stamp m)); [|done]. simpl in Hrow.
  destruct (bind_int (hop_count m)); [|done]. simpl in Hrow.
  destruct (target_user_id m); by simplify_eq.
Qed.

Lemma store_offline_message_Raise now (m : Message) db :
  (store_offline_message now m db).1 ≠ Ok () → (store_offline_message now m db).2 = db.
Proof.
  unfold store_offline_message.
  destruct (insert_offline _ m) as [row|e]; [|done].
  by case_decide.
Qed.

Lemma consistent_store now m db :
  consistent db → consistent (store_offline_message now m db).2.
Proof.
  intros Hc. destruct ((store_offline_message now m db).1) as [[]|e] eqn:Hok.
  - destruct (store_offline_message_Ok _ _ _ Hok) as (row & _ & Hid & Hfresh & Ho & Hs).
    destruct Hc as (Hsn & Hmn & Hsub).
    unfold consistent, message_ids, schedule_ids in *. rewrite Ho, Hs, !fmap_app.
    simpl. rewrite Hid. split; [|split].
    + apply NoDup_app. split; [done|]. split; [|apply NoDup_singleton].
      intros x Hx Hx'. apply list_elem_of_singleton in Hx'. by subst.
    + apply NoDup_app. split; [done|]. split; [|apply NoDup_singleton].
      intros x Hx Hx'. apply list_elem_of_singleton in Hx'. subst. by apply Hfresh, Hsub.
    + intros x. rewrite !elem_of_app. intros [Hx|Hx]; [left; by apply Hsub|by right].
  - rewrite store_offline_message_Raise; [done|]. by rewrite Hok.
Qed.

Lemma schedule_ids_increment now mid db :
  schedule_ids (increment_retry_count now mid db).2 = schedule_ids db
  ∧ offline_messages (increment_retry_count now mid db).2 = offline_messages db.
Proof.
  unfold increment_retry_count. case_match; [done|]. simpl. split; [|done].
  unfold schedule_ids. simpl. rewrite <- list_fmap_compose.
  apply list_fmap_ext. intros i s _. simpl. by case_match.
Qed.

Lemma consistent_apply_call c db : consistent db → consistent (apply_call c db).
Proof.
  intros Hc.
  destruct c as [now message|target te ts tx|mid te ts|now|target now|mid|now mid]; simpl.
  - by apply consistent_store.
  - unfold get_pending_messages. simpl. unfold delet_sent_messages, delete_expired_messages.
    by do 2 apply consistent_delete_offline.
  - unfold get_message_by_id. simpl. by apply consistent_delete_offline.
  - by apply consistent_delete_offline.
  - by apply consistent_delete_offline.
  - by apply consistent_delete_offline.
  - destruct (schedule_ids_increment now mid db) as [Hs Ho].
    unfold consistent, message_ids in *. by rewrite Hs, Ho.
Qed.


Lemma schedule_ids_apply_call c db :
  schedule_ids db ⊆ schedule_ids (apply_call c db).
Proof.
  destruct c as [now message|target te ts tx|mid te ts|now|target now|mid|now mid];
    simpl; try done.
  - destruct ((store_offline_message now message db).1) as [[]|e] eqn:Hok.
    + destruct (store_offline_message_Ok _ _ _ Hok) as (row & _ & _ & _ & _ & Hs).
      unfold schedule_ids. rewrite Hs, fmap_app. set_solver.
    + rewrite store_offline_message_Raise; [done|]. by rewrite Hok.
  - by destruct (schedule_ids_increment now mid db) as [-> _].
Qed.

Lemma schedule_ids_run_calls calls db :
  schedule_ids db ⊆ schedule_ids (run_calls calls db).
Proof.
  unfold run_calls. revert db. induction calls as [|c calls IH]; intros db; [done|].
  simpl. etrans; [apply (schedule_ids_apply_call c)|apply IH].
Qed.


Lemma NoDup_fmap_inj {A B} (f : A → B) (l : list A) x y :
  NoDup (f <$> l) → x ∈ l → y ∈ l → f x = f y → x = y.
Proof.
  induction l as [|a l IH]; intros Hnd Hx Hy Hf; [by apply elem_of_nil in Hx|].
  simpl in Hnd. apply NoDup_cons in Hnd as [Ha Hnd].
  apply elem_of_cons in Hx as [->|Hx], Hy as [->|Hy]; try done.
  - destruct Ha. rewrite Hf. by apply list_elem_of_fmap_2.
  - destruct Ha. rewrite <- Hf. by apply list_elem_of_fmap_2.
  - by apply IH.
Qed.

Lemma join_one (c : schedule_row → bool) (o : offline_row) (sched : list schedule_row) :
  NoDup (sched_message_id <$> sched) →
  (∀ s, c s = true → row_message_id o = sched_message_id s) →
  (row_message_id ∘ fst) <$> (s ← sched; if c s then [(o, s)] else [])
  `sublist_of` [row_message_id o].
Proof.
  intros Hnd Hc. induction sched as [|s sched IH]; [apply sublist_nil_l|].
  rewrite fmap_cons in Hnd. apply NoDup_cons in Hnd as [Hs Hnd].
  rewrite bind_cons. destruct (c s) eqn:Hcs.
  - assert (Hnil : (s' ← sched; if c s' then [(o, s')] else []) = []).
    { clear IH Hnd. induction sched as [|s' sched IH]; [done|].
      rewrite bind_cons. destruct (c s') eqn:Hcs'.
      - destruct Hs. rewrite <- (Hc s Hcs), (Hc s' Hcs'), fmap_cons. left.
      - apply IH. intros Hin. apply Hs. rewrite fmap_cons. by right. }
    by rewrite Hnil.
  - by apply IH.
Qed.

Lemma join_sublist (c : offline_row → schedule_row → bool)
    (rows : list offline_row) (sched : list schedule_row) :
  NoDup (sched_message_id <$> sched) →
  (∀ o s, c o s = true → row_message_id o = sched_message_id s) →
  (row_message_id ∘ fst) <$> (o ← rows; s ← sched; if c o s then [(o, s)] else [])
  `sublist_of` row_message_id <$> rows.
Proof.
  intros Hnd Hc. induction rows as [|o rows IH]; [done|].
  rewrite bind_cons, fmap_app, fmap_cons.
  change (row_message_id o :: (row_message_id <$> rows))
    with ([row_message_id o] ++ (row_message_id <$> rows)).
  apply sublist_app; [|done]. apply (join_one (c o)); [done|]. apply Hc.
Qed.

Lemma elem_of_select_pending_iff target now db o s :
  (o, s) ∈ select_pending target now db
  ↔ o ∈ offline_messages db ∧ s ∈ schedule_messages db
    ∧ row_message_id o = sched_message_id s
    ∧ row_target_user_id o = target
    ∧ PrimFloat.ltb now (expiry_time s) = true.
Proof.
  unfold select_pending. rewrite list_elem_of_bind. split.
  - intros (o' & Hin & Ho'). apply list_elem_of_bind in Hin as (s' & Hin & Hs').
    case_match eqn:Hc; [|by apply elem_of_nil in Hin].
    apply list_elem_of_singleton in Hin. simplify_eq.
    apply andb_true_iff in Hc as [Hc Hlive]. apply andb_true_iff in Hc as [Hid Ht].
    apply String.eqb_eq in Hid, Ht. done.
  - intros (Ho & Hs & Hid & Ht & Hlive). exists o. split; [|done].
    apply list_elem_of_bind. exists s. split; [|done].
    rewrite Hlive, andb_true_r.
    assert (Hc : String.eqb (row_message_id o) (sched_message_id s)
                 && String.eqb (row_target_user_id o) target = true).
    { apply andb_true_iff. split; by apply String.eqb_eq. }
    rewrite Hc. left.
Qed.

Lemma elem_of_delete_expired now db o :
  NoDup (schedule_ids db) →
  o ∈ offline_messages (delete_expired_messages now db)
  ↔ o ∈ offline_messages db
    ∧ ∀ s, s ∈ schedule_messages db → sched_message_id s = row_message_id o →
           PrimFloat.leb (expiry_time s) now = false.
Proof.
  intros _. unfold delete_expired_messages. rewrite elem_of_delete_offline.
  rewrite bool_decide_eq_false, elem_of_select_schedule_ids. split.
  - intros [Ho Hno]. split; [done|]. intros s Hs Hid.
    destruct (PrimFloat.leb (expiry_time s) now) eqn:Hexp; [|done].
    destruct Hno. eauto.
  - intros [Ho Hall]. split; [done|]. intros (s & Hs & Hid & Hexp).
    by rewrite (Hall s Hs Hid) in Hexp.
Qed.

Lemma message_id_imap (draw : nat → string * float) (l : list (offline_row * schedule_row)) :
  message_id <$> imap (λ i result, data_to_message_class (draw i).1 (draw i).2 result) l
  = (row_message_id ∘ fst) <$> l.
Proof.
  rewrite fmap_imap. rewrite <- (imap_const (row_message_id ∘ fst)).
  by apply imap_ext.
Qed.

Lemma bind_nil_all {A B} (f : A → list B) (l : list A) :
  (∀ x, x ∈ l → f x = []) → l ≫= f = [].
Proof.
  induction l as [|a l IH]; intros Hall; [done|].
  rewrite bind_cons, Hall, IH; [done| |left]. intros x Hx. apply Hall. by right.
Qed.

Lemma elem_of_get_pending_ids target t_expired t_select t_sent draw db mid :
  consistent db →
  mid ∈ message_id <$> (get_pending_messages target t_expired t_select t_sent draw db).1
  ↔ ∃ o s, o ∈ offline_messages db ∧ s ∈ schedule_messages db
           ∧ row_message_id o = mid ∧ sched_message_id s = mid
           ∧ row_target_user_id o = target
           ∧ PrimFloat.leb (expiry_time s) t_expired = false
           ∧ PrimFloat.ltb t_select (expiry_time s) = true.
Proof.
  intros (Hsn & Hmn & Hsub). unfold get_pending_messages. cbn [fst].
  rewrite message_id_imap, list_elem_of_fmap. split.
  - intros ([o s] & -> & Hin).
    apply elem_of_select_pending_iff in Hin as (Ho & Hs & Hid & Ht & Hlive).
    apply elem_of_delete_expired in Ho as [Ho Hexp]; [|done].
    exists o, s. simpl. repeat split; try done. by apply Hexp.
  - intros (o & s & Ho & Hs & Hid & Hids & Ht & Hexp & Hlive).
    exists (o, s). split; [done|]. apply elem_of_select_pending_iff.
    split; [|by rewrite Hid, Hids].
    apply elem_of_delete_expired; [done|]. split; [done|].
    intros s' Hs' Hid'.
    assert (s' = s) as ->; [|done].
    apply (NoDup_fmap_inj sched_message_id (schedule_messages db)); try done.
    by rewrite Hid', Hid.
Qed.



Lemma store_offline_message_fresh now (m : Message) db o :
  consistent db → (store_offline_message now m db).1 = Ok () →
  o ∈ offline_messages db → row_message_id o ≠ message_id m.
Proof.
  intros (_ & _ & Hsub) Hok Ho Hid.
  destruct (store_offline_message_Ok _ _ _ Hok) as (_ & _ & _ & Hfresh & _).
  apply Hfresh, Hsub. rewrite <- Hid. by apply list_elem_of_fmap_2.
Qed.


Lemma select_by_id_delete_other mid mid' now db :
  mid' ≠ mid →
  select_by_id mid' now (delete_message_by_id mid db) = select_by_id mid' now db.
Proof.
  intros Hne. unfold select_by_id, delete_message_by_id, delete_offline.
  cbn [offline_messages schedule_messages].
  induction (offline_messages db) as [|o rows IH]; [done|].
  rewrite filter_cons, !bind_cons. destruct (decide _) as [Hkeep|Hdrop].
  - rewrite bind_cons. f_equal. apply IH.
  - rewrite IH. apply not_false_is_true, String.eqb_eq in Hdrop.
    rewrite (bind_nil_all _ (schedule_messages db)); [done|]. intros s _.
    assert (String.eqb (row_message_id o) mid' = false) as ->; [|by rewrite andb_false_r].
    apply String.eqb_neq. by rewrite Hdrop.
Qed.

Lemma delete_offline_comm c1 c2 db :
  delete_offline c1 (delete_offline c2 db) = delete_offline c2 (delete_offline c1 db).
Proof.
  unfold delete_offline. simpl. f_equal.
  induction (offline_messages db) as [|o rows IH]; [done|].
  rewrite !filter_cons. destruct (decide (c2 o = false)), (decide (c1 o = false));
    rewrite ?filter_cons; repeat case_decide; try done; by rewrite IH.
Qed.


Lemma select_all_pending_fmap (u : schedule_row → schedule_row) now db :
  (∀ s, sched_message_id (u s) = sched_message_id s ∧ expiry_time (u s) = expiry_time s) →
  select_all_pending now
    {| offline_messages := offline_messages db;
       schedule_messages := u <$> schedule_messages db;
       sqlite_sequence := sqlite_sequence db |}
  = prod_map (λ o, o) u <$> select_all_pending now db.
Proof.
  intros Hu. unfold select_all_pending. cbn [offline_messages schedule_messages].
  assert (Hrow : ∀ o sched,
            (s ← u <$> sched;
             if String.eqb (row_message_id o) (sched_message_id s)
                && PrimFloat.ltb now (expiry_time s)
             then [(o, s)] else [])
            = prod_map (λ o, o) u
              <$> (s ← sched;
                   if String.eqb (row_message_id o) (sched_message_id s)
                      && PrimFloat.ltb now (expiry_time s)
                   then [(o, s)] else [])).
  { intros o sched. induction sched as [|s sched IHs]; [done|].
    rewrite fmap_cons, !bind_cons, fmap_app, IHs. f_equal.
    destruct (Hu s) as [-> ->]. by case_match. }
  induction (offline_messages db) as [|o rows IH]; [done|].
  by rewrite !bind_cons, fmap_app, IH, Hrow.
Qed.


(** ** At the stored message *)

Lemma stored_database_consistent : consistent stored_database.
Proof.
  split; [|split].
  - apply NoDup_singleton.
  - apply NoDup_singleton.
  - intros mid Hmid. exact Hmid.
Qed.




Lemma empty_database_consistent : consistent empty_database.
Proof. split; [constructor|]. split; [constructor|]. done. Qed.


End QueueFacts.
(* ===================================================================== *)
(** * More on the codec and the connection: lines on the wire              *)
(* ===================================================================== *)

Module StreamFacts.
Import Py Message Connection Wire Stream Samples MessageFacts.

Section strings.

Lemma append_cons a (s t : string) : String a s +:+ t = String a (s +:+ t).
Proof. reflexivity. Qed.

Lemma append_nil_r (s : string) : s +:+ "" = s.
Proof. induction s as [|a s IH]; [done|]. by rewrite append_cons, IH. Qed.

Lemma append_assoc (s1 s2 s3 : string) : (s1 +:+ s2) +:+ s3 = s1 +:+ (s2 +:+ s3).
Proof. induction s1 as [|a s1 IH]; [done|]. by rewrite !append_cons, IH. Qed.

Lemma length_append (s1 s2 : string) :
  String.length (s1 +:+ s2) = String.length s1 + String.length s2.
Proof. induction s1 as [|a s1 IH]; [done|]. rewrite append_cons. simpl. by rewrite IH. Qed.

Lemma bytes_to_from sent buffer : bytes_to sent buffer +:+ bytes_from sent buffer = buffer.
Proof.
  revert buffer. induction sent as [|sent IH]; intros buffer; [done|].
  destruct buffer as [|a rest]; [done|]. simpl. by rewrite append_cons, IH.
Qed.

Lemma length_bytes_from sent buffer :
  String.length (bytes_from sent buffer) ≤ String.length buffer.
Proof.
  revert buffer. induction sent as [|sent IH]; intros buffer; [done|].
  destruct buffer as [|a rest]; [done|]. simpl. specialize (IH rest). lia.
Qed.

Lemma substring_in_newline_cons a s :
  substring_in newline (String a s)
  = Ascii.eqb (Ascii.ascii_of_nat 10) a || substring_in newline s.
Proof. simpl. by rewrite andb_true_r. Qed.

Lemma split_newline_line line rest :
  substring_in newline line = false →
  split_newline (line +:+ newline +:+ rest) = Some (line, rest)
  ∧ substring_in newline (line +:+ newline +:+ rest) = true.
Proof.
  induction line as [|a line IH]; intros Hline; [done|].
  rewrite substring_in_newline_cons in Hline.
  apply orb_false_iff in Hline as [Ha Hline].
  destruct (IH Hline) as [IH1 IH2]. rewrite append_cons. split.
  - cbn [split_newline]. by rewrite Ascii.eqb_sym, Ha, IH1.
  - by rewrite substring_in_newline_cons, IH2, orb_true_r.
Qed.

Lemma split_newline_None buffer :
  substring_in newline buffer = false → split_newline buffer = None.
Proof.
  induction buffer as [|a buffer IH]; [done|].
  rewrite substring_in_newline_cons. intros Hb.
  apply orb_false_iff in Hb as [Ha Hb]. cbn [split_newline].
  by rewrite Ascii.eqb_sym, Ha, IH.
Qed.

End strings.

Section connection.
Context `{JsonModule} `{Utf8Codec}.

Lemma extract_message_line uuid now (self : PeerConnection) line rest :
  substring_in newline line = false →
  self.(inbound_buffer) = line +:+ newline +:+ rest →
  extract_message uuid now self
  = (match utf8_decode line with
     | Some text =>
         match from_json uuid now text with
         | Ok message => message
         | Raise _ => None
         end
     | None => None
     end,
     set_inbound_buffer rest self).
Proof.
  intros Hline Hbuf. unfold extract_message, is_message_complete. rewrite Hbuf.
  destruct (split_newline_line line rest Hline) as [-> ->]. simpl.
  unfold set_inbound_buffer. by repeat case_match.
Qed.



End connection.

Section stream.
Context `{JsonModule}.

Lemma lines_app messages message :
  lines (messages ++ [message]) = lines messages +:+ to_json message +:+ newline.
Proof.
  induction messages as [|m messages IH]; simpl.
  - by rewrite append_nil_r.
  - by rewrite IH, !append_assoc.
Qed.

Lemma stream_inv_step c s : stream_inv s → stream_inv (apply_connection_call c s).
Proof.
  intros [Hbytes Hsize]. destruct c as [message|send]; unfold stream_inv; simpl.
  - unfold queue_message. case_decide as Hfull; simpl; [done|].
    rewrite lines_app, <- Hbytes, !append_assoc. split; [done|].
    rewrite !length_append in *. lia.
  - unfold send_buffered_data, taken.
    destruct (outbound_buffer (connection s)) as [|a buffer] eqn:Hbuf.
    { simpl. by rewrite Hbuf, append_nil_r, <- Hbytes, append_nil_r. }
    destruct (send (String a buffer)) as [sent| | |]; simpl;
      rewrite ?Hbuf, ?append_nil_r; try done.
    rewrite append_assoc, bytes_to_from. split; [done|].
    pose proof (length_bytes_from sent (String a buffer)). lia.
Qed.



Lemma all_in_str fields s :
  all_in fields (JStr s) = Ok (forallb (λ field, substring_in field s) fields).
Proof.
  induction fields as [|field fields IH]; [done|].
  cbn [all_in py_in forallb]. destruct (substring_in field s); [exact IH|done].
Qed.

Lemma all_in_list fields l :
  all_in fields (JList l) = Ok (forallb (λ field, existsb (eq_str field) l) fields).
Proof.
  induction fields as [|field fields IH]; [done|].
  cbn [all_in py_in forallb]. destruct (existsb (eq_str field) l); [exact IH|done].
Qed.

Lemma forallb_Forall {A} (f : A → bool) (l : list A) :
  forallb f l = true ↔ Forall (λ x, f x = true) l.
Proof.
  induction l as [|x l IH]; simpl; [by split; [constructor|]|].
  rewrite andb_true_iff, Forall_cons, IH. done.
Qed.


End stream.

(** ** At the queued message *)



End StreamFacts.
(* ===================================================================== *)
(** * More on the node: what the handlers keep                             *)
(* ===================================================================== *)

Module NodeFacts.
Import Py Peer Node Samples PeerFacts RouterFacts EdgeFacts QueueFacts StreamFacts.
Import Router Graph.

Section keeps.
Context (I : Peer.Peer → Prop).

Lemma keeps_ret {A} (a : A) : keeps I (mret a).
Proof. by intros self. Qed.

Lemma keeps_bind {A B} (c : M A) (k : A → M B) :
  keeps I c → (∀ a, keeps I (k a)) → keeps I (c ≫= k).
Proof.
  intros Hc Hk self HI. unfold mbind, M_bind. simpl.
  destruct (value (c self)) as [a|e] eqn:Hv; simpl; [|by apply Hc].
  by apply Hk, Hc.
Qed.

Lemma keeps_get : keeps I get.
Proof. by intros self. Qed.

Lemma keeps_raise {A} e : keeps I (raise e : M A).
Proof. by intros self. Qed.

Lemma keeps_lift {A} (r : pyresult A) : keeps I (lift r).
Proof. by intros self. Qed.

Lemma keeps_call ev : keeps I (call ev).
Proof. by intros self. Qed.

Lemma keeps_modify f : (∀ self, I self → I (f self)) → keeps I (modify f).
Proof. intros Hf self. apply Hf. Qed.

Lemma keeps_for_each {A} (l : list A) (body : nat → A → M unit) i :
  (∀ j x, keeps I (body j x)) → keeps I (for_each l body i).
Proof.
  intros Hbody. revert i. induction l as [|x l IH]; intros i; simpl.
  - apply keeps_ret.
  - apply keeps_bind; [apply Hbody|]. intros _. apply IH.
Qed.

End keeps.

Ltac keeps_step tac :=
  first
    [ apply keeps_ret
    | apply keeps_get
    | apply keeps_raise
    | apply keeps_lift
    | apply keeps_call
    | apply keeps_modify; solve [tac]
    | apply keeps_for_each; intros
    | apply keeps_bind; [|intros]
    | match goal with
      | |- keeps _ (match ?x with _ => _ end) => destruct x
      | |- keeps _ (if ?b then _ else _) => destruct b
      | |- keeps _ (let _ := _ in _) => cbv zeta
      end ].

Ltac keeps_all tac := repeat keeps_step tac.

Section graph.
Context `{JsonModule}.

Ltac same_graph := intros; assumption.

Ltac unfold_methods :=
  unfold handle_handshake, handle_user_message, handle_peer_list,
    handle_received_alert, _forward_alert,
    send_views, deliver_queued_messages, send_message, route_message,
    queue_offline_message, queue_message.

Lemma elem_of_neighbors_merge (g0 : gmap string (list string)) peer neighbor u v :
  peer ∈ dom g0 →
  let g1 := if bool_decide (neighbor ∉ dom g0) then <[neighbor := []]> g0 else g0 in
  let g2 := if bool_decide (neighbor ∉ neighbors_of g1 peer)
            then alter (set_add neighbor) peer g1 else g1 in
  let g3 := if bool_decide (peer ∉ neighbors_of g2 neighbor)
            then alter (set_add peer) neighbor g2 else g2 in
  peer ∈ dom g3
  ∧ (v ∈ neighbors_of g3 u
     ↔ v ∈ neighbors_of g0 u
       ∨ (u = peer ∧ v = neighbor) ∨ (u = neighbor ∧ v = peer)).
Proof.
  intros Hpeer g1 g2 g3.
  assert (H1 : ∀ w, neighbors_of g1 w = neighbors_of g0 w).
  { intros w. unfold g1. case_bool_decide; [|done]. by apply neighbors_of_insert_nil. }
  assert (Hp1 : peer ∈ dom g1).
  { unfold g1. case_bool_decide; rewrite ?dom_insert_L; set_solver. }
  assert (Hn1 : neighbor ∈ dom g1).
  { unfold g1. case_bool_decide as Hd; rewrite ?dom_insert_L; [set_solver|].
    done. }
  assert (H2 : ∀ w x, x ∈ neighbors_of g2 w
                      ↔ x ∈ neighbors_of g0 w ∨ (w = peer ∧ x = neighbor)).
  { intros w x. unfold g2. case_bool_decide as Hf.
    - rewrite neighbors_of_alter by done. case_decide as Hw.
      + subst. rewrite elem_of_set_add, H1. naive_solver.
      + rewrite H1. naive_solver.
    - rewrite H1. split; [by left|]. intros [?|[-> ->]]; [done|].
      by rewrite H1 in Hf. }
  assert (Hp2 : peer ∈ dom g2 ∧ neighbor ∈ dom g2).
  { unfold g2. case_bool_decide; rewrite ?dom_alter_L; done. }
  split.
  { unfold g3. case_bool_decide; rewrite ?dom_alter_L; by destruct Hp2. }
  unfold g3. case_bool_decide as Hb.
  - rewrite neighbors_of_alter by (by destruct Hp2). case_decide as Hu.
    + subst. rewrite elem_of_set_add, H2. naive_solver.
    + rewrite H2. naive_solver.
  - rewrite H2. split; [naive_solver|]. intros [?|[[-> ->]|[-> ->]]]; [by left|by right|].
    by apply H2 in Hb.
Qed.

Lemma merge_edge_undirected peer neighbor :
  keeps (λ self, graph_undirected self ∧ peer ∈ dom (peer_graph (router self)))
        (merge_edge peer neighbor).
Proof.
  intros self [Hsym Hpeer]. unfold merge_edge. rewrite bind_get, bind_modify.
  cbn [state mret M_ret router set_router set_peer_graph peer_graph].
  split.
  - intros u v Hin.
    apply (elem_of_neighbors_merge (peer_graph (router self)) peer neighbor _ _ Hpeer) in Hin.
    apply (elem_of_neighbors_merge (peer_graph (router self)) peer neighbor _ _ Hpeer).
    destruct Hin as [Hin|[[-> ->]|[-> ->]]].
    + left. by apply Hsym.
    + right. by right.
    + right. by left.
  - apply (elem_of_neighbors_merge (peer_graph (router self)) peer neighbor peer peer Hpeer).
Qed.

Lemma merge_neighbors_undirected peer l u :
  keeps (λ self, graph_undirected self ∧ peer ∈ dom (peer_graph (router self)))
        (merge_neighbors peer l u).
Proof.
  revert u. induction l as [|x l IH]; intros u; simpl; [apply keeps_ret|].
  destruct x; try apply keeps_raise.
  apply keeps_bind; [apply merge_edge_undirected|]. intros changed. apply IH.
Qed.

Lemma state_bind {A B} (c : M A) (k : A → M B) self :
  state ((c ≫= k) self)
  = match value (c self) with
    | Ok a => state (k a (state (c self)))
    | Raise _ => state (c self)
    end.
Proof. unfold mbind, M_bind. simpl. by destruct (value (c self)). Qed.

Lemma value_bind {A B} (c : M A) (k : A → M B) self :
  value ((c ≫= k) self)
  = match value (c self) with
    | Ok a => value (k a (state (c self)))
    | Raise e => Raise e
    end.
Proof. unfold mbind, M_bind. simpl. by destruct (value (c self)). Qed.

Lemma merge_graph_undirected g u : keeps graph_undirected (merge_graph g u).
Proof.
  revert u. induction g as [|[peer nbs] g IH]; intros u; simpl; [apply keeps_ret|].
  intros self Hsym. rewrite bind_get.
  set (start := state ((if bool_decide (peer ∉ dom (peer_graph (router self)))
                        then modify (set_router (set_peer_graph (<[peer := []]>)))
                        else mret ()) self)).
  assert (Hstart : graph_undirected start ∧ peer ∈ dom (peer_graph (router start))).
  { unfold start. case_bool_decide as Hnew; simpl.
    - split; [|rewrite dom_insert_L; set_solver].
      intros a b. unfold set_router, set_peer_graph. simpl.
      rewrite !neighbors_of_insert_nil by done. apply Hsym.
    - done. }
  rewrite state_bind.
  assert (Hv : value ((if bool_decide (peer ∉ dom (peer_graph (router self)))
                        then modify (set_router (set_peer_graph (<[peer := []]>)))
                        else mret ()) self) = Ok ()) by by case_bool_decide.
  rewrite Hv. fold start. rewrite state_bind. simpl.
  destruct (iterate nbs) as [elements|e]; simpl; [|by destruct Hstart].
  rewrite state_bind.
  pose proof (merge_neighbors_undirected peer elements
                (u || bool_decide (peer ∉ dom (peer_graph (router self)))) start Hstart)
    as [Hafter _].
  clear Hv. destruct (value (merge_neighbors _ _ _ _)); [exact (IH _ _ Hafter)|done].
Qed.

Lemma update_routing_graph_undirected :
  keeps graph_undirected
    (modify (λ self, set_router (λ r, update_routing_graph r (known_peers self).*1) self)).
Proof. apply keeps_modify. by intros self. Qed.



(** ** [handle_peer_list] *)

Lemma dict_in_set {V} k k' (v : V) d :
  dict_in k (dict_set k' v d) = true ↔ k = k' ∨ dict_in k d = true.
Proof.
  unfold dict_in. rewrite dict_get_set. case_decide as Hk.
  - split; [by left|]. intros _. by apply bool_decide_eq_true.
  - split; [by right|]. by intros [?|?].
Qed.

Lemma dict_in_get {V} k (d : list (string * V)) :
  dict_in k d = true ↔ is_Some (dict_get k d).
Proof. unfold dict_in. by rewrite bool_decide_eq_true. Qed.

Lemma dict_in_false {V} k (d : list (string * V)) :
  dict_in k d = false ↔ dict_get k d = None.
Proof.
  unfold dict_in. rewrite bool_decide_eq_false, <- eq_None_not_Some. done.
Qed.

(** The loop of [handle_peer_list] over the received entries. *)
Lemma peer_list_fold (me : string) (l : list (string * json)) (acc : list (string * json) * nat) :
  let step := λ (acc : list (string * json) * nat) (item : string * json),
                if negb (String.eqb item.1 me) && negb (dict_in item.1 acc.1)
                then (dict_set item.1 item.2 acc.1, S acc.2) else acc in
  (∀ k v, dict_get k acc.1 = Some v → dict_get k (foldl step acc l).1 = Some v)
  ∧ (∀ k, dict_in k (foldl step acc l).1 = true
          ↔ dict_in k acc.1 = true ∨ (k ≠ me ∧ dict_in k l = true))
  ∧ (∀ k, dict_in k acc.1 = false → k ≠ me →
          dict_get k (foldl step acc l).1 = dict_get k l).
Proof.
  intros step. revert acc. induction l as [|[k0 v0] l IH]; intros acc.
  { simpl. split; [done|]. split; [|by intros k ?%dict_in_false].
    intros k. split; [by left|]. by intros [?|[_ ?]]. }
  cbn [foldl]. destruct (IH (step acc (k0, v0))) as (IH1 & IH2 & IH3).
  assert (Hstep : ∀ k, dict_in k (step acc (k0, v0)).1 = true
                       ↔ dict_in k acc.1 = true ∨ (k = k0 ∧ k0 ≠ me)).
  { intros k. unfold step. cbn [fst snd].
    destruct (String.eqb_spec k0 me) as [->|Hne]; cbn [negb andb].
    - naive_solver.
    - destruct (dict_in k0 acc.1) eqn:Hk0; cbn [negb fst].
      + split; [by left|]. intros [?|[-> _]]; done.
      + rewrite dict_in_set. naive_solver. }
  assert (Hkeep : ∀ k v, dict_get k acc.1 = Some v → dict_get k (step acc (k0, v0)).1 = Some v).
  { intros k v Hk. unfold step. cbn [fst snd].
    destruct (negb (String.eqb k0 me)); cbn [andb]; [|done].
    destruct (dict_in k0 acc.1) eqn:Hk0; cbn [negb fst]; [done|].
    rewrite dict_get_set. case_decide as Heq; [|done]. subst.
    apply not_true_iff_false in Hk0. destruct Hk0. apply dict_in_get. by rewrite Hk. }
  split; [|split].
  - intros k v Hk. by apply IH1, Hkeep.
  - intros k. rewrite IH2, Hstep. unfold dict_in at 4. cbn [dict_get].
    destruct (String.eqb_spec k k0) as [->|Hne].
    + split; [|intros [?|[? _]]; [by left; left|]].
      * intros [[?|[_ ?]]|[? _]]; [by left|right|right];
          (split; [done|by apply bool_decide_eq_true]).
      * destruct (dict_in k0 acc.1) eqn:Hin; [by left; left|]. left. by right.
    + fold (dict_in k l). naive_solver.
  - intros k Hnew Hme. cbn [dict_get]. destruct (String.eqb_spec k k0) as [->|Hne].
    + apply IH1. unfold step. cbn [fst snd].
      destruct (String.eqb_spec k0 me) as [?|_]; [done|]. cbn [negb andb].
      rewrite Hnew. cbn [negb fst]. rewrite dict_get_set. by rewrite decide_True.
    + apply IH3; [|done]. apply not_true_iff_false. rewrite Hstep.
      intros [Hin|[? _]]; [|done]. by rewrite Hin in Hnew.
Qed.

Lemma handle_peer_list_known env message self :
  known_peers (state (handle_peer_list env message self))
  = (foldl (λ (acc : list (string * json) * nat) (item : string * json),
              if negb (String.eqb item.1 (Peer.peer_id self)) && negb (dict_in item.1 acc.1)
              then (dict_set item.1 item.2 acc.1, S acc.2) else acc)
           (known_peers self, 0) (Message.data message)).1.
Proof.
  unfold handle_peer_list. rewrite bind_get, bind_modify.
  case_decide; [|done].
  match goal with
  | |- context [state (?c ?start)] =>
      assert (Hp : preserves known_peers c) by frame; by rewrite Hp
  end.
Qed.



(** ** [send_message] *)

Lemma queue_offline_message_run env m self :
  queue_offline_message env m self
  = mkOutcome (MessageStore.store_offline_message (time_time env []) m (message_store self)).1
      (set_message_store
         (λ _, (MessageStore.store_offline_message (time_time env []) m
                  (message_store self)).2) self) [].
Proof.
  unfold queue_offline_message. rewrite bind_get, bind_modify. unfold lift. done.
Qed.

Lemma set_message_store_same self :
  set_message_store (λ _, message_store self) self = self.
Proof. by destruct self. Qed.

Lemma queue_then_true c m self :
  (queue_message c m ≫= λ _, mret true) self
  = mkOutcome (Ok true)
      (set_objects (<[c := (Connection.queue_message (objects self c) m).2]>) self) [].
Proof. erewrite bind_ok; [done|apply queue_message_run]. Qed.

Lemma store_then_false env m self :
  (queue_offline_message env m ≫= λ _, mret false) self
  = mkOutcome
      (match (MessageStore.store_offline_message (time_time env []) m (message_store self)).1 with
       | Ok _ => Ok false
       | Raise e => Raise e
       end)
      (set_message_store
         (λ _, (MessageStore.store_offline_message (time_time env []) m
                  (message_store self)).2) self) [].
Proof.
  unfold mbind, M_bind. rewrite queue_offline_message_run. simpl.
  by destruct (MessageStore.store_offline_message _ _ _).1.
Qed.



(** ** [cleanup_connection] *)

Lemma returns_ret {A} (a : A) : returns (mret a).
Proof. intros self. by exists a. Qed.

Lemma returns_get : returns get.
Proof. intros self. by exists self. Qed.

Lemma returns_modify f : returns (modify f).
Proof. intros self. by exists (). Qed.

Lemma returns_bind {A B} (c : M A) (k : A → M B) :
  returns c → (∀ a, returns (k a)) → returns (c ≫= k).
Proof.
  intros Hc Hk self. destruct (Hc self) as [a Ha].
  destruct (Hk a (state (c self))) as [b Hb]. exists b.
  unfold mbind, M_bind. by rewrite Ha.
Qed.

Lemma returns_for_each {A} (l : list A) (body : nat → A → M unit) i :
  (∀ j x, returns (body j x)) → returns (for_each l body i).
Proof.
  intros Hbody. revert i. induction l as [|x l IH]; intros i; simpl.
  - apply returns_ret.
  - apply returns_bind; [apply Hbody|]. intros _. apply IH.
Qed.

Lemma returns_queue_message c m : returns (queue_message c m).
Proof. intros self. rewrite queue_message_run. by eexists. Qed.

Ltac returns_step :=
  first
    [ apply returns_ret
    | apply returns_get
    | apply returns_modify
    | apply returns_queue_message
    | apply returns_for_each; intros
    | apply returns_bind; [|intros]
    | match goal with
      | |- returns (if ?b then _ else _) => destruct b
      end ].

Lemma dict_get_pop {V} k p (d : list (string * V)) :
  dict_get k (dict_pop p d) = if decide (k = p) then None else dict_get k d.
Proof.
  unfold dict_pop. induction d as [|[k0 v0] d IH]; [by case_decide|].
  rewrite filter_cons. cbn [fst]. destruct (decide (k0 ≠ p)) as [Hne|Heq].
  - cbn [dict_get]. rewrite IH. destruct (String.eqb_spec k k0) as [->|?]; [|done].
    by rewrite decide_False.
  - apply dec_stable in Heq. subst. rewrite IH. cbn [dict_get].
    destruct (decide (k = p)) as [->|Hk]; [done|].
    by destruct (String.eqb_spec k p).
Qed.

Lemma value_bind_unit (c : M unit) (k : unit → M unit) self :
  value (c self) = Ok () → value ((c ≫= k) self) = value (k () (state (c self))).
Proof. intros Hc. unfold mbind, M_bind. by rewrite Hc. Qed.


(** A connection that never completed a handshake has no peer behind it,
    and [cleanup_connection] changes nothing. *)
Lemma cleanup_connection_anonymous `{Utf8Codec} env connection self :
  Connection.peer_id (objects self connection) = None →
  cleanup_connection env connection self = mkOutcome (Ok ()) self [].
Proof. intros Hp. unfold cleanup_connection. by rewrite bind_get, Hp. Qed.


(** ** [process_message] *)

Section inbound.
Context `{Utf8Codec}.
Variable c : nat.

Lemma queue_message_inbound c' m : preserves (inbound c) (queue_message c' m).
Proof.
  intros self. rewrite queue_message_run. unfold inbound, set_objects. simpl.
  unfold insert, fn_insert. case_decide as Hc; [|done]. subst.
  unfold Connection.queue_message. by case_decide.
Qed.

Lemma merge_neighbors_inbound peer l u : preserves (inbound c) (merge_neighbors peer l u).
Proof.
  revert u. induction l as [|x l IH]; intros u; simpl; [frame|].
  destruct x; try (by frame).
Qed.

Lemma merge_graph_inbound g u : preserves (inbound c) (merge_graph g u).
Proof.
  revert u. induction g as [|[peer nbs] g IH]; intros u; simpl; [frame|].
  apply preserves_bind; [frame|]. intros self.
  apply preserves_bind; [frame|]. intros _.
  apply preserves_bind; [frame|]. intros elements.
  apply preserves_bind; [apply merge_neighbors_inbound|]. intros u'. apply IH.
Qed.

Ltac inbound_step :=
  lazymatch goal with
  | |- preserves _ (queue_message _ _) => apply queue_message_inbound
  | |- preserves _ (modify _) =>
      apply preserves_modify; intros; unfold inbound, set_objects;
      cbn [objects Connection.inbound_buffer set_connections set_known_peers set_router
           set_message_store set_recent_alerts set_seen_messages];
      first [ reflexivity
            | unfold insert, fn_insert; case_decide; subst; reflexivity ]
  | |- preserves _ (mret _) => apply preserves_ret
  | |- preserves _ get => apply preserves_get
  | |- preserves _ (raise _) => apply preserves_raise
  | |- preserves _ (lift _) => apply preserves_lift
  | |- preserves _ (call _) => apply preserves_call
  | |- preserves _ (for_each _ _ _) => apply preserves_for_each; intros
  | |- preserves _ (_ ≫= _) => apply preserves_bind; [|intros]
  | |- preserves _ (match ?x with _ => _ end) => destruct x
  | |- preserves _ (let _ := _ in _) => cbv zeta
  end.

Ltac unfold_handlers :=
  unfold handle_handshake, handle_user_message, handle_peer_list,
    handle_received_alert, _forward_alert,
    send_views, deliver_queued_messages, send_message, route_message,
    queue_offline_message.

Lemma handle_message_inbound env message connection :
  preserves (inbound c) (handle_message env message connection).
Proof.
  unfold handle_message. apply preserves_bind; [frame|]. intros self.
  case_bool_decide; [frame|]. apply preserves_bind; [frame|]. intros _.
  rewrite dispatch_handler_of. destruct (handler_of _) as [[]|]; simpl.
  - unfold_handlers. repeat inbound_step.
  - unfold_handlers. repeat inbound_step.
  - unfold_handlers. repeat inbound_step.
  - unfold_handlers. repeat inbound_step.
  - unfold handle_network_structure_message.
    destruct (get_or_none _ _); try (by frame).
    apply preserves_bind; [apply merge_graph_inbound|]. intros u.
    repeat inbound_step.
  - frame.
Qed.

End inbound.

Lemma split_newline_Some buffer line rest :
  Connection.split_newline buffer = Some (line, rest) →
  buffer = line +:+ Connection.newline +:+ rest
  ∧ count_newlines buffer = S (count_newlines rest).
Proof.
  revert line. induction buffer as [|a buffer IH]; intros line Hs; [done|].
  cbn [Connection.split_newline] in Hs. cbn [count_newlines].
  destruct (Ascii.eqb a (Ascii.ascii_of_nat 10)) eqn:Ha.
  - apply Ascii.eqb_eq in Ha. by simplify_eq.
  - destruct (Connection.split_newline buffer) as [[line' rest']|]; [|done].
    simpl in Hs. simplify_eq. destruct (IH line' eq_refl) as [-> ->]. done.
Qed.

Lemma is_message_complete_split (self : Connection.PeerConnection) :
  Connection.is_message_complete self = true →
  is_Some (Connection.split_newline (Connection.inbound_buffer self)).
Proof.
  unfold Connection.is_message_complete.
  destruct (Connection.split_newline _) eqn:Hs; [done|]. intros Hc.
  induction (Connection.inbound_buffer self) as [|a buffer IH]; [done|].
  rewrite substring_in_newline_cons in Hc. cbn [Connection.split_newline] in Hs.
  rewrite Ascii.eqb_sym in Hc.
  destruct (Ascii.eqb a (Ascii.ascii_of_nat 10)); [done|]. simpl in Hc.
  destruct (Connection.split_newline buffer); [done|]. by apply IH.
Qed.

Lemma process_loop_drains `{Utf8Codec} fuel env connection i self :
  count_newlines (inbound connection self) < fuel →
  value (process_loop fuel env connection i self) ≠ Ok None
  ∧ (value (process_loop fuel env connection i self) = Ok (Some ()) →
     Connection.is_message_complete
       (objects (state (process_loop fuel env connection i self)) connection) = false
     ∧ ∃ consumed,
         inbound connection self
         = consumed +:+ inbound connection (state (process_loop fuel env connection i self))
         ∧ whole_lines consumed).
Proof.
  revert i self. induction fuel as [|fuel IH]; intros i self Hfuel; [lia|].
  cbn [process_loop]. rewrite bind_get.
  destruct (Connection.is_message_complete (objects self connection)) eqn:Hcomplete.
  2:{ simpl. split; [done|]. intros _. split; [done|]. exists "". split; [done|by left]. }
  destruct (is_message_complete_split _ Hcomplete) as [[line rest] Hsplit].
  destruct (split_newline_Some _ _ _ Hsplit) as [Hbuf Hcount].
  set (r := Connection.extract_message _ _ _).
  assert (Hr : Connection.inbound_buffer r.2 = rest).
  { unfold r, Connection.extract_message. rewrite Hcomplete, Hsplit. simpl.
    by repeat case_match. }
  rewrite bind_modify.
  set (start := set_objects _ self).
  assert (Hstart : inbound connection start = rest).
  { unfold start, inbound, set_objects. simpl. unfold insert, fn_insert.
    by rewrite decide_True. }
  set (handled := match r.1 with
                  | Some message => handle_message (site (site env i) 1) message connection
                  | None => mret ()
                  end).
  assert (Hkeep : preserves (inbound connection) handled).
  { unfold handled. destruct r.1; [apply handle_message_inbound|frame]. }
  rewrite !value_bind, !state_bind.
  destruct (value (handled start)) as [[]|e] eqn:Hv; [|done].
  pose proof (Hkeep start) as Hkept. rewrite Hstart in Hkept.
  unfold inbound at 1 in Hfuel. rewrite Hcount in Hfuel.
  destruct (IH (S i) (state (handled start))) as [IH1 IH2]; [rewrite Hkept; lia|].
  split; [done|].
  intros Hok. destruct (IH2 Hok) as (Hdone & consumed & Hrest & Hwhole).
  rewrite Hkept in Hrest.
  split; [done|]. exists (line +:+ Connection.newline +:+ consumed). split.
  - unfold inbound at 1. rewrite Hbuf, Hrest. by rewrite !append_assoc.
  - right. destruct Hwhole as [->|[lines ->]].
    + exists line. by rewrite append_nil_r.
    + exists (line +:+ Connection.newline +:+ lines). by rewrite !append_assoc.
Qed.


End graph.

(** ** At the sample nodes *)



(** ** Risk levels *)


End NodeFacts.
